(** * A shallow embedding of [trie.h] (kephir4eg/trie)

    The compressed radix trie [trie::trie_map<char, ValueT, CMinChunkSize>].

    - An atom is a C++ [char]: a [Z] in [-128, 128).  The bit operations of
      the source ([&], [^], unary minus, [<<]) are [Z.land], [Z.lxor],
      [Z.opp], [Z.shiftl]; the [unsigned int] / [uint32_t] wrap-around is
      written out with [mod 2^32].
    - The edge storage [std::deque<NodeT> edges] is a [list TrieNode]; a
      [NodeT *] is an index into it (the deque never moves its elements),
      the root is [edges[0]].
    - A child table [self_pointer * data] of [size] slots is a
      [list (option nat)] of that length, [None] being [nullptr].
    - A label slice into the label arena is represented by the atoms it
      denotes (the arena is append-only and a slice is never rewritten);
      the two [PrefixHolder] variants and their [psplit] are modelled on
      the arena itself in module [Prefix].
    - The five lambdas passed to [general_search] are functions over an
      accumulator that stands for the state they capture. *)

From Stdlib Require Import ZArith Lia Bool.
From stdpp Require Import base list sets.
From Stdlib Require Strings.String Strings.Ascii.
Import String.StringSyntax.

(** ** Value holders: [ValueHolder<ValueT>] and [ValueHolder<SetCounter>] *)

Class ValueHolder (Slot Val : Type) := {
  vh_empty : Slot;
  has_value : Slot -> bool;
  get_value : Slot -> option Val;
  set_value : Val -> Slot;
  vh_empty_absent : has_value vh_empty = false;
  vh_has_get : forall s, has_value s = true -> is_Some (get_value s)
}.

(** [ValueHolder<ValueT>]: an [std::auto_ptr<ValueT>], present iff non-null. *)
Definition map_has_value {V : Type} (s : option V) : bool :=
  match s with Some _ => true | None => false end.

Definition map_has_get {V : Type} (s : option V) : map_has_value s = true -> is_Some s :=
  match s with
  | Some x => fun _ => ex_intro _ x eq_refl
  | None => fun H => False_rect _ (diff_false_true H)
  end.

#[global] Instance map_holder (V : Type) : ValueHolder (option V) V := {|
  vh_empty := None;
  has_value := map_has_value;
  get_value s := s;
  set_value x := Some x;
  vh_empty_absent := eq_refl;
  vh_has_get := map_has_get
|}.

(** [ValueHolder<SetCounter>]: an [int count], present iff [count != 0]. *)
Definition counter_has_get (c : Z) : negb (Z.eqb c 0) = true -> is_Some (Some c) :=
  fun _ => ex_intro _ c eq_refl.

#[global] Instance counter_holder : ValueHolder Z Z := {|
  vh_empty := 0%Z;
  has_value c := negb (Z.eqb c 0);
  get_value c := Some c;
  set_value x := x;
  vh_empty_absent := eq_refl;
  vh_has_get := counter_has_get
|}.

(** ** Nodes and the container *)

Record TrieNode (Slot : Type) := mk_node {
  label : list Z;                 (* [kbegin() .. kend()) *)
  value : Slot;                   (* the [ValueHolder] base *)
  data : list (option nat)        (* [data[0 .. size)] *)
}.
Arguments mk_node {Slot} _ _ _.
Arguments label {Slot} _.
Arguments value {Slot} _.
Arguments data {Slot} _.

Record trie_map (Slot : Type) := mk_trie {
  msize : nat;
  edges : list (TrieNode Slot)
}.
Arguments mk_trie {Slot} _ _.
Arguments msize {Slot} _.
Arguments edges {Slot} _.

(** [TrieNode::atom_hash]: [x & mask], the [char] promoted to [int].
    The callers pass [size - 1] for a non-empty power-of-two table; a
    [uint32_t] size is at most [2^31], so the mask is below [2^31], and
    there the conversions of the C++ expression change nothing: this is
    [cpp_atom_hash] below (theorem [atom_hash_slot]).  The tables of this
    model are lists, with no [uint32_t] bound on their length. *)
Definition atom_hash (x mask : Z) : Z := Z.land x mask.

(** [atom_hash] with every conversion of the C++ expression written out:
    the [int] operand is converted to [uint32_t] (modulo [2^32]) for [&]
    with the [uint32_t] mask, and the [unsigned] result is converted to the
    [int] return type (modulo [2^32], as C++20 fixes it and the usual
    targets did before). *)
Definition cpp_atom_hash (x mask : Z) : Z :=
  let u := Z.land (x mod 2 ^ 32) (mask mod 2 ^ 32) in
  if (u <? 2 ^ 31)%Z then u else (u - 2 ^ 32)%Z.

(** [TrieNode::least_uncolliding_size]:
    [unsigned int v = (int) a ^ (int) b; return (v & -v) << 1;]
    in [unsigned int] arithmetic; the [int] result is handed to
    [resize(uint32_t)], which gets back the same 32-bit pattern. *)
Definition least_uncolliding_size (a b : Z) : Z :=
  let v := (Z.lxor a b mod 2 ^ 32)%Z in
  (Z.shiftl (Z.land v ((- v) mod 2 ^ 32)) 1 mod 2 ^ 32)%Z.

(** The slot [atom_hash(x, size - 1)] of a table of [size] slots. *)
Definition slot_of (x : Z) (size : nat) : nat :=
  Z.to_nat (atom_hash x (Z.of_nat size - 1)%Z).

Section Node.
Context {Slot : Type}.
Implicit Types (es : list (TrieNode Slot)) (nd : TrieNode Slot).

(** [*n->kbegin()] for the node [n]; only read for non-root nodes, whose
    labels are never empty. *)
Definition first_atom es (c : nat) : Z :=
  match es !! c with
  | Some nd => hd 0%Z (label nd)
  | None => 0%Z
  end.

(** [starts_with(x)]: [chunk[begin] == x]. *)
Definition starts_with es (c : nat) (x : Z) : bool := Z.eqb (first_atom es c) x.

(** The re-hash loop of [TrieNode::resize]:
    [for (i < size) if (data[i]) ndata[atom_hash(first atom of data[i], new_size - 1)] = data[i];] *)
Definition rehash es (new_size : nat) (old : list (option nat)) : list (option nat) :=
  fold_left (fun ndata e =>
      match e with
      | Some c => <[slot_of (first_atom es c) new_size := Some c]> ndata
      | None => ndata
      end) old (repeat None new_size).

(** [TrieNode::resize]: a fresh table of [new_size] null slots; the old
    children are re-placed only when the table grows. *)
Definition resize es (new_size : nat) (old : list (option nat)) : list (option nat) :=
  if Nat.ltb (length old) new_size then rehash es new_size old
  else repeat None new_size.

(** [TrieNode::find]: the slot holding the child for atom [x], if any. *)
Definition node_find es nd (x : Z) : option nat :=
  let size := length (data nd) in
  if Nat.eqb size 0 then None
  else
    let h := slot_of x size in
    match data nd !! h with
    | Some (Some c) => if starts_with es c x then Some h else None
    | _ => None
    end.

(** The table after [TrieNode::put(edge)] on a node whose table is [d]. *)
Definition put_table es (d : list (option nat)) (edge : nat) : list (option nat) :=
  let x := first_atom es edge in
  let d0 := if Nat.eqb (length d) 0 then resize es 2 d else d in
  match d0 !! slot_of x (length d0) with
  | Some (Some b) =>
      let d1 := resize es (Z.to_nat (least_uncolliding_size x (first_atom es b))) d0 in
      <[slot_of x (length d1) := Some edge]> d1
  | _ => <[slot_of x (length d0) := Some edge]> d0
  end.

(** [TrieNode::put] on the node [p] of the store. *)
Definition put es (p edge : nat) : list (TrieNode Slot) :=
  match es !! p with
  | Some nd => <[p := mk_node (label nd) (value nd) (put_table es (data nd) edge)]> es
  | None => es
  end.

(** [TrieNode::split(next, breakIdx)]: [psplit] gives [next] the label
    suffix and keeps the prefix; the tables and the values are swapped;
    then [put(next)]. *)
Definition split es (n next m : nat) : list (TrieNode Slot) :=
  match es !! n, es !! next with
  | Some nn, Some nx =>
      let es1 := <[n := mk_node (take m (label nn)) (value nx) (data nx)]> es in
      let es2 := <[next := mk_node (drop m (label nn)) (value nn) (data nn)]> es1 in
      put es2 n next
  | _, _ => es
  end.

End Node.

(** ** The traversal kernel [trie_map::general_search]

    The C++ loop runs until one of the four terminal actions fires; it is
    modelled with a fuel argument, and [general_search] gives it one
    iteration per atom of the key plus one (claim C10 shows this never runs
    out).  [SDangling] stands for following a pointer that is not a node of
    the store, which never happens in a well-formed trie. *)

Inductive search_result (A : Type) := SDone (a : A) | SOutOfFuel | SDangling.
Arguments SDone {A} _.
Arguments SOutOfFuel {A}.
Arguments SDangling {A}.

(** The lockstep loop [while (it != end and k != kend and *k == *it) { ++k; ++it; }]:
    the number of steps it makes. *)
Fixpoint common_prefix (l1 l2 : list Z) : nat :=
  match l1, l2 with
  | a :: l1', b :: l2' => if Z.eqb a b then S (common_prefix l1' l2') else 0
  | _, _ => 0
  end.

Section GeneralSearch.
Context {Slot A : Type} (es : list (TrieNode Slot)) (key : list Z).
Context (exactMatchAction : nat -> A -> A)
        (noNextEdgeAction : nat -> nat -> A -> A)
        (endInTheMiddleAction : nat -> nat -> A -> A)
        (splitInTheMiddleAction : nat -> nat -> nat -> A -> A)
        (edgeAction : nat * nat -> nat -> A -> A).

(** One iteration per call: [n] is the current node, [kbegin] the offset in
    its label where matching starts, [it] the position in the key.  The
    label offset [k] and the key position are passed to the actions as
    numbers ([eit - n->kbegin()] and [kit - key.begin()]); the [NodeItr]
    of [edgeAction] is the pair (node, slot). *)
Fixpoint gs_loop (fuel : nat) (n kbegin it : nat) (acc : A) : search_result A :=
  match fuel with
  | O => SOutOfFuel
  | S fuel' =>
    match es !! n with
    | None => SDangling
    | Some nd =>
      let c := common_prefix (drop kbegin (label nd)) (drop it key) in
      let k := kbegin + c in
      let it' := it + c in
      if Nat.eqb it' (length key) then
        if Nat.eqb k (length (label nd)) then SDone (exactMatchAction n acc)
        else SDone (endInTheMiddleAction n k acc)
      else if negb (Nat.eqb k (length (label nd))) then
        SDone (splitInTheMiddleAction n k it' acc)
      else
        match node_find es nd (nth it' key 0%Z) with
        | None => SDone (noNextEdgeAction n it' acc)
        | Some h =>
          match data nd !! h with
          | Some (Some next) =>
              gs_loop fuel' next 1 (S it') (edgeAction (n, h) it' acc)
          | _ => SDangling
          end
        end
    end
  end.

(** [general_search(n, key.begin(), key.end(), ...)]. *)
Definition general_search (n : nat) (acc : A) : search_result A :=
  gs_loop (S (length key)) n 0 0 acc.

End GeneralSearch.

(** ** The container operations *)

Section Trie.
Context {Slot Val : Type} `{VH : ValueHolder Slot Val}.
Implicit Types (es : list (TrieNode Slot)) (st : trie_map Slot).

Definition empty_trie : trie_map Slot := mk_trie 0 [].

(** [new_edge(hint)]: [edges.emplace_back(hint)]; [TrieNode(hint)] allocates
    [hint] null slots.  The new node's index is [length es]. *)
Definition new_edge es (hint : nat) : list (TrieNode Slot) :=
  es ++ [mk_node [] vh_empty (repeat None hint)].

Definition update_node es (n : nat) (f : TrieNode Slot -> TrieNode Slot)
  : list (TrieNode Slot) :=
  match es !! n with
  | Some nd => <[n := f nd]> es
  | None => es
  end.

(** [insert_infix(it, end, parent, n)]: the label of [n] becomes the atoms
    [it .. end) (appended to the arena, see module [Prefix]). *)
Definition insert_infix es (l : list Z) (n : nat) : list (TrieNode Slot) :=
  update_node es n (fun nd => mk_node l (value nd) (data nd)).

(** [n->set_value(value)]. *)
Definition node_set_value es (n : nat) (v : Val) : list (TrieNode Slot) :=
  update_node es n (fun nd => mk_node (label nd) (set_value v) (data nd)).

(** [insert_edge(parent, it, end, value)]. *)
Definition insert_edge es (parent : option nat) (l : list Z) (v : Val)
  : list (TrieNode Slot) :=
  let n := length es in
  let es1 := insert_infix (new_edge es 0) l n in
  let es2 := match parent with Some p => put es1 p n | None => es1 end in
  node_set_value es2 n v.

(** [insert_value(at, value, replace)]: [replace(at.get_value(), value)]
    updates the stored value in place. *)
Definition insert_value es (at_node : nat) (v : Val) (replace : Val -> Val -> Val)
  : list (TrieNode Slot) :=
  match es !! at_node with
  | Some nd =>
    if has_value (value nd) then
      match get_value (value nd) with
      | Some old => <[at_node := mk_node (label nd) (set_value (replace old v)) (data nd)]> es
      | None => es
      end
    else <[at_node := mk_node (label nd) (set_value v) (data nd)]> es
  | None => es
  end.

(** [trie_map::insert(it, end, value, replace)]. *)
Definition insert st (key : list Z) (v : Val) (replace : Val -> Val -> Val)
  : trie_map Slot :=
  match edges st with
  | [] => mk_trie (S (msize st)) (insert_edge [] None key v)
  | es =>
    match general_search es key
      (fun n st => mk_trie (msize st) (insert_value (edges st) n v replace))
      (fun n kit st =>
         mk_trie (S (msize st)) (insert_edge (edges st) (Some n) (drop kit key) v))
      (fun n eit st =>
         let es := edges st in
         let es1 := split (new_edge es 1) n (length es) eit in
         mk_trie (S (msize st)) (node_set_value es1 n v))
      (fun n eit kit st =>
         let es := edges st in
         let es1 := split (new_edge es 2) n (length es) eit in
         mk_trie (S (msize st)) (insert_edge es1 (Some n) (drop kit key) v))
      (fun _ _ st => st)
      0 st with
    | SDone st' => st'
    | _ => st
    end
  end.

(** [trie_map::insert(it, end, value)]: the policy [old = n]. *)
Definition insert_assign st (key : list Z) (v : Val) : trie_map Slot :=
  insert st key v (fun _ n => n).

(** [trie_map::get(it, end)]: the pointer to the value, [None] for [nullptr]. *)
Definition get st (key : list Z) : option Val :=
  match edges st with
  | [] => None
  | es =>
    match general_search es key
      (fun n _ =>
         match es !! n with
         | Some nd => if has_value (value nd) then get_value (value nd) else None
         | None => None
         end)
      (fun _ _ r => r) (fun _ _ r => r) (fun _ _ _ r => r) (fun _ _ r => r)
      0 None with
    | SDone r => r
    | _ => None
    end
  end.

(** [trie_map::contains(it, end)]. *)
Definition contains st (key : list Z) : bool :=
  match edges st with
  | [] => false
  | es =>
    match general_search es key
      (fun n _ =>
         match es !! n with
         | Some nd => has_value (value nd)
         | None => false
         end)
      (fun _ _ r => r) (fun _ _ r => r) (fun _ _ _ r => r) (fun _ _ r => r)
      0 false with
    | SDone r => r
    | _ => false
    end
  end.

Definition size st : nat := msize st.

End Trie.

(** [old += n] on [int]: a signed overflow is undefined behaviour in C++;
    the model takes the two's-complement wrap-around of the usual targets,
    so an [int] stays in [[-2^31, 2^31)]. *)
Definition int_add (old n : Z) : Z := ((old + n + 2 ^ 31) mod 2 ^ 32 - 2 ^ 31)%Z.

(** [trie_map::add(it, end, value)] for [int] values (the map's [int] and
    [SetCounter]'s [int count]): the policy [old += n]. *)
Definition add {Slot : Type} `{ValueHolder Slot Z} (st : trie_map Slot) (key : list Z) (v : Z)
  : trie_map Slot :=
  insert st key v int_add.

(** Keys as C++ string literals. *)
Definition str (s : String.string) : list Z :=
  map (fun a => Z.of_N (Ascii.N_of_ascii a)) (String.list_ascii_of_string s).
Arguments str s%_string_scope.

(** ** The cursor [TrieIteratorInternal] and the public [iterator]

    A [traverse_ptr] points at a slot of a parent's table: the pair
    (parent, slot index).  [m_ptrs] keeps the vector's order (its [back()]
    is the last element).  The operations return [None] where the C++ code
    dereferences a null or dangling pointer or reads an uninitialised
    variable. *)

Record IteratorInternal := mk_iter {
  base_prefix : list Z;
  m_root : option nat;
  m_ptrs : list (nat * nat)
}.

(** [iterator::_impl], a [shared_ptr]: [iter_end] is the null pointer. *)
Inductive iterator := iter_end | iter (impl : IteratorInternal).

(** The first non-null slot of [d], counting from index [i]. *)
Fixpoint first_live (d : list (option nat)) (i : nat) : option nat :=
  match d with
  | [] => None
  | Some _ :: _ => Some i
  | None :: d' => first_live d' (S i)
  end.

Section Cursor.
Context {Slot Val : Type} `{VH : ValueHolder Slot Val}.
Variable es : list (TrieNode Slot).

(** [NodeT::value(ptr)], that is [*ptr]. *)
Definition ptr_value (p : nat * nat) : option nat :=
  match es !! p.1 with
  | Some nd => match data nd !! p.2 with Some c => c | None => None end
  | None => None
  end.

(** [TrieIteratorInternal::get(i)]. *)
Definition iget (itn : IteratorInternal) (i : Z) : option nat :=
  let j := (Z.of_nat (length (m_ptrs itn)) + i)%Z in
  if (0 <? j)%Z then
    match m_ptrs itn !! Z.to_nat (j - 1) with
    | Some p => ptr_value p
    | None => None
    end
  else if (j =? 0)%Z then m_root itn else None.

(** [step_down()]. *)
Definition step_down (itn : IteratorInternal) : option (bool * IteratorInternal) :=
  match iget itn 0 with
  | None => None
  | Some x =>
    match es !! x with
    | None => None
    | Some nd =>
      match first_live (data nd) 0 with
      | Some i => Some (true, mk_iter (base_prefix itn) (m_root itn) (m_ptrs itn ++ [(x, i)]))
      | None => Some (false, itn)
      end
    end
  end.

(** [step_fore()]: [do ++m_ptrs.back(); while (!= up->end() and null)]. *)
Definition step_fore (itn : IteratorInternal) : option (bool * IteratorInternal) :=
  match iget itn (-1) with
  | None => Some (false, itn)
  | Some up =>
    match es !! up, last (m_ptrs itn) with
    | Some und, Some (p, s) =>
      let sz := length (data und) in
      let s' := match first_live (drop (S s) (data und)) (S s) with
                | Some i => i
                | None => sz
                end in
      Some (negb (Nat.eqb s' sz),
            mk_iter (base_prefix itn) (m_root itn) (removelast (m_ptrs itn) ++ [(p, s')]))
    | _, _ => None
    end
  end.

(** [step_up()]: [m_ptrs.pop_back(); return step_fore();]. *)
Definition step_up (itn : IteratorInternal) : option (bool * IteratorInternal) :=
  step_fore (mk_iter (base_prefix itn) (m_root itn) (removelast (m_ptrs itn))).

(** The tail of [next()]:
    [while (!m_ptrs.empty()) { if (step_up()) return; } m_root = nullptr;]
    each round pops one pointer, so [length m_ptrs] rounds suffice. *)
Fixpoint climb (fuel : nat) (itn : IteratorInternal) : option IteratorInternal :=
  match m_ptrs itn with
  | [] => Some (mk_iter (base_prefix itn) None [])
  | _ =>
    match fuel with
    | O => None
    | S f =>
      match step_up itn with
      | None => None
      | Some (true, itn') => Some itn'
      | Some (false, itn') => climb f itn'
      end
    end
  end.

(** [next()]. *)
Definition next (itn : IteratorInternal) : option IteratorInternal :=
  match step_down itn with
  | None => None
  | Some (true, itn1) => Some itn1
  | Some (false, itn1) =>
    match step_fore itn1 with
    | None => None
    | Some (true, itn2) => Some itn2
    | Some (false, itn2) => climb (length (m_ptrs itn2)) itn2
    end
  end.

(** [next_value()]: [do next(); while (m_root != nullptr and !get()->has_value());].
    Each round moves to the next node in depth-first order; [fuel] bounds
    the rounds. *)
Fixpoint next_value (fuel : nat) (itn : IteratorInternal) : option (bool * IteratorInternal) :=
  match fuel with
  | O => None
  | S f =>
    match next itn with
    | None => None
    | Some itn1 =>
      match m_root itn1 with
      | None => Some (false, itn1)
      | Some _ =>
        match iget itn1 0 with
        | None => None
        | Some x =>
          match es !! x with
          | None => None
          | Some nd => if has_value (value nd) then Some (true, itn1) else next_value f itn1
          end
        end
      end
    end
  end.

(** [iterator::operator++]: a store of [length es] nodes is walked in at
    most [length es + 1] rounds. *)
Definition incr (i : iterator) : option iterator :=
  match i with
  | iter_end => Some iter_end
  | iter impl =>
    match next_value (S (length es)) impl with
    | None => None
    | Some (true, impl') => Some (iter impl')
    | Some (false, _) => Some iter_end
    end
  end.

(** [iterator::normalize()]: [if (!_impl->get()->has_value()) ++ *this;]. *)
Definition normalize (i : iterator) : option iterator :=
  match i with
  | iter_end => None
  | iter impl =>
    match iget impl 0 with
    | None => None
    | Some x =>
      match es !! x with
      | None => None
      | Some nd => if has_value (value nd) then Some i else incr i
      end
    end
  end.

(** [get_key_str()]: [base_prefix], the label of [m_root], then the label
    of every node on the pointer stack. *)
Definition get_key_str (impl : IteratorInternal) : option (list Z) :=
  match m_root impl with
  | None => None
  | Some r =>
    match es !! r with
    | None => None
    | Some rn =>
      fold_left (fun acc p =>
          match acc, ptr_value p with
          | Some a, Some c =>
              match es !! c with
              | Some cn => Some (a ++ label cn)
              | None => None
              end
          | _, _ => None
          end) (m_ptrs impl) (Some (base_prefix impl ++ label rn))
    end
  end.

(** [iterator::value()]. *)
Definition iter_value (impl : IteratorInternal) : option Val :=
  match iget impl 0 with
  | Some x => match es !! x with Some nd => get_value (value nd) | None => None end
  | None => None
  end.

(** [for (; it != end(); ++it) keys.push_back(it.key());] *)
Fixpoint enumerate (fuel : nat) (i : iterator) : option (list (list Z)) :=
  match i with
  | iter_end => Some []
  | iter impl =>
    match fuel with
    | O => None
    | S f =>
      match get_key_str impl, incr i with
      | Some k, Some i' => option_map (cons k) (enumerate f i')
      | _, _ => None
      end
    end
  end.

(** [find_prefix_int(root_node, it, kend, exactMatch)]: the accumulator
    holds [output._impl], [inputEnd] ([None] while it has not been assigned)
    and whether the [exactMatch] sink fired. *)
Definition find_prefix_int (root_node : nat) (key : list Z) : option (iterator * bool) :=
  match general_search es key
     (fun n '(_, ie, ex) =>
        (Some (mk_iter [] (Some n) []), ie,
         orb (match es !! n with Some nd => has_value (value nd) | None => false end) ex))
     (fun _ _ acc => acc)
     (fun n _ '(_, ie, ex) => (Some (mk_iter [] (Some n) []), ie, ex))
     (fun _ _ _ acc => acc)
     (fun _ iend '(out, _, ex) => (out, Some iend, ex))
     root_node (None, None, false) with
  | SDone (None, _, ex) => Some (iter_end, ex)
  | SDone (Some impl, ie, ex) =>
    match normalize (iter impl) with
    | Some (iter impl') =>
      match ie with
      | Some e =>
          Some (iter (mk_iter (base_prefix impl' ++ take e key) (m_root impl') (m_ptrs impl')), ex)
      | None => None
      end
    | _ => None
    end
  | _ => None
  end.

End Cursor.

Section Lookup.
Context {Slot Val : Type} `{VH : ValueHolder Slot Val}.
Implicit Types (st : trie_map Slot).

(** [trie_map::find_prefix(it, kend, exactMatch)]. *)
Definition find_prefix st (key : list Z) : option (iterator * bool) :=
  match edges st with
  | [] => Some (iter_end, false)
  | es => find_prefix_int es 0 key
  end.

(** [trie_map::find(it, kend)]: [output] starts as a cursor on the root;
    [edgeAction] pushes every followed slot; a miss resets [output]; the
    result is [iterator(output)], whose constructor calls [normalize()]. *)
Definition find st (key : list Z) : option iterator :=
  match edges st with
  | [] => Some iter_end
  | es =>
    match general_search es key
       (fun n out =>
          match es !! n with
          | Some nd => if has_value (value nd) then out else None
          | None => out
          end)
       (fun _ _ _ => None) (fun _ _ _ => None) (fun _ _ _ _ => None)
       (fun x _ out =>
          option_map (fun impl => mk_iter (base_prefix impl) (m_root impl) (m_ptrs impl ++ [x])) out)
       0 (Some (mk_iter [] (Some 0) [])) with
    | SDone out => normalize es (match out with Some impl => iter impl | None => iter_end end)
    | _ => None
    end
  end.

(** [trie_map::begin()]. *)
Definition begin st : option iterator :=
  match edges st with
  | [] => Some iter_end
  | es => normalize es (iter (mk_iter [] (Some 0) []))
  end.

End Lookup.

(** ** Label storage: the two [PrefixHolder] variants

    The arena [keys] is a [std::deque<std::vector<AtomT>>]: a list of
    chunks.  Offsets are [trie_offset_t] / [size_t]; [psplit] is called with
    a break index inside the label ([0 <= breakIdx <= length]), where none
    of its additions or subtractions wraps, so they are written on [nat]. *)
Module Prefix.

Definition arena := list (list Z).

(** [PrefixHolder<AtomT, ValueT, CMinChunkSize>]: [chunk], [begin], [end]. *)
Record chunked := mk_chunked { chunk : nat; cbegin : nat; cend : nat }.

(** [PrefixHolder<AtomT, ValueT, 0>]: [prefix] (a pointer, the pair chunk
    and offset) and [prefix_len]. *)
Record single := mk_single { prefix : nat * nat; prefix_len : nat }.

Definition chunk_atoms (A : arena) (c : nat) : list Z :=
  match A !! c with Some v => v | None => [] end.

(** [kbegin() .. kend()] of each variant. *)
Definition chunked_label (A : arena) (h : chunked) : list Z :=
  take (cend h - cbegin h) (drop (cbegin h) (chunk_atoms A (chunk h))).

Definition single_label (A : arena) (h : single) : list Z :=
  take (prefix_len h) (drop (prefix h).2 (chunk_atoms A (prefix h).1)).

(** [setkey(achunk, k, kend)] of each variant. *)
Definition setkey_chunked (c k kend : nat) : chunked := mk_chunked c k kend.
Definition setkey_single (c k kend : nat) : single := mk_single (c, k) (kend - k).

(** [psplit(next, breakIdx)], chunked: returns the new [this] and [next]. *)
Definition psplit_chunked (this next : chunked) (breakIdx : nat) : chunked * chunked :=
  let next' := mk_chunked (chunk this) (cbegin this + breakIdx) (cend this) in
  let this' := mk_chunked (chunk this) (cbegin this) (cbegin next') in
  (this', next').

(** [psplit(next, breakIdx)], one label per chunk:
    [next->prefix = prefix + breakIdx; next->prefix_len = prefix_len - breakIdx;
     this->prefix_len -= next->prefix_len;]. *)
Definition psplit_single (this next : single) (breakIdx : nat) : single * single :=
  let next' := mk_single ((prefix this).1, (prefix this).2 + breakIdx)
                         (prefix_len this - breakIdx) in
  let this' := mk_single (prefix this) (prefix_len this - prefix_len next') in
  (this', next').

End Prefix.

(** The children of a node: its non-null slots. *)
Definition children (d : list (option nat)) : list nat := omap (fun x => x) d.

(** ** Concrete containers used by the claims *)

(** A [trie_map<char, int>] filled by [insert(key, value)]. *)
Definition run_map (l : list (list Z * Z)) : trie_map (option Z) :=
  fold_left (fun st '(k, v) => insert_assign st k v) l empty_trie.

(** The three insertions ["ab"], ["ac"], ["a"]. *)
Definition t_ab_ac_a : trie_map (option Z) :=
  run_map [(str "ab", 1%Z); (str "ac", 2%Z); (str "a", 3%Z)].

(** The prefix-lookup test of [triefunc.cpp] (with [int] values). *)
Definition t_home : trie_map (option Z) :=
  run_map [(str "/home/user1/audio", 1%Z); (str "/home/user1/video/x", 2%Z);
           (str "/home/user1/video", 3%Z); (str "/home/user2/audio", 4%Z);
           (str "/home/user2/video", 5%Z)].

(** The keys ["a"] and ["ab"]: the root holds ["a"] and a value. *)
Definition t_a_ab : trie_map (option Z) := run_map [(str "a", 1%Z); (str "ab", 2%Z)].

(** Iterating a cursor of [st] to the end. *)
Definition keys_from {Slot Val : Type} `{ValueHolder Slot Val} (st : trie_map Slot)
  (r : option (iterator * bool)) : option (list (list Z)) :=
  match r with
  | Some (i, _) => enumerate (edges st) (S (length (edges st))) i
  | None => None
  end.

(** ** Search traces

    Instantiating the five actions of [general_search] with "append an
    event" records which actions fire, in order. *)
Inductive search_event :=
  | EvExactMatch (n : nat)
  | EvNoNextEdge (n it : nat)
  | EvEndInTheMiddle (n k : nat)
  | EvSplitInTheMiddle (n k it : nat)
  | EvEdge (x : nat * nat) (it : nat).

Definition is_terminal (e : search_event) : bool :=
  match e with EvEdge _ _ => false | _ => true end.

Definition trace_search {Slot : Type} (es : list (TrieNode Slot)) (key : list Z) (n : nat)
  : search_result (list search_event) :=
  general_search es key
    (fun n t => t ++ [EvExactMatch n])
    (fun n it t => t ++ [EvNoNextEdge n it])
    (fun n k t => t ++ [EvEndInTheMiddle n k])
    (fun n k it t => t ++ [EvSplitInTheMiddle n k it])
    (fun x it t => t ++ [EvEdge x it])
    n [].

(** Key positions, each at least one past the previous one, from [lo]. *)
Fixpoint increasing_from (lo : nat) (l : list nat) : Prop :=
  match l with
  | [] => True
  | x :: l' => lo <= x /\ increasing_from (S x) l'
  end.

(** ** Atoms and table sizes

    The node selector stores [char] atoms. *)
Definition is_char (x : Z) : bool := ((-128 <=? x) && (x <? 128))%Z.

Definition all_chars : list Z := map (fun i => Z.of_nat i - 128)%Z (seq 0 256).

(** [least_uncolliding_size] read with unbounded integers:
    [v = a XOR b; (v & -v) << 1]. *)
Definition least_exact (a b : Z) : Z :=
  let v := Z.lxor a b in Z.shiftl (Z.land v (- v)) 1.

(** For two distinct atoms: the size is [2^j] for some [1 <= j <= 8], it
    separates them, [2^(j-1)] does not, and the 32-bit computation equals
    the unbounded one. *)
Definition least_char_ok (a b : Z) : bool :=
  existsb (fun j =>
      (least_uncolliding_size a b =? 2 ^ Z.of_nat j)%Z &&
      negb (a mod 2 ^ Z.of_nat j =? b mod 2 ^ Z.of_nat j)%Z &&
      (a mod 2 ^ (Z.of_nat j - 1) =? b mod 2 ^ (Z.of_nat j - 1))%Z)
    (seq 1 8) &&
  (least_uncolliding_size a b =? least_exact a b)%Z.

(** ** Child tables *)

(** Table sizes are [0] or powers of two. *)
Definition pow2_size (s : nat) : Prop := s = 0 \/ exists j, s = 2 ^ j.

(** [c] is a child in the table [d]. *)
Definition in_table (d : list (option nat)) (c : nat) : Prop := exists h, d !! h = Some (Some c).

(** Every child sits at the slot [atom_hash(first atom, size - 1)]. *)
Definition table_ok {Slot : Type} (es : list (TrieNode Slot)) (d : list (option nat)) : Prop :=
  pow2_size (length d) /\
  forall h c, d !! h = Some (Some c) -> h = slot_of (first_atom es c) (length d).

(** ** Paths through the store

    [Reach es x kb l y j]: matching the atoms [l] from node [x], whose
    label is matched from offset [kb], ends in node [y] at label offset [j]
    (after descending an edge the match resumes at offset 1, the first atom
    having selected the edge). *)
Inductive Reach {Slot : Type} (es : list (TrieNode Slot)) : nat -> nat -> list Z -> nat -> nat -> Prop :=
  | reach_here x nx kb j :
      es !! x = Some nx -> kb <= j <= length (label nx) ->
      Reach es x kb (take (j - kb) (drop kb (label nx))) x j
  | reach_down x nx kb c nc a r l y j :
      es !! x = Some nx -> kb <= length (label nx) ->
      in_table (data nx) c -> es !! c = Some nc -> label nc = a :: r ->
      Reach es c 1 l y j ->
      Reach es x kb (drop kb (label nx) ++ a :: l) y j.

(** The slot holding the value of the key [q]: [q] ends exactly at the end
    of the label of a node. *)
Definition At {Slot : Type} (es : list (TrieNode Slot)) (q : list Z) (s : Slot) : Prop :=
  exists y ny, es !! y = Some ny /\ Reach es 0 0 q y (length (label ny)) /\ value ny = s.

(** The invariant of a non-empty store: node 0 is the root; children are
    nodes other than the root; labels below the root are not empty; child
    tables are placed by first atom; atoms are [char]s; and a node ends at
    most one key. *)
Record wf {Slot : Type} (es : list (TrieNode Slot)) : Prop := {
  wf_root : 0 < length es;
  wf_child : forall x nx c, es !! x = Some nx -> in_table (data nx) c -> c < length es /\ c <> 0;
  wf_label : forall x nx, x <> 0 -> es !! x = Some nx -> label nx <> [];
  wf_table : forall x nx, es !! x = Some nx -> table_ok es (data nx);
  wf_chars : forall x nx, es !! x = Some nx -> Forall (fun a => is_char a = true) (label nx);
  wf_inj : forall q q' y ny, es !! y = Some ny ->
    Reach es 0 0 q y (length (label ny)) -> Reach es 0 0 q' y (length (label ny)) -> q = q'
}.

Definition wf_trie {Slot : Type} (st : trie_map Slot) : Prop :=
  edges st = [] \/ wf (edges st).

(** The table sizes of [least_uncolliding_size]: a table with at most one
    child has at most two slots, and a table with two or more children has
    [least_exact a b] slots for the first atoms [a], [b] of two of them. *)
Definition node_sizes_ok {Slot : Type} (es : list (TrieNode Slot)) (d : list (option nat)) : Prop :=
  ((forall c1 c2, in_table d c1 -> in_table d c2 -> c1 = c2) -> length d <= 2) /\
  (forall c1 c2, in_table d c1 -> in_table d c2 -> c1 <> c2 ->
     exists b1 b2, b1 <> b2 /\ in_table d b1 /\ in_table d b2 /\
       Z.of_nat (length d) = least_exact (first_atom es b1) (first_atom es b2)).

Definition sizes_ok {Slot : Type} (es : list (TrieNode Slot)) : Prop :=
  forall x nx, es !! x = Some nx -> node_sizes_ok es (data nx).

(** The terminal action [general_search] ends with. *)
Inductive outcome :=
  | OExact (n : nat)
  | ONoNext (n it : nat)
  | OEnd (n k : nat)
  | OSplit (n k it : nat).

Definition out_loop {Slot : Type} (es : list (TrieNode Slot)) (key : list Z)
    (fuel n kb it : nat) : search_result (option outcome) :=
  gs_loop es key (fun n _ => Some (OExact n)) (fun n it _ => Some (ONoNext n it))
    (fun n k _ => Some (OEnd n k)) (fun n k it _ => Some (OSplit n k it))
    (fun _ _ a => a) fuel n kb it None.

(** The meaning of each terminal action as paths: from node [x] (label
    offset [kb]), the key from position [it] ends at [y], at the end of its
    label ([OExact]) or inside it ([OEnd]); or its atoms up to [i] do, and
    the atom at [i] differs from the label ([OSplit]) or selects no child
    ([ONoNext]). *)
Definition outcome_ok {Slot : Type} (es : list (TrieNode Slot)) (key : list Z)
    (x kb it : nat) (o : outcome) : Prop :=
  match o with
  | OExact y => exists ny, es !! y = Some ny /\
      Reach es x kb (drop it key) y (length (label ny))
  | OEnd y e => exists ny, es !! y = Some ny /\ e < length (label ny) /\
      Reach es x kb (drop it key) y e
  | OSplit y e i => it <= i < length key /\ exists ny, es !! y = Some ny /\
      e < length (label ny) /\ Reach es x kb (take (i - it) (drop it key)) y e /\
      label ny !! e <> key !! i
  | ONoNext y i => it <= i < length key /\ exists ny, es !! y = Some ny /\
      Reach es x kb (take (i - it) (drop it key)) y (length (label ny)) /\
      forall c nc, in_table (data ny) c -> es !! c = Some nc -> label nc !! 0 <> key !! i
  end.

(** Running the terminal action named by an outcome. *)
Definition run_outcome {A : Type} (ex : nat -> A -> A) (nne : nat -> nat -> A -> A)
    (eim : nat -> nat -> A -> A) (sim : nat -> nat -> nat -> A -> A) (o : outcome) (acc : A) : A :=
  match o with
  | OExact n => ex n acc
  | ONoNext n it => nne n it acc
  | OEnd n k => eim n k acc
  | OSplit n k it => sim n k it acc
  end.

(** The value [get] reads from a slot. *)
Definition slot_get {Slot Val : Type} `{ValueHolder Slot Val} (s : Slot) : option Val :=
  if has_value s then get_value s else None.

(** A sequence of [insert(key, value, replace)] calls. *)
Definition run_ops {Slot Val : Type} `{ValueHolder Slot Val}
    (st : trie_map Slot) (ops : list (list Z * Val * (Val -> Val -> Val))) : trie_map Slot :=
  fold_left (fun st '(k, v, r) => insert st k v r) ops st.

(** The slot of the key after [insert(key, v, replace)], from the slot
    [s0] it had: [insert_value]'s update. *)
Definition upd_slot {Slot Val : Type} `{ValueHolder Slot Val} (r : Val -> Val -> Val) (v : Val)
    (s0 : Slot) : Slot :=
  if has_value s0 then
    match get_value s0 with
    | Some old => set_value (r old v)
    | None => s0
    end
  else set_value v.

(** [insert(k, v)] of each pair in turn, from the empty map. *)
Definition run_inserts {V : Type} (l : list (list Z * V)) : trie_map (option V) :=
  fold_left (fun st '(k, v) => insert_assign st k v) l empty_trie.

(** [add(k)] of each key in turn on a counter trie; [add(k)] is [add(k, 1)]. *)
Definition run_adds (st : trie_map Z) (keys : list (list Z)) : trie_map Z :=
  fold_left (fun st k => add st k 1%Z) keys st.

(** Two stores with the same labels and tables at every index. *)
Definition same_shape {Slot : Type} (es es' : list (TrieNode Slot)) : Prop :=
  forall i, fmap label (es !! i) = fmap label (es' !! i) /\ fmap data (es !! i) = fmap data (es' !! i).

(** Where a place (node [y], label offset [j]) of a store [es] of length
    [L] is after [split] of node [n] at [m] (the suffix goes to the new
    node [L]), and back. *)
Definition sp_node (L n m y j : nat) : nat := if decide (y = n /\ m < j) then L else y.
Definition sp_off (n m y j : nat) : nat := if decide (y = n /\ m < j) then j - m else j.
Definition bk_node (L n y : nat) : nat := if decide (y = L) then n else y.
Definition bk_off (L m y j : nat) : nat := if decide (y = L) then m + j else j.

(** ** Further operations of [trie_map] *)

(** The exception [std::out_of_range] (thrown with the message ["trie::at"]). *)
Inductive trie_error := out_of_range.

(** [trie_map::at(it, end)] ([at] is a keyword of Rocq): the value [get]
    finds, or [throw std::out_of_range("trie::at")] (the [inr] side). *)
Definition at_ {Slot Val : Type} `{ValueHolder Slot Val} (st : trie_map Slot) (key : list Z)
  : Val + trie_error :=
  match get st key with
  | Some v => inl v
  | None => inr out_of_range
  end.

(** [trie_map::operator[](str)]: [return at(str.begin(), str.end());]. *)
Definition index {Slot Val : Type} `{ValueHolder Slot Val} (st : trie_map Slot) (key : list Z)
  : Val + trie_error :=
  at_ st key.

(** The [SetCounter] overloads [insert(it, end)] and [add(it, end)]:
    [insert(it, end, 1)] and [add(it, end, 1)]. *)
Definition insert_key (st : trie_map Z) (key : list Z) : trie_map Z := insert_assign st key 1%Z.
Definition add_key (st : trie_map Z) (key : list Z) : trie_map Z := add st key 1%Z.

(** [trie_map::insert_infix(it, end, parent, n)] on the label arena [keys]
    with [CMinChunkSize = C]: [hint] is [parent->insertion_hint()] ([None]
    for a null parent and for the [CMinChunkSize = 0] holder).  The atoms
    go to the hinted chunk if they fit in [C], else to the last chunk if
    they fit, else to a fresh chunk; the result is the new arena and the
    arguments of [n->setkey(target, kidx, kendidx)]. *)
Definition insert_infix_arena (C : nat) (keys : Prefix.arena) (hint : option nat) (l : list Z)
  : Prefix.arena * (nat * nat * nat) :=
  let ksize := length l in
  let fresh :=
    if (Nat.eqb C 0 || Nat.eqb (length keys) 0 ||
        Nat.ltb C (length (Prefix.chunk_atoms keys (length keys - 1)) + ksize))%bool
    then (keys ++ [[]], length keys)
    else (keys, length keys - 1) in
  let '(keys1, target) :=
    match hint with
    | Some t => if Nat.ltb C (length (Prefix.chunk_atoms keys t) + ksize) then fresh else (keys, t)
    | None => fresh
    end in
  let kidx := length (Prefix.chunk_atoms keys1 target) in
  (<[target := Prefix.chunk_atoms keys1 target ++ l]> keys1, (target, kidx, kidx + ksize)).

(** ** Cursor positions

    A cursor on a store [es] that starts at the root is determined by the
    slots it followed: [walk] is the node such a slot sequence reaches,
    [ptrs_of] the [m_ptrs] stack of its [traverse_ptr]s and [skey] the key
    its [get_key_str()] spells.  Positions are ordered depth-first: a
    proper prefix comes first, otherwise the first differing slot decides. *)
Fixpoint walk {Slot : Type} (es : list (TrieNode Slot)) (x : nat) (ss : list nat) : option nat :=
  match ss with
  | [] => Some x
  | s :: r => match ptr_value es (x, s) with Some c => walk es c r | None => None end
  end.

Fixpoint ptrs_of {Slot : Type} (es : list (TrieNode Slot)) (x : nat) (ss : list nat) : list (nat * nat) :=
  match ss with
  | [] => []
  | s :: r => (x, s) :: match ptr_value es (x, s) with Some c => ptrs_of es c r | None => [] end
  end.

Fixpoint skey {Slot : Type} (es : list (TrieNode Slot)) (x : nat) (ss : list nat) : list Z :=
  match es !! x with Some nx => label nx | None => [] end ++
  match ss with
  | [] => []
  | s :: r => match ptr_value es (x, s) with Some c => skey es c r | None => [] end
  end.

(** The position [ts] ends at a node holding a value. *)
Definition valued {Slot Val : Type} `{ValueHolder Slot Val} (es : list (TrieNode Slot)) (ts : list nat) : Prop :=
  exists y ny, walk es 0 ts = Some y /\ es !! y = Some ny /\ has_value (value ny) = true.

(** [ts] comes after [ss] and all its extensions: at the first slot where
    they differ, [ts] has the larger one. *)
Definition after_slots (ss ts : list nat) : Prop :=
  exists pre a b r r', a < b /\ ss = pre ++ a :: r /\ ts = pre ++ b :: r'.

(** Depth-first order of positions. *)
Inductive lexlt : list nat -> list nat -> Prop :=
  | lex_nil b r : lexlt [] (b :: r)
  | lex_lt a b r r' : a < b -> lexlt (a :: r) (b :: r')
  | lex_cons a r r' : lexlt r r' -> lexlt (a :: r) (a :: r').

(** * Proofs *)

(** ** Defects shown on concrete inputs *)

(** C3 (code_bug): after [insert("ab")], [insert("ac")] and [insert("a")]
    the three keys bear values, but [size()] is 2: the [exactMatch] action
    sets the value of the interior node left by the split without
    incrementing [msize]. *)
Lemma size_misses_key_at_interior_node :
  size t_ab_ac_a = 2 /\ get t_ab_ac_a (str "a") = Some 3%Z /\
  get t_ab_ac_a (str "ab") = Some 1%Z /\ get t_ab_ac_a (str "ac") = Some 2%Z.
Proof. vm_compute. repeat split. Qed.

(** C4 (code_bug): [find] of an absent key in a non-empty trie resets
    [output] and returns [iterator(output)], whose constructor calls
    [normalize()] and dereferences the null cursor: the lookup faults
    (here through [splitInTheMiddle] and [endInTheMiddle]) instead of
    returning the end cursor. *)
Lemma find_absent_key_faults :
  find t_home (str "/home/user3") = None /\
  find t_home (str "/home/user1/vide") = None /\
  find (@empty_trie (option Z)) (str "/home/user3") = Some iter_end.
Proof. vm_compute. repeat split. Qed.

(** C2 (code_bug): in the prefix-lookup test trie every key starts with
    ["/home/user"], which ends inside the root's label; [find_prefix]
    then copies [it .. inputEnd) with [inputEnd] never assigned and
    faults instead of enumerating the five keys, while a query that
    descends an edge enumerates correctly. *)
Lemma find_prefix_at_root_faults :
  find_prefix t_home (str "/home/user") = None /\
  get t_home (str "/home/user1/audio") = Some 1%Z /\
  get t_home (str "/home/user2/video") = Some 5%Z /\
  keys_from t_home (find_prefix t_home (str "/home/user1")) =
    Some [str "/home/user1/video"; str "/home/user1/video/x"; str "/home/user1/audio"].
Proof. vm_compute. repeat split. Qed.

(** C5 (code_bug): with the keys ["a"] and ["ab"] the query ["a"] ends
    exactly at the root, no edge is descended and [inputEnd] is read
    uninitialised, so no [base_prefix] is built; after a descent the key
    is rebuilt in full. *)
Lemma find_prefix_base_prefix_root_case :
  find_prefix t_a_ab (str "a") = None /\
  keys_from t_a_ab (find_prefix t_a_ab (str "ab")) = Some [str "ab"].
Proof. vm_compute. repeat split. Qed.

(** ** Termination of the traversal kernel *)

Lemma common_prefix_le_r (l1 l2 : list Z) : common_prefix l1 l2 <= length l2.
Proof.
  revert l2; induction l1 as [|a l1 IH]; intros [|b l2]; simpl; try lia.
  destruct (Z.eqb a b); simpl; [specialize (IH l2); lia | lia].
Qed.

Lemma common_prefix_le_l (l1 l2 : list Z) : common_prefix l1 l2 <= length l1.
Proof.
  revert l2; induction l1 as [|a l1 IH]; intros [|b l2]; simpl; try lia.
  destruct (Z.eqb a b); simpl; [specialize (IH l2); lia | lia].
Qed.

Lemma advance_le {Slot : Type} (nd : TrieNode Slot) (key : list Z) (kb it : nat) :
  it <= length key ->
  it + common_prefix (drop kb (label nd)) (drop it key) <= length key.
Proof.
  intros H. pose proof (common_prefix_le_r (drop kb (label nd)) (drop it key)).
  rewrite length_drop in H0. lia.
Qed.

Lemma increasing_length_bound (L : nat) (ev : list ((nat * nat) * nat)) :
  forall lo, increasing_from lo (map snd ev) -> Forall (fun e => e.2 < L) ev ->
  length ev = 0 \/ lo + length ev <= L.
Proof.
  induction ev as [|e ev IH]; intros lo Hinc Hall; simpl in *; [lia|].
  destruct Hinc as [H1 H2]. inversion Hall as [|? ? He Hall']; subst.
  specialize (IH _ H2 Hall'). lia.
Qed.

Section Termination.
Context {Slot A : Type} (es : list (TrieNode Slot)) (key : list Z).
Context (ex : nat -> A -> A) (nne : nat -> nat -> A -> A) (eim : nat -> nat -> A -> A)
        (sim : nat -> nat -> nat -> A -> A) (ea : nat * nat -> nat -> A -> A).

Lemma gs_loop_not_out_of_fuel (fuel n kb it : nat) (acc : A) :
  it <= length key -> length key - it < fuel ->
  gs_loop es key ex nne eim sim ea fuel n kb it acc <> SOutOfFuel.
Proof.
  revert n kb it acc; induction fuel as [|fuel IH]; intros n kb it acc Hit Hf; [lia|].
  simpl. destruct (es !! n) as [nd|]; [|discriminate].
  pose proof (advance_le nd key kb it Hit) as Hle.
  set (c := common_prefix (drop kb (label nd)) (drop it key)) in *.
  destruct (Nat.eqb (it + c) (length key)) eqn:E1.
  { destruct (Nat.eqb (kb + c) (length (label nd))); discriminate. }
  apply Nat.eqb_neq in E1.
  destruct (negb (Nat.eqb (kb + c) (length (label nd)))); [discriminate|].
  destruct (node_find es nd (nth (it + c) key 0%Z)) as [h|]; [|discriminate].
  destruct (data nd !! h) as [[next|]|]; try discriminate.
  apply IH; lia.
Qed.

End Termination.

Lemma gs_loop_trace_shape {Slot : Type} (es : list (TrieNode Slot)) (key : list Z) :
  forall fuel n kb it t0 tr,
  it <= length key ->
  gs_loop es key
    (fun n t => t ++ [EvExactMatch n])
    (fun n it t => t ++ [EvNoNextEdge n it])
    (fun n k t => t ++ [EvEndInTheMiddle n k])
    (fun n k it t => t ++ [EvSplitInTheMiddle n k it])
    (fun x it t => t ++ [EvEdge x it]) fuel n kb it t0 = SDone tr ->
  exists ev term,
    tr = t0 ++ map (fun e => EvEdge e.1 e.2) ev ++ [term] /\
    is_terminal term = true /\ increasing_from it (map snd ev) /\
    Forall (fun e => e.2 < length key) ev.
Proof.
  induction fuel as [|fuel IH]; intros n kb it t0 tr Hit H; [discriminate|].
  simpl in H. destruct (es !! n) as [nd|]; [|discriminate].
  pose proof (advance_le nd key kb it Hit) as Hle.
  set (c := common_prefix (drop kb (label nd)) (drop it key)) in *.
  destruct (Nat.eqb (it + c) (length key)) eqn:E1.
  { destruct (Nat.eqb (kb + c) (length (label nd))); injection H as <-;
      eexists [], _; repeat split; simpl; auto. }
  apply Nat.eqb_neq in E1.
  destruct (negb (Nat.eqb (kb + c) (length (label nd)))).
  { injection H as <-. eexists [], _; repeat split; simpl; auto. }
  destruct (node_find es nd (nth (it + c) key 0%Z)) as [h|].
  2:{ injection H as <-. eexists [], _; repeat split; simpl; auto. }
  destruct (data nd !! h) as [[next|]|]; try discriminate.
  apply IH in H; [|lia].
  destruct H as (ev & term & -> & Ht & Hinc & Hall).
  exists (((n, h), it + c) :: ev), term. repeat split; auto.
  - simpl. rewrite <- app_assoc. reflexivity.
  - simpl. lia.
  - simpl. constructor; [simpl; lia | exact Hall].
Qed.

(** C10: [general_search] always stops: for every store, key and start
    node, and whatever the five actions are, the loop given one iteration
    per key atom plus one never runs out of iterations; and the actions
    that fire are a run of [edgeAction]s at strictly increasing key
    positions, each below the key length (every descent consumes at least
    one atom), closed by exactly one terminal action. *)
Theorem general_search_terminates :
  forall (Slot A : Type) (es : list (TrieNode Slot)) (key : list Z) (n : nat)
    (exactMatchAction : nat -> A -> A) (noNextEdgeAction : nat -> nat -> A -> A)
    (endInTheMiddleAction : nat -> nat -> A -> A)
    (splitInTheMiddleAction : nat -> nat -> nat -> A -> A)
    (edgeAction : nat * nat -> nat -> A -> A) (acc : A),
  general_search es key exactMatchAction noNextEdgeAction endInTheMiddleAction
    splitInTheMiddleAction edgeAction n acc <> SOutOfFuel /\
  match trace_search es key n with
  | SDone tr =>
      exists ev term,
        tr = map (fun e => EvEdge e.1 e.2) ev ++ [term] /\
        is_terminal term = true /\ increasing_from 0 (map snd ev) /\
        Forall (fun e => e.2 < length key) ev /\ length ev <= length key
  | SOutOfFuel => False
  | SDangling => True
  end.
Proof.
  intros. split.
  - unfold general_search. apply gs_loop_not_out_of_fuel; lia.
  - unfold trace_search, general_search.
    destruct (gs_loop es key _ _ _ _ _ (S (length key)) n 0 0 []) eqn:E.
    + apply gs_loop_trace_shape in E; [|lia].
      destruct E as (ev & term & -> & Ht & Hinc & Hall).
      exists ev, term. repeat split; auto.
      pose proof (increasing_length_bound (length key) ev 0 Hinc Hall). lia.
    + eapply gs_loop_not_out_of_fuel; [| |exact E]; lia.
    + exact I.
Qed.

(** ** Splitting a node *)

Lemma slot_of_lt_small (x : Z) (hint : nat) :
  hint = 1 \/ hint = 2 -> slot_of x hint < hint.
Proof.
  unfold slot_of, atom_hash. intros [-> | ->].
  - replace (Z.of_nat 1 - 1)%Z with 0%Z by reflexivity.
    rewrite Z.land_0_r. simpl. lia.
  - assert (E : Z.land x 1 = (x mod 2)%Z) by (apply (Z.land_ones x 1); lia).
    replace (Z.of_nat 2 - 1)%Z with 1%Z by reflexivity.
    rewrite E. pose proof (Z.mod_pos_bound x 2 ltac:(lia)). lia.
Qed.

Lemma children_repeat_none (k : nat) : children (repeat (@None nat) k) = [].
Proof. induction k as [|k IH]; [reflexivity|]. exact IH. Qed.

Lemma children_single_slot (i k c : nat) :
  i < k -> children (<[i := Some c]> (repeat (@None nat) k)) = [c].
Proof.
  revert i; induction k as [|k IH]; intros i Hi; [lia|].
  destruct i as [|i].
  - change (c :: children (repeat None k) = [c]). rewrite children_repeat_none. reflexivity.
  - change (children (<[i := Some c]> (repeat None k)) = [c]). apply IH. lia.
Qed.

Lemma repeat_lookup_lt {T : Type} (x : T) (k i : nat) : i < k -> repeat x k !! i = Some x.
Proof.
  revert i; induction k as [|k IH]; intros [|i] Hi; simpl; try lia; auto.
  apply IH. lia.
Qed.

Section SplitFacts.
Context {Slot Val : Type} `{VH : ValueHolder Slot Val}.

(** [split] on a node [n] whose successor is the fresh node [new_edge]
    appended with a table of [hint] null slots. *)
Lemma split_fresh (es : list (TrieNode Slot)) (n : nat) (nn : TrieNode Slot) (hint m : nat) :
  es !! n = Some nn -> (hint = 1 \/ hint = 2) ->
  split (new_edge es hint) n (length es) m !! n =
    Some (mk_node (take m (label nn)) vh_empty
            (<[slot_of (hd 0%Z (drop m (label nn))) hint := Some (length es)]>
               (repeat None hint))) /\
  split (new_edge es hint) n (length es) m !! length es =
    Some (mk_node (drop m (label nn)) (value nn) (data nn)).
Proof.
  intros Hnn Hh. pose proof (lookup_lt_Some _ _ _ Hnn) as Hn.
  set (fresh := mk_node [] vh_empty (repeat None hint)).
  assert (E0 : (es ++ [fresh]) !! n = Some nn) by (rewrite lookup_app_l; auto).
  assert (E1 : (es ++ [fresh]) !! length es = Some fresh)
    by (apply list_lookup_middle; reflexivity).
  unfold split, new_edge. fold fresh. rewrite E0, E1. cbv beta iota zeta.
  set (nd_n := mk_node (take m (label nn)) (value fresh) (data fresh)).
  set (nd_s := mk_node (drop m (label nn)) (value nn) (data nn)).
  set (es2 := <[length es := nd_s]> (<[n := nd_n]> (es ++ [fresh]))).
  assert (Hlen : length es2 = S (length es)).
  { unfold es2. rewrite !length_insert, length_app. simpl. lia. }
  assert (H2n : es2 !! n = Some nd_n).
  { unfold es2. rewrite list_lookup_insert_ne by lia.
    apply list_lookup_insert_eq. rewrite length_app. simpl. lia. }
  assert (H2s : es2 !! length es = Some nd_s).
  { unfold es2. apply list_lookup_insert_eq. rewrite length_insert, length_app. simpl. lia. }
  unfold put. rewrite H2n. split.
  - rewrite list_lookup_insert_eq by lia. f_equal. unfold nd_n; simpl. f_equal.
    assert (Hfa : first_atom es2 (length es) = hd 0%Z (drop m (label nn)))
      by (unfold first_atom; rewrite H2s; reflexivity).
    unfold put_table. rewrite Hfa. simpl.
    rewrite repeat_length.
    assert (Hb : Nat.eqb hint 0 = false) by (apply Nat.eqb_neq; lia). rewrite Hb.
    rewrite ?repeat_length.
    rewrite repeat_lookup_lt by (apply slot_of_lt_small; auto). reflexivity.
  - rewrite list_lookup_insert_ne by lia. exact H2s.
Qed.

End SplitFacts.

Lemma psplit_chunked_labels (A : Prefix.arena) (c k kend m : nat) (next : Prefix.chunked) :
  m <= kend - k ->
  Prefix.chunked_label A (Prefix.psplit_chunked (Prefix.setkey_chunked c k kend) next m).1 =
    take m (Prefix.chunked_label A (Prefix.setkey_chunked c k kend)) /\
  Prefix.chunked_label A (Prefix.psplit_chunked (Prefix.setkey_chunked c k kend) next m).2 =
    drop m (Prefix.chunked_label A (Prefix.setkey_chunked c k kend)).
Proof.
  intros Hm. unfold Prefix.chunked_label, Prefix.psplit_chunked, Prefix.setkey_chunked; simpl.
  split.
  - rewrite take_take. f_equal. lia.
  - replace (kend - k) with (m + (kend - (k + m))) by lia.
    rewrite <- take_drop_commute, drop_drop. reflexivity.
Qed.

Lemma psplit_single_labels (A : Prefix.arena) (c k kend m : nat) (next : Prefix.single) :
  m <= kend - k ->
  Prefix.single_label A (Prefix.psplit_single (Prefix.setkey_single c k kend) next m).1 =
    take m (Prefix.single_label A (Prefix.setkey_single c k kend)) /\
  Prefix.single_label A (Prefix.psplit_single (Prefix.setkey_single c k kend) next m).2 =
    drop m (Prefix.single_label A (Prefix.setkey_single c k kend)).
Proof.
  intros Hm. unfold Prefix.single_label, Prefix.psplit_single, Prefix.setkey_single; simpl.
  split.
  - rewrite take_take. f_equal. lia.
  - replace (kend - k) with (m + (kend - k - m)) at 2 by lia.
    rewrite <- take_drop_commute, drop_drop. reflexivity.
Qed.

(** C9: splitting at [m] (at most the label length): both label storages,
    the chunked arena slice and the one-label-per-chunk pointer, give the
    node the first [m] atoms of its label and the successor the rest, so
    they agree; and in the trie, after [split] into the fresh node made by
    [new_edge] (hint 1 or 2, as [insert] does), the node has exactly that
    prefix, no value and the successor as its only child, while the
    successor has the suffix, the node's former value and its former
    child table. *)
Theorem split_labels_and_links :
  forall (Slot Val : Type) (VH : ValueHolder Slot Val)
    (A : Prefix.arena) (c k kend m : nat) (next_c : Prefix.chunked) (next_s : Prefix.single)
    (es : list (TrieNode Slot)) (n : nat) (nn : TrieNode Slot) (hint : nat),
  k <= kend -> m <= kend - k ->
  es !! n = Some nn -> label nn = Prefix.chunked_label A (Prefix.setkey_chunked c k kend) ->
  hint = 1 \/ hint = 2 ->
  let pc := Prefix.psplit_chunked (Prefix.setkey_chunked c k kend) next_c m in
  let ps := Prefix.psplit_single (Prefix.setkey_single c k kend) next_s m in
  Prefix.chunked_label A pc.1 = take m (label nn) /\
  Prefix.chunked_label A pc.2 = drop m (label nn) /\
  Prefix.single_label A ps.1 = take m (label nn) /\
  Prefix.single_label A ps.2 = drop m (label nn) /\
  match split (new_edge es hint) n (length es) m !! n,
        split (new_edge es hint) n (length es) m !! length es with
  | Some nd, Some s =>
      label nd = take m (label nn) /\ has_value (value nd) = false /\
      children (data nd) = [length es] /\
      label s = drop m (label nn) /\ value s = value nn /\ data s = data nn
  | _, _ => False
  end.
Proof.
  intros Slot Val VH A c k kend m next_c next_s es n nn hint Hk Hm Hnn Hlab Hh pc ps.
  destruct (psplit_chunked_labels A c k kend m next_c Hm) as [C1 C2].
  destruct (psplit_single_labels A c k kend m next_s Hm) as [S1 S2].
  assert (Hsame : Prefix.single_label A (Prefix.setkey_single c k kend) =
                  Prefix.chunked_label A (Prefix.setkey_chunked c k kend)) by reflexivity.
  rewrite Hsame in S1, S2. rewrite <- Hlab in C1, C2, S1, S2.
  destruct (split_fresh es n nn hint m Hnn Hh) as [-> ->].
  repeat split; auto; simpl.
  - apply vh_empty_absent.
  - apply children_single_slot. apply slot_of_lt_small; auto.
Qed.

(** A node ["abc"] (value 7) split after one atom, labels stored in the
    arena chunk ["abc"]. *)
Lemma split_labels_and_links_witness :
  let es := [mk_node (str "abc") (Some 7%Z) []] in
  let pc := Prefix.psplit_chunked (Prefix.setkey_chunked 0 0 3) (Prefix.mk_chunked 0 0 0) 1 in
  let ps := Prefix.psplit_single (Prefix.setkey_single 0 0 3) (Prefix.mk_single (0, 0) 0) 1 in
  Prefix.chunked_label [str "abc"] pc.1 = take 1 (str "abc") /\
  Prefix.chunked_label [str "abc"] pc.2 = drop 1 (str "abc") /\
  Prefix.single_label [str "abc"] ps.1 = take 1 (str "abc") /\
  Prefix.single_label [str "abc"] ps.2 = drop 1 (str "abc") /\
  match split (new_edge es 2) 0 (length es) 1 !! 0,
        split (new_edge es 2) 0 (length es) 1 !! length es with
  | Some nd, Some s =>
      label nd = take 1 (str "abc") /\ has_value (value nd) = false /\
      children (data nd) = [length es] /\
      label s = drop 1 (str "abc") /\ value s = Some 7%Z /\ data s = []
  | _, _ => False
  end.
Proof.
  exact (split_labels_and_links (option Z) Z (map_holder Z) [str "abc"] 0 0 3 1
           (Prefix.mk_chunked 0 0 0) (Prefix.mk_single (0, 0) 0)
           [mk_node (str "abc") (Some 7%Z) []] 0 (mk_node (str "abc") (Some 7%Z) []) 2
           ltac:(lia) ltac:(simpl; lia) eq_refl eq_refl (or_intror eq_refl)).
Defined.

(** ** Slots in power-of-two tables *)

Lemma slot_of_pow2 (x : Z) (j : nat) :
  slot_of x (2 ^ j) = Z.to_nat (x mod 2 ^ Z.of_nat j).
Proof.
  unfold slot_of, atom_hash. rewrite Nat2Z.inj_pow.
  replace (Z.of_nat 2 ^ Z.of_nat j - 1)%Z with (Z.ones (Z.of_nat j)).
  - rewrite Z.land_ones by lia. reflexivity.
  - rewrite Z.ones_equiv. simpl. lia.
Qed.

Lemma slot_of_pow2_lt (x : Z) (j : nat) : slot_of x (2 ^ j) < 2 ^ j.
Proof.
  rewrite slot_of_pow2.
  pose proof (Z.pow_pos_nonneg 2 (Z.of_nat j) ltac:(lia) ltac:(lia)).
  pose proof (Z.mod_pos_bound x (2 ^ Z.of_nat j) H).
  apply Nat2Z.inj_lt. rewrite Z2Nat.id by lia. rewrite Nat2Z.inj_pow. simpl. lia.
Qed.

Lemma slot_of_pow2_eq (x y : Z) (j : nat) :
  slot_of x (2 ^ j) = slot_of y (2 ^ j) <-> (x mod 2 ^ Z.of_nat j = y mod 2 ^ Z.of_nat j)%Z.
Proof.
  rewrite !slot_of_pow2.
  pose proof (Z.pow_pos_nonneg 2 (Z.of_nat j) ltac:(lia) ltac:(lia)).
  pose proof (Z.mod_pos_bound x (2 ^ Z.of_nat j) H).
  pose proof (Z.mod_pos_bound y (2 ^ Z.of_nat j) H).
  split; intros E; [apply Z2Nat.inj in E; lia | rewrite E; reflexivity].
Qed.

(** Atoms that collide in a larger power-of-two table collide in a smaller one. *)
Lemma mod_pow2_down (x y : Z) (i j : nat) :
  i <= j -> (x mod 2 ^ Z.of_nat j = y mod 2 ^ Z.of_nat j)%Z ->
  (x mod 2 ^ Z.of_nat i = y mod 2 ^ Z.of_nat i)%Z.
Proof.
  intros Hij E.
  assert (Hd : (2 ^ Z.of_nat i | 2 ^ Z.of_nat j)%Z).
  { exists (2 ^ (Z.of_nat j - Z.of_nat i))%Z. rewrite <- Z.pow_add_r by lia. f_equal. lia. }
  rewrite <- (Z.mod_mod_divide x _ _ Hd), <- (Z.mod_mod_divide y _ _ Hd).
  rewrite E. reflexivity.
Qed.

Lemma slot_of_pow2_down (x y : Z) (i j : nat) :
  i <= j -> slot_of x (2 ^ j) = slot_of y (2 ^ j) -> slot_of x (2 ^ i) = slot_of y (2 ^ i).
Proof. rewrite !slot_of_pow2_eq. apply mod_pow2_down. Qed.

(** ** [least_uncolliding_size] on [char] atoms *)

Lemma least_char_table :
  forallb (fun a => forallb (fun b => (a =? b)%Z || least_char_ok a b) all_chars) all_chars
  = true.
Proof. vm_compute. reflexivity. Qed.

Lemma is_char_in (a : Z) : is_char a = true -> In a all_chars.
Proof.
  unfold is_char, all_chars. intros H. apply andb_true_iff in H as [H1 H2].
  apply Z.leb_le in H1. apply Z.ltb_lt in H2.
  apply in_map_iff. exists (Z.to_nat (a + 128)). split; [lia|].
  apply in_seq. lia.
Qed.

Lemma least_char_spec (a b : Z) :
  is_char a = true -> is_char b = true -> a <> b ->
  exists j : nat, 1 <= j <= 8 /\
    least_uncolliding_size a b = (2 ^ Z.of_nat j)%Z /\
    (a mod 2 ^ Z.of_nat j <> b mod 2 ^ Z.of_nat j)%Z /\
    (a mod 2 ^ Z.of_nat (j - 1) = b mod 2 ^ Z.of_nat (j - 1))%Z /\
    least_uncolliding_size a b = least_exact a b.
Proof.
  intros Ha Hb Hab. pose proof least_char_table as T.
  rewrite forallb_forall in T. specialize (T a (is_char_in a Ha)).
  rewrite forallb_forall in T. specialize (T b (is_char_in b Hb)).
  apply orb_true_iff in T as [T|T]; [apply Z.eqb_eq in T; contradiction|].
  unfold least_char_ok in T. apply andb_true_iff in T as [T T5].
  apply existsb_exists in T as (j & Hj & T).
  apply in_seq in Hj.
  apply andb_true_iff in T as [T T4]. apply andb_true_iff in T as [T2 T3].
  exists j. split; [lia|]. repeat split.
  - apply Z.eqb_eq. exact T2.
  - intros E. rewrite E, Z.eqb_refl in T3. discriminate.
  - replace (Z.of_nat (j - 1)) with (Z.of_nat j - 1)%Z by lia. apply Z.eqb_eq. exact T4.
  - apply Z.eqb_eq. exact T5.
Qed.

(** ** [TrieNode::resize] and [TrieNode::put] *)

Lemma Z_to_nat_pow2 (j : nat) : Z.to_nat (2 ^ Z.of_nat j) = 2 ^ j.
Proof. rewrite <- (Nat2Z.id (2 ^ j)), Nat2Z.inj_pow. reflexivity. Qed.

Lemma pow2_pos (j : nat) : 0 < 2 ^ j.
Proof. apply Nat.neq_0_lt_0, Nat.pow_nonzero. lia. Qed.

Lemma pow2_lt_mono (i j : nat) : 2 ^ i < 2 ^ j -> i < j.
Proof.
  intros H. destruct (Nat.lt_ge_cases i j) as [|Hji]; auto.
  pose proof (Nat.pow_le_mono_r 2 j i ltac:(lia) Hji). lia.
Qed.

Lemma pow2_le_mono (i j : nat) : i <= j -> 2 ^ i <= 2 ^ j.
Proof. intros H. apply Nat.pow_le_mono_r; lia. Qed.

Lemma repeat_lookup_some {T : Type} (x y : T) (k i : nat) : repeat x k !! i = Some y -> y = x.
Proof.
  revert i; induction k as [|k IH]; intros [|i] H; simpl in H; try discriminate.
  - congruence.
  - eauto.
Qed.

Section Tables.
Context {Slot : Type} (es : list (TrieNode Slot)).

Lemma fold_rehash (j : nat) (P : nat -> Prop) :
  forall (xs : list (option nat)) (acc : list (option nat)),
  length acc = 2 ^ j ->
  (forall h c, acc !! h = Some (Some c) <-> P c /\ h = slot_of (first_atom es c) (2 ^ j)) ->
  (forall c1 c2, (P c1 \/ Some c1 ∈ xs) -> (P c2 \/ Some c2 ∈ xs) ->
     slot_of (first_atom es c1) (2 ^ j) = slot_of (first_atom es c2) (2 ^ j) -> c1 = c2) ->
  let r := fold_left (fun ndata e =>
      match e with
      | Some c => <[slot_of (first_atom es c) (2 ^ j) := Some c]> ndata
      | None => ndata
      end) xs acc in
  length r = 2 ^ j /\
  (forall h c, r !! h = Some (Some c) <->
     (P c \/ Some c ∈ xs) /\ h = slot_of (first_atom es c) (2 ^ j)).
Proof.
  induction xs as [|e xs IH] in P |- *; intros acc Hlen Hacc Hinj; cbv zeta; simpl.
  - split; auto. intros h c. rewrite Hacc. set_solver.
  - destruct e as [c|].
    + set (acc' := <[slot_of (first_atom es c) (2 ^ j) := Some c]> acc).
      assert (Hslot : slot_of (first_atom es c) (2 ^ j) < 2 ^ j) by apply slot_of_pow2_lt.
      destruct (IH (fun c' => P c' \/ c' = c) acc') as [IH1 IH2].
      * unfold acc'. rewrite length_insert. exact Hlen.
      * intros h c'. unfold acc'.
        destruct (decide (slot_of (first_atom es c) (2 ^ j) = h)) as [Eh|Eh].
        { subst h. rewrite list_lookup_insert_eq by lia. split.
          - intros E. injection E as <-. auto.
          - intros [[Hp| ->] Ehc]; [|reflexivity].
            assert (c' = c) as -> by (apply Hinj; [left; exact Hp | right; set_solver | auto]).
            reflexivity. }
        { rewrite list_lookup_insert_ne by exact Eh. rewrite Hacc. split.
          - intros [Hp Eh']. auto.
          - intros [[Hp| ->] Eh']; [auto | congruence]. }
      * intros c1 c2 H1 H2. apply Hinj; set_solver.
      * split; auto. intros h c'. rewrite IH2. set_solver.
    + destruct (IH P acc Hlen Hacc) as [IH1 IH2].
      * intros c1 c2 H1 H2. apply Hinj; set_solver.
      * split; auto. intros h c'. rewrite IH2.
        split; intros [H1 H2]; split; auto; set_solver.
Qed.

Lemma in_table_elem (d : list (option nat)) (c : nat) : in_table d c <-> Some c ∈ d.
Proof. unfold in_table. rewrite list_elem_of_lookup. reflexivity. Qed.

(** The re-hash into a larger power-of-two table keeps every child and
    places it at its slot for the new size. *)
Lemma rehash_spec (d : list (option nat)) (i j : nat) :
  table_ok es d -> (length d = 0 \/ length d = 2 ^ i) -> i <= j ->
  length (rehash es (2 ^ j) d) = 2 ^ j /\
  (forall h c, rehash es (2 ^ j) d !! h = Some (Some c) <->
     in_table d c /\ h = slot_of (first_atom es c) (2 ^ j)).
Proof.
  intros [_ Hd] Hsz Hij. unfold rehash.
  destruct (fold_rehash j (fun _ => False) d (repeat None (2 ^ j))) as [R1 R2].
  - apply repeat_length.
  - intros h c. split; [|tauto]. intros E.
    apply repeat_lookup_some in E. discriminate.
  - intros c1 c2 H1 H2 E. rewrite <- in_table_elem in H1, H2.
    destruct H1 as [[]|[h1 E1]]. destruct H2 as [[]|[h2 E2]].
    pose proof (lookup_lt_Some _ _ _ E1).
    destruct Hsz as [Hz|Hsz]; [lia|].
    pose proof (Hd _ _ E1) as S1. pose proof (Hd _ _ E2) as S2.
    rewrite Hsz in S1, S2.
    assert (h1 = h2) as <-.
    { rewrite S1, S2. apply (slot_of_pow2_down _ _ i j Hij E). }
    rewrite E1 in E2. congruence.
  - split; auto. intros h c. rewrite R2, <- in_table_elem. tauto.
Qed.

End Tables.

Section PutTable.
Context {Slot : Type} (es : list (TrieNode Slot)).

Lemma table_insert_free (d : list (option nat)) (h N : nat) :
  table_ok es d -> d !! h = Some None -> h = slot_of (first_atom es N) (length d) ->
  table_ok es (<[h := Some N]> d) /\
  (forall c, in_table (<[h := Some N]> d) c <-> in_table d c \/ c = N).
Proof.
  intros [Hsz Hd] Hh Eh. pose proof (lookup_lt_Some _ _ _ Hh) as Hlt.
  split; [split|].
  - rewrite length_insert. exact Hsz.
  - intros h' c E. rewrite length_insert. destruct (decide (h = h')) as [<-|Ne].
    + rewrite list_lookup_insert_eq in E by lia. injection E as <-. exact Eh.
    + rewrite list_lookup_insert_ne in E by exact Ne. apply Hd, E.
  - intros c. unfold in_table. split.
    + intros [h' E]. destruct (decide (h = h')) as [<-|Ne].
      * rewrite list_lookup_insert_eq in E by lia. right. congruence.
      * rewrite list_lookup_insert_ne in E by exact Ne. left. eauto.
    + intros [[h' E] | ->].
      * exists h'. rewrite list_lookup_insert_ne; [exact E|]. intros <-. congruence.
      * exists h. apply list_lookup_insert_eq. lia.
Qed.

Lemma put_table_spec (d : list (option nat)) (N : nat) :
  table_ok es d ->
  (forall c, in_table d c -> is_char (first_atom es c) = true) ->
  is_char (first_atom es N) = true ->
  (forall c, in_table d c -> first_atom es c <> first_atom es N) ->
  table_ok es (put_table es d N) /\
  (forall c, in_table (put_table es d N) c <-> in_table d c \/ c = N) /\
  ((length d = 0 /\ length (put_table es d N) = 2) \/
   (length d <> 0 /\ length (put_table es d N) = length d /\
    forall c, in_table d c ->
      slot_of (first_atom es c) (length d) <> slot_of (first_atom es N) (length d)) \/
   (exists b, in_table d b /\
      Z.of_nat (length (put_table es d N)) = least_exact (first_atom es N) (first_atom es b) /\
      length d < length (put_table es d N))).
Proof.
  intros Hok Hch HaN Hfr. unfold put_table.
  set (a := first_atom es N) in *.
  set (d0 := if Nat.eqb (length d) 0 then resize es 2 d else d).
  assert (Hd0 : exists i, table_ok es d0 /\ length d0 = 2 ^ i /\
            (forall c, in_table d0 c <-> in_table d c) /\
            (length d = 0 -> length d0 = 2) /\ (length d <> 0 -> d0 = d)).
  { unfold d0. destruct (Nat.eqb_spec (length d) 0) as [Hz|Hnz].
    - apply length_zero_iff_nil in Hz. subst d.
      change (resize es 2 []) with [@None nat; None].
      exists 1. split; [split|].
      + right. exists 1. reflexivity.
      + intros h c E. destruct h as [|[|h]]; discriminate.
      + split; [reflexivity|]. split; [|split; [reflexivity|intros; contradiction]].
        intros c'. unfold in_table. split; intros [h E].
        * destruct h as [|[|h]]; discriminate.
        * discriminate.
    - destruct Hok as [[Hz|[i Hi]] Hd]; [contradiction|].
      exists i. repeat split; auto.
      + right. exists i. exact Hi.
      + intros; contradiction. }
  destruct Hd0 as (i & Hok0 & Hlen0 & Hin0 & Hz0 & Hnz0).
  pose proof (slot_of_pow2_lt a i) as Hh. rewrite <- Hlen0 in Hh.
  destruct (lookup_lt_is_Some_2 d0 (slot_of a (length d0)) Hh) as [o Ho].
  rewrite Ho. destruct o as [b|].
  - (* collision with [b] *)
    assert (Hb : in_table d b) by (apply Hin0; eexists; exact Ho).
    pose proof (proj2 Hok0 _ _ Ho) as Eb.
    assert (Hne : first_atom es b <> a) by (apply Hfr, Hb).
    destruct (least_char_spec a (first_atom es b) HaN (Hch _ Hb) (not_eq_sym Hne))
      as (j & Hj & Hl & Hsep & _ & Hex).
    assert (Hij : i < j).
    { destruct (Nat.lt_ge_cases i j) as [|Hji]; auto. exfalso. apply Hsep.
      rewrite Hlen0 in Eb. apply (mod_pow2_down _ _ j i Hji).
      apply (slot_of_pow2_eq a (first_atom es b) i). rewrite <- Eb. reflexivity. }
    rewrite Hl, Z_to_nat_pow2.
    assert (Hlt : length d0 < 2 ^ j).
    { rewrite Hlen0. apply Nat.pow_lt_mono_r; lia. }
    unfold resize. rewrite (proj2 (Nat.ltb_lt _ _) Hlt).
    destruct (rehash_spec es d0 i j Hok0 (or_intror Hlen0) ltac:(lia)) as [R1 R2].
    set (d1 := rehash es (2 ^ j) d0) in *.
    assert (Hok1 : table_ok es d1).
    { split; [right; exists j; exact R1|]. intros h c E. rewrite R1. apply R2 in E. apply E. }
    pose proof (slot_of_pow2_lt a j) as Hh1. rewrite <- R1 in Hh1.
    destruct (lookup_lt_is_Some_2 d1 (slot_of a (length d1)) Hh1) as [o1 Ho1].
    assert (o1 = None) as ->.
    { destruct o1 as [c|]; [|reflexivity]. exfalso.
      apply R2 in Ho1 as [[hc Ec] Esl]. rewrite R1 in Esl.
      pose proof (proj2 Hok0 _ _ Ec) as Ehc. rewrite Hlen0 in Ehc.
      assert (Hci : slot_of a (2 ^ i) = slot_of (first_atom es c) (2 ^ i)).
      { apply (slot_of_pow2_down _ _ i j); [lia | exact Esl]. }
      rewrite Hlen0 in Eb. assert (hc = slot_of a (length d0)) as Ehc'.
      { rewrite Hlen0, Ehc, Hci. reflexivity. }
      rewrite Ehc' in Ec. rewrite Ec in Ho. injection Ho as ->.
      apply Hsep. apply slot_of_pow2_eq. exact Esl. }
    destruct (table_insert_free d1 _ N Hok1 Ho1 eq_refl) as [T1 T2].
    split; [exact T1|]. split.
    + intros c. rewrite T2, <- Hin0.
      assert (Hin1 : in_table d1 c <-> in_table d0 c).
      { split.
        - intros [h E]. apply R2 in E as [H _]. exact H.
        - intros H. exists (slot_of (first_atom es c) (2 ^ j)). apply R2. auto. }
      rewrite Hin1. reflexivity.
    + right; right. exists b. split; [exact Hb|]. rewrite length_insert, R1. split.
      * rewrite <- Hex, Hl, Nat2Z.inj_pow. reflexivity.
      * destruct (Nat.eq_dec (length d) 0) as [Hz|Hnz]; [lia|].
        rewrite <- (Hnz0 Hnz). exact Hlt.
  - (* a free slot *)
    destruct (table_insert_free d0 _ N Hok0 Ho eq_refl) as [T1 T2].
    split; [exact T1|]. split.
    + intros c. rewrite T2, Hin0. reflexivity.
    + rewrite length_insert. destruct (Nat.eq_dec (length d) 0) as [Hz|Hnz].
      * left. auto.
      * right; left. rewrite (Hnz0 Hnz) in *. repeat split; auto.
        intros c Hc Esl. destruct Hc as [hc Ec].
        pose proof (proj2 Hok0 _ _ Ec) as Ehc. rewrite Esl in Ehc. subst hc.
        rewrite Ec in Ho. discriminate.
Qed.

End PutTable.

(** ** Paths *)

Section PathFacts.
Context {Slot : Type} (es : list (TrieNode Slot)).

Lemma Reach_inv (x kb : nat) (l : list Z) (y j : nat) (nx : TrieNode Slot) :
  Reach es x kb l y j -> es !! x = Some nx ->
  (y = x /\ kb <= j <= length (label nx) /\ l = take (j - kb) (drop kb (label nx))) \/
  (kb <= length (label nx) /\ exists c nc a r l', in_table (data nx) c /\ es !! c = Some nc /\
     label nc = a :: r /\ l = drop kb (label nx) ++ a :: l' /\ Reach es c 1 l' y j).
Proof.
  intros H Hx. destruct H as [x nx' kb j Hx' Hj | x nx' kb c nc a r l y j Hx' Hkb Hc Hnc Hl HR];
    rewrite Hx in Hx'; injection Hx' as <-.
  - left. auto.
  - right. split; [exact Hkb|]. exists c, nc, a, r, l. auto.
Qed.

Lemma Reach_end (x kb : nat) (l : list Z) (y j : nat) :
  Reach es x kb l y j ->
  exists ny, es !! y = Some ny /\ j <= length (label ny) /\ ((y = x /\ kb <= j) \/ 1 <= j).
Proof.
  induction 1 as [x nx kb j Hx Hj | x nx kb c nc a r l y j Hx Hkb Hc Hnc Hl _ IH].
  - exists nx. split; auto. lia.
  - destruct IH as (ny & Hy & Hj & H1). exists ny. repeat split; auto.
    right. destruct H1 as [[-> H1]|H1]; lia.
Qed.

Lemma Reach_start (x kb : nat) (l : list Z) (y j : nat) :
  Reach es x kb l y j -> exists nx, es !! x = Some nx /\ kb <= length (label nx).
Proof. intros []; eexists; split; eauto; lia. Qed.

Lemma take_drop_length (lab : list Z) (kb j : nat) :
  j <= length lab -> length (take (j - kb) (drop kb lab)) = j - kb.
Proof. intros H. rewrite length_take, length_drop. lia. Qed.

Lemma take_drop_join (lab : list Z) (kb j j' : nat) :
  kb <= j -> j <= j' ->
  take (j - kb) (drop kb lab) ++ take (j' - j) (drop j lab) = take (j' - kb) (drop kb lab).
Proof.
  intros H1 H2.
  replace (drop j lab) with (drop (j - kb) (drop kb lab))
    by (rewrite drop_drop; f_equal; lia).
  rewrite take_take_drop. f_equal. lia.
Qed.

Lemma drop_split (lab : list Z) (kb j : nat) :
  kb <= j -> drop kb lab = take (j - kb) (drop kb lab) ++ drop j lab.
Proof.
  intros H. rewrite <- (take_drop (j - kb) (drop kb lab)) at 1. rewrite drop_drop.
  replace (kb + (j - kb)) with j by lia. reflexivity.
Qed.

Lemma child_first (c : nat) (nc : TrieNode Slot) (a : Z) (r : list Z) :
  es !! c = Some nc -> label nc = a :: r -> first_atom es c = a.
Proof. intros Hc Hl. unfold first_atom. rewrite Hc, Hl. reflexivity. Qed.

Lemma child_unique (d : list (option nat)) (c1 c2 : nat) :
  table_ok es d -> in_table d c1 -> in_table d c2 -> first_atom es c1 = first_atom es c2 ->
  c1 = c2.
Proof.
  intros [_ Hd] [h1 E1] [h2 E2] Ef.
  pose proof (Hd _ _ E1) as S1. pose proof (Hd _ _ E2) as S2.
  rewrite Ef, <- S2 in S1. subst h2. rewrite E1 in E2. congruence.
Qed.

(** Paths extend through an edge ... *)
Lemma Reach_snoc (x kb : nat) (l0 : list Z) (y : nat) (ny : TrieNode Slot)
    (c : nat) (nc : TrieNode Slot) (a : Z) (r l : list Z) (z j : nat) :
  Reach es x kb l0 y (length (label ny)) -> es !! y = Some ny ->
  in_table (data ny) c -> es !! c = Some nc -> label nc = a :: r -> Reach es c 1 l z j ->
  Reach es x kb (l0 ++ a :: l) z j.
Proof.
  intros H. remember (length (label ny)) as J eqn:EJ. revert EJ.
  induction H as [x nx kb J Hx HJ | x nx kb c' nc' a' r' l' y J Hx Hkb Hc' Hnc' Hl' HR IH];
    intros EJ Hy Hc Hnc Hl Hz.
  - rewrite Hx in Hy. injection Hy as <-. subst J.
    rewrite take_ge by (rewrite length_drop; lia).
    eapply reach_down; eauto. lia.
  - rewrite <- app_assoc. simpl. eapply reach_down; eauto.
Qed.

(** ... and within a label. *)
Lemma Reach_ext (x kb : nat) (l : list Z) (y j : nat) (ny : TrieNode Slot) (j' : nat) :
  Reach es x kb l y j -> es !! y = Some ny -> j <= j' <= length (label ny) ->
  Reach es x kb (l ++ take (j' - j) (drop j (label ny))) y j'.
Proof.
  induction 1 as [x nx kb j Hx Hj | x nx kb c nc a r l y j Hx Hkb Hc Hnc Hl HR IH];
    intros Hy Hj'.
  - rewrite Hx in Hy. injection Hy as <-.
    rewrite take_drop_join by lia. apply reach_here; auto. lia.
  - rewrite <- app_assoc. simpl. eapply reach_down; eauto.
Qed.

Section Det.
Hypothesis Htables : forall x nx, es !! x = Some nx -> table_ok es (data nx).

Lemma Reach_det (x kb : nat) (l : list Z) (y j : nat) :
  Reach es x kb l y j -> forall y' j', Reach es x kb l y' j' -> y = y' /\ j = j'.
Proof.
  induction 1 as [x nx kb j Hx Hj | x nx kb c nc a r l y j Hx Hkb Hc Hnc Hl HR IH];
    intros y' j' H2; apply (Reach_inv _ _ _ _ _ nx) in H2; auto.
  - destruct H2 as [(-> & Hj' & E) | (Hkb & c & nc & a & r & l' & Hc & Hnc & Hl & E & _)].
    + split; auto. apply (f_equal length) in E.
      rewrite !take_drop_length in E by lia. lia.
    + apply (f_equal length) in E. rewrite take_drop_length, length_app, length_drop in E by lia.
      simpl in E. lia.
  - destruct H2 as [(-> & Hj' & E) | (Hkb' & c' & nc' & a' & r' & l' & Hc' & Hnc' & Hl' & E & HR')].
    + apply (f_equal length) in E. rewrite take_drop_length, length_app, length_drop in E by lia.
      simpl in E. lia.
    + apply app_inv_head in E. injection E as <- <-.
      assert (c = c') as <-.
      { apply (child_unique (data nx)); auto; [eapply Htables; eauto|].
        rewrite (child_first c nc a r), (child_first c' nc' a r'); auto. }
      apply IH. exact HR'.
Qed.

(** A path through an intermediate point continues from it. *)
Lemma Reach_cont (x kb : nat) (p : list Z) (y j : nat) :
  Reach es x kb p y j -> forall r z j', Reach es x kb (p ++ r) z j' -> Reach es y j r z j'.
Proof.
  induction 1 as [x nx kb j Hx Hj | x nx kb c nc a r0 l y j Hx Hkb Hc Hnc Hl HR IH];
    intros r z j' H2; apply (Reach_inv _ _ _ _ _ nx) in H2; auto.
  - destruct H2 as [(-> & Hj' & E) | (Hkb & c & nc & a & r' & l' & Hc & Hnc & Hl & E & HR)].
    + assert (Hjj : j <= j').
      { apply (f_equal length) in E. rewrite length_app, !take_drop_length in E by lia. lia. }
      rewrite <- (take_drop_join (label nx) kb j j') in E by lia.
      apply app_inv_head in E. subst r. apply reach_here; auto. lia.
    + assert (E' : take (j - kb) (drop kb (label nx)) ++ r =
                   take (j - kb) (drop kb (label nx)) ++ (drop j (label nx) ++ a :: l')).
      { rewrite E, app_assoc, <- drop_split by lia. reflexivity. }
      apply app_inv_head in E'. subst r. eapply reach_down; eauto. lia.
  - destruct H2 as [(-> & Hj' & E) | (Hkb' & c' & nc' & a' & r' & l' & Hc' & Hnc' & Hl' & E & HR')].
    + apply (f_equal length) in E. rewrite take_drop_length in E by lia.
      rewrite !length_app, length_drop in E. simpl in E. lia.
    + rewrite <- app_assoc in E. simpl in E.
      apply app_inv_head in E. injection E as Ea El. subst a' l'.
      assert (c = c') as <-.
      { apply (child_unique (data nx)); auto; [eapply Htables; eauto|].
        rewrite (child_first c nc a r0), (child_first c' nc' a r'); auto. }
      apply IH. exact HR'.
Qed.

End Det.
End PathFacts.

(** ** The traversal kernel computes paths *)

Lemma common_prefix_spec (l1 l2 : list Z) :
  take (common_prefix l1 l2) l1 = take (common_prefix l1 l2) l2 /\
  common_prefix l1 l2 <= length l1 /\ common_prefix l1 l2 <= length l2 /\
  (common_prefix l1 l2 < length l1 -> common_prefix l1 l2 < length l2 ->
   l1 !! common_prefix l1 l2 <> l2 !! common_prefix l1 l2).
Proof.
  revert l2; induction l1 as [|a l1 IH]; intros [|b l2]; simpl;
    try (repeat split; intros; simpl in *; lia).
  destruct (Z.eqb_spec a b) as [<-|Ne]; simpl.
  - destruct (IH l2) as (H1 & H2 & H3 & H4). rewrite H1. repeat split; try lia.
    intros. apply H4; lia.
  - repeat split; try lia. intros _ _. congruence.
Qed.

Lemma drop_cons_nth (l : list Z) (i : nat) :
  i < length l -> drop i l = nth i l 0%Z :: drop (S i) l.
Proof.
  intros H. apply drop_S. destruct (lookup_lt_is_Some_2 l i H) as [x Hx].
  rewrite (nth_lookup_Some l i 0%Z x Hx). exact Hx.
Qed.

Section NodeFind.
Context {Slot : Type} (es : list (TrieNode Slot)).

Lemma node_find_some (nd : TrieNode Slot) (a : Z) (h : nat) :
  node_find es nd a = Some h -> exists c, data nd !! h = Some (Some c) /\ first_atom es c = a.
Proof.
  unfold node_find. destruct (Nat.eqb _ 0); [discriminate|].
  destruct (data nd !! _) as [[c|]|] eqn:E; try discriminate.
  unfold starts_with. destruct (Z.eqb_spec (first_atom es c) a) as [Ea|]; [|discriminate].
  intros H. injection H as <-. eauto.
Qed.

Lemma node_find_none (nd : TrieNode Slot) (a : Z) :
  table_ok es (data nd) -> node_find es nd a = None ->
  forall c, in_table (data nd) c -> first_atom es c <> a.
Proof.
  intros [_ Hd] Hf c [h Hh] Ea. pose proof (Hd _ _ Hh) as Eh.
  pose proof (lookup_lt_Some _ _ _ Hh) as Hlt.
  unfold node_find in Hf. destruct (Nat.eqb_spec (length (data nd)) 0); [lia|].
  rewrite <- Ea, <- Eh, Hh in Hf. unfold starts_with in Hf. rewrite Z.eqb_refl in Hf.
  discriminate.
Qed.

End NodeFind.

Section Search.
Context {Slot : Type} (es : list (TrieNode Slot)) (key : list Z).
Hypothesis Hw : wf es.

Lemma child_node (x : nat) (nx : TrieNode Slot) (c : nat) :
  es !! x = Some nx -> in_table (data nx) c ->
  exists nc a r, es !! c = Some nc /\ label nc = a :: r /\ first_atom es c = a /\ c <> 0.
Proof.
  intros Hx Hc. destruct (wf_child es Hw x nx c Hx Hc) as [Hlt Hnz].
  destruct (lookup_lt_is_Some_2 es c Hlt) as [nc Hnc].
  pose proof (wf_label es Hw c nc Hnz Hnc) as Hl.
  destruct (label nc) as [|a r] eqn:El; [contradiction|].
  exists nc, a, r. repeat split; auto. unfold first_atom. rewrite Hnc, El. reflexivity.
Qed.

Lemma out_loop_spec (fuel : nat) :
  forall x nx kb it, es !! x = Some nx -> kb <= length (label nx) -> it <= length key ->
  length key - it < fuel ->
  exists o, out_loop es key fuel x kb it = SDone (Some o) /\ outcome_ok es key x kb it o.
Proof.
  induction fuel as [|fuel IH]; intros x nx kb it Hx Hkb Hit Hf; [lia|].
  unfold out_loop in *. cbn [gs_loop]. rewrite Hx.
  set (l1 := drop kb (label nx)). set (l2 := drop it key).
  destruct (common_prefix_spec l1 l2) as (Ht & Hc1 & Hc2 & Hdiff).
  set (c := common_prefix l1 l2) in *.
  assert (Hl1 : length l1 = length (label nx) - kb) by apply length_drop.
  assert (Hl2 : length l2 = length key - it) by apply length_drop.
  assert (Rc : Reach es x kb (take c l2) x (kb + c)).
  { rewrite <- Ht. replace c with (kb + c - kb) at 1 by lia. apply reach_here; auto. lia. }
  destruct (Nat.eqb_spec (it + c) (length key)) as [E1|E1].
  - assert (Hkey : take c l2 = l2) by (apply take_ge; lia).
    rewrite Hkey in Rc.
    destruct (Nat.eqb_spec (kb + c) (length (label nx))) as [E2|E2].
    + eexists. split; [reflexivity|]. simpl. exists nx. split; auto. rewrite <- E2. exact Rc.
    + eexists. split; [reflexivity|]. simpl. exists nx. repeat split; auto. lia.
  - destruct (Nat.eqb_spec (kb + c) (length (label nx))) as [E2|E2]; simpl.
    + destruct (node_find es nx (nth (it + c) key 0%Z)) as [h|] eqn:Ef.
      * destruct (node_find_some es nx _ h Ef) as (c0 & Hh & Hfa). rewrite Hh.
        assert (Hc0 : in_table (data nx) c0) by (exists h; exact Hh).
        destruct (child_node x nx c0 Hx Hc0) as (nc0 & a & r & Hnc0 & Hl0 & Ha & _).
        rewrite Ha in Hfa. subst a.
        destruct (IH c0 nc0 1 (S (it + c)) Hnc0) as (o & Ho & Hok);
          [rewrite Hl0; simpl; lia | lia | lia |].
        exists o. split; [exact Ho|].
        assert (Hsplit : l2 = l1 ++ nth (it + c) key 0%Z :: drop (S (it + c)) key).
        { rewrite <- (take_drop c l2). f_equal.
          - rewrite <- Ht. apply take_ge. lia.
          - unfold l2. rewrite drop_drop. apply drop_cons_nth. lia. }
        assert (Htake : forall i, S (it + c) <= i ->
                  take (i - it) l2 =
                  l1 ++ nth (it + c) key 0%Z :: take (i - S (it + c)) (drop (S (it + c)) key)).
        { intros i Hi. rewrite Hsplit, take_app, take_ge by lia. f_equal.
          replace (i - it - length l1) with (S (i - S (it + c))) by lia. reflexivity. }
        destruct o as [y|y i|y e|y e i]; simpl in Hok |- *.
        -- destruct Hok as (ny & Hy & R). exists ny. split; auto.
           fold l2. rewrite Hsplit. eapply reach_down; eauto.
        -- destruct Hok as (Hi & ny & Hy & R & Hno). split; [lia|]. exists ny.
           split; auto. split; auto. fold l2. rewrite Htake by lia. eapply reach_down; eauto.
        -- destruct Hok as (ny & Hy & He & R). exists ny. repeat split; auto.
           fold l2. rewrite Hsplit. eapply reach_down; eauto.
        -- destruct Hok as (Hi & ny & Hy & He & R & Hne). split; [lia|]. exists ny.
           repeat split; auto. fold l2. rewrite Htake by lia. eapply reach_down; eauto.
      * eexists. split; [reflexivity|]. simpl. split; [lia|]. exists nx. split; auto.
        split.
        -- replace (it + c - it) with c by lia. rewrite <- E2. exact Rc.
        -- intros c0 nc0 Hc0 Hnc0.
           destruct (child_node x nx c0 Hx Hc0) as (nc0' & a & r & Hnc0' & Hl0 & Ha & _).
           rewrite Hnc0 in Hnc0'. injection Hnc0' as <-.
           pose proof (node_find_none es nx _ (wf_table es Hw x nx Hx) Ef c0 Hc0) as Hne.
           rewrite Hl0. simpl. destruct (lookup_lt_is_Some_2 key (it + c)) as [k Hk]; [lia|].
           rewrite Hk. rewrite (nth_lookup_Some key (it + c) 0%Z k Hk) in Hne.
           rewrite Ha in Hne. congruence.
    + eexists. split; [reflexivity|]. simpl. split; [lia|]. exists nx.
      repeat split; auto; [lia| |].
      * replace (it + c - it) with c by lia. exact Rc.
      * pose proof (Hdiff ltac:(lia) ltac:(lia)) as Hd.
        unfold l1, l2 in Hd. rewrite !lookup_drop in Hd. exact Hd.
Qed.

End Search.

(** ** Operations as functions of the outcome *)

Lemma gs_loop_outcome {Slot A : Type} (es : list (TrieNode Slot)) (key : list Z)
    (ex : nat -> A -> A) (nne : nat -> nat -> A -> A) (eim : nat -> nat -> A -> A)
    (sim : nat -> nat -> nat -> A -> A) (ea : nat * nat -> nat -> A -> A) :
  (forall x i a, ea x i a = a) ->
  forall fuel n kb it acc,
  gs_loop es key ex nne eim sim ea fuel n kb it acc =
  match out_loop es key fuel n kb it with
  | SDone (Some o) => SDone (run_outcome ex nne eim sim o acc)
  | SDone None => SDone acc
  | SOutOfFuel => SOutOfFuel
  | SDangling => SDangling
  end.
Proof.
  intros Hea fuel. unfold out_loop.
  induction fuel as [|fuel IH]; intros n kb it acc; [reflexivity|]. cbn [gs_loop].
  destruct (es !! n) as [nd|]; [|reflexivity].
  destruct (Nat.eqb _ _); [destruct (Nat.eqb _ _); reflexivity|].
  destruct (negb _); [reflexivity|].
  destruct (node_find es nd _) as [h|]; [|reflexivity].
  destruct (data nd !! h) as [[next|]|]; try reflexivity.
  rewrite Hea. apply IH.
Qed.

Section Lookup.
Context {Slot Val : Type} `{VH : ValueHolder Slot Val}.

Lemma root_search (es : list (TrieNode Slot)) (q : list Z) :
  wf es -> exists o, out_loop es q (S (length q)) 0 0 0 = SDone (Some o) /\ outcome_ok es q 0 0 0 o.
Proof.
  intros Hw. destruct (lookup_lt_is_Some_2 es 0 (wf_root es Hw)) as [root Hr].
  apply (out_loop_spec es q Hw _ 0 root); auto; lia.
Qed.

Lemma At_det (es : list (TrieNode Slot)) (q : list Z) (s s' : Slot) :
  wf es -> At es q s -> At es q s' -> s = s'.
Proof.
  intros Hw (y & ny & Hy & R & <-) (y' & ny' & Hy' & R' & <-).
  destruct (Reach_det es (wf_table es Hw) _ _ _ _ _ R _ _ R') as [<- _].
  congruence.
Qed.

Lemma At_exact (es : list (TrieNode Slot)) (q : list Z) (y : nat) :
  wf es -> outcome_ok es q 0 0 0 (OExact y) ->
  exists ny, es !! y = Some ny /\ forall s, At es q s <-> s = value ny.
Proof.
  intros Hw (ny & Hy & R). rewrite drop_0 in R. exists ny. split; auto. intros s. split.
  - intros Ha. apply (At_det es q); auto. exists y, ny. auto.
  - intros ->. exists y, ny. auto.
Qed.

Lemma At_not_exact (es : list (TrieNode Slot)) (q : list Z) (o : outcome) :
  wf es -> outcome_ok es q 0 0 0 o -> (forall y, o <> OExact y) -> forall s, ~ At es q s.
Proof.
  intros Hw Hok Hne s (y' & ny' & Hy' & R' & _).
  pose proof (wf_table es Hw) as Ht.
  destruct o as [y|y i|y e|y e i]; simpl in Hok; [exact (Hne y eq_refl)| | |].
  - destruct Hok as (Hi & ny & Hy & R & Hno). rewrite drop_0, Nat.sub_0_r in R.
    rewrite <- (take_drop i q) in R'.
    pose proof (Reach_cont es Ht _ _ _ _ _ R _ _ _ R') as C.
    rewrite (drop_cons_nth q i) in C by lia.
    apply (Reach_inv _ _ _ _ _ _ ny) in C; auto.
    destruct C as [(_ & Hj & E) | (_ & c & nc & a & r & l' & Hc & Hnc & Hl & E & _)].
    + rewrite (drop_ge (label ny)) in E by lia. rewrite take_nil in E. discriminate.
    + rewrite (drop_ge (label ny)) in E by lia. simpl in E. injection E as Ea _.
      apply (Hno c nc Hc Hnc). rewrite Hl. simpl.
      destruct (lookup_lt_is_Some_2 q i) as [k Hk]; [lia|]. rewrite Hk.
      rewrite (nth_lookup_Some q i 0%Z k Hk) in Ea. congruence.
  - destruct Hok as (ny & Hy & He & R). rewrite drop_0 in R.
    destruct (Reach_det es Ht _ _ _ _ _ R _ _ R') as [<- ->].
    rewrite Hy in Hy'. injection Hy' as <-. lia.
  - destruct Hok as (Hi & ny & Hy & He & R & Hd). rewrite drop_0, Nat.sub_0_r in R.
    rewrite <- (take_drop i q) in R'.
    pose proof (Reach_cont es Ht _ _ _ _ _ R _ _ _ R') as C.
    rewrite (drop_cons_nth q i) in C by lia.
    apply (Reach_inv _ _ _ _ _ _ ny) in C; auto.
    destruct (lookup_lt_is_Some_2 q i) as [k Hk]; [lia|].
    rewrite (nth_lookup_Some q i 0%Z k Hk) in C.
    destruct (lookup_lt_is_Some_2 (label ny) e) as [b Hb]; [lia|].
    rewrite (drop_S _ b e Hb) in C.
    destruct C as [(_ & Hj & E) | (_ & c & nc & a & r & l' & Hc & Hnc & Hl & E & _)].
    + destruct (length (label ny') - e) eqn:Ej; simpl in E; [discriminate|].
      injection E as Eb _. apply Hd. rewrite Hb, Hk. congruence.
    + simpl in E. injection E as Eb _. apply Hd. rewrite Hb, Hk. congruence.
Qed.

End Lookup.

Section GetContains.
Context {Slot Val : Type} `{VH : ValueHolder Slot Val}.

Lemma get_At (st : trie_map Slot) (q : list Z) :
  wf (edges st) ->
  (forall s, At (edges st) q s -> get st q = slot_get s) /\
  ((forall s, ~ At (edges st) q s) -> get st q = None).
Proof.
  intros Hw. unfold get. pose proof (wf_root _ Hw) as Hr.
  destruct (edges st) as [|e0 es'] eqn:Ees; [simpl in Hr; lia|].
  unfold general_search. rewrite gs_loop_outcome by reflexivity.
  destruct (root_search (e0 :: es') q Hw) as (o & Ho & Hok). rewrite Ho.
  destruct o as [y|y i|y e|y e i]; simpl.
  - destruct (At_exact _ q y Hw Hok) as (ny & Hy & Hiff). rewrite Hy. split.
    + intros s Hs. apply Hiff in Hs. subst s. reflexivity.
    + intros Hn. exfalso. apply (Hn (value ny)). apply Hiff. reflexivity.
  - split; [|reflexivity]. intros s Hs. exfalso.
    apply (At_not_exact _ q _ Hw Hok) in Hs; [exact Hs|congruence].
  - split; [|reflexivity]. intros s Hs. exfalso.
    apply (At_not_exact _ q _ Hw Hok) in Hs; [exact Hs|congruence].
  - split; [|reflexivity]. intros s Hs. exfalso.
    apply (At_not_exact _ q _ Hw Hok) in Hs; [exact Hs|congruence].
Qed.

Lemma contains_At (st : trie_map Slot) (q : list Z) :
  wf (edges st) ->
  (forall s, At (edges st) q s -> contains st q = has_value s) /\
  ((forall s, ~ At (edges st) q s) -> contains st q = false).
Proof.
  intros Hw. unfold contains. pose proof (wf_root _ Hw) as Hr.
  destruct (edges st) as [|e0 es'] eqn:Ees; [simpl in Hr; lia|].
  unfold general_search. rewrite gs_loop_outcome by reflexivity.
  destruct (root_search (e0 :: es') q Hw) as (o & Ho & Hok). rewrite Ho.
  destruct o as [y|y i|y e|y e i]; simpl.
  - destruct (At_exact _ q y Hw Hok) as (ny & Hy & Hiff). rewrite Hy. split.
    + intros s Hs. apply Hiff in Hs. subst s. reflexivity.
    + intros Hn. exfalso. apply (Hn (value ny)). apply Hiff. reflexivity.
  - split; [|reflexivity]. intros s Hs. exfalso.
    apply (At_not_exact _ q _ Hw Hok) in Hs; [exact Hs|congruence].
  - split; [|reflexivity]. intros s Hs. exfalso.
    apply (At_not_exact _ q _ Hw Hok) in Hs; [exact Hs|congruence].
  - split; [|reflexivity]. intros s Hs. exfalso.
    apply (At_not_exact _ q _ Hw Hok) in Hs; [exact Hs|congruence].
Qed.

End GetContains.

(** ** Stores with the same labels and tables *)

Section Shape.
Context {Slot : Type}.

Lemma same_shape_lookup (es es' : list (TrieNode Slot)) (i : nat) (ni : TrieNode Slot) :
  same_shape es es' -> es !! i = Some ni ->
  exists ni', es' !! i = Some ni' /\ label ni' = label ni /\ data ni' = data ni.
Proof.
  intros Hs Hi. destruct (Hs i) as [H1 H2]. rewrite Hi in H1, H2.
  destruct (es' !! i) as [ni'|]; [|discriminate]. simpl in *.
  exists ni'. split; [reflexivity|]. split; congruence.
Qed.

Lemma same_shape_sym (es es' : list (TrieNode Slot)) : same_shape es es' -> same_shape es' es.
Proof. intros H i. destruct (H i). split; auto. Qed.

Lemma same_shape_first (es es' : list (TrieNode Slot)) (c : nat) :
  same_shape es es' -> first_atom es c = first_atom es' c.
Proof.
  intros H. unfold first_atom. destruct (H c) as [H1 _].
  destruct (es !! c), (es' !! c); simpl in H1; try discriminate; auto.
  injection H1 as ->. reflexivity.
Qed.

Lemma same_shape_Reach (es es' : list (TrieNode Slot)) (x kb : nat) (l : list Z) (y j : nat) :
  same_shape es es' -> Reach es x kb l y j -> Reach es' x kb l y j.
Proof.
  intros Hs. induction 1 as [x nx kb j Hx Hj | x nx kb c nc a r l y j Hx Hkb Hc Hnc Hl _ IH].
  - destruct (same_shape_lookup _ _ _ _ Hs Hx) as (nx' & Hx' & El & _).
    rewrite <- El. apply reach_here; auto. rewrite El. exact Hj.
  - destruct (same_shape_lookup _ _ _ _ Hs Hx) as (nx' & Hx' & El & Ed).
    destruct (same_shape_lookup _ _ _ _ Hs Hnc) as (nc' & Hnc' & Elc & _).
    rewrite <- El. eapply reach_down; eauto; [rewrite El; exact Hkb | rewrite Ed; exact Hc | rewrite Elc; exact Hl].
Qed.

Lemma same_shape_wf (es es' : list (TrieNode Slot)) :
  same_shape es es' -> length es = length es' -> wf es -> wf es'.
Proof.
  intros Hs Hlen Hw. pose proof (same_shape_sym _ _ Hs) as Hs'.
  constructor.
  - rewrite <- Hlen. apply (wf_root _ Hw).
  - intros x nx c Hx Hc. destruct (same_shape_lookup _ _ _ _ Hs' Hx) as (nx0 & Hx0 & _ & Ed).
    rewrite <- Hlen. apply (wf_child _ Hw x nx0); auto. rewrite Ed. exact Hc.
  - intros x nx Hnz Hx. destruct (same_shape_lookup _ _ _ _ Hs' Hx) as (nx0 & Hx0 & El & _).
    rewrite <- El. apply (wf_label _ Hw x nx0); auto.
  - intros x nx Hx. destruct (same_shape_lookup _ _ _ _ Hs' Hx) as (nx0 & Hx0 & _ & Ed).
    destruct (wf_table _ Hw x nx0 Hx0) as [T1 T2]. rewrite <- Ed. split; auto.
    intros h c E. rewrite <- (same_shape_first es es' c Hs). auto.
  - intros x nx Hx. destruct (same_shape_lookup _ _ _ _ Hs' Hx) as (nx0 & Hx0 & El & _).
    rewrite <- El. apply (wf_chars _ Hw x nx0 Hx0).
  - intros q q' y ny Hy R R'.
    destruct (same_shape_lookup _ _ _ _ Hs' Hy) as (ny0 & Hy0 & El & _).
    rewrite <- El in R, R'.
    apply (wf_inj _ Hw q q' y ny0); auto; apply (same_shape_Reach es' es); auto.
Qed.

(** Setting the value of one node. *)
Lemma set_slot_shape (es : list (TrieNode Slot)) (y : nat) (ny : TrieNode Slot) (s : Slot) :
  es !! y = Some ny -> same_shape es (<[y := mk_node (label ny) s (data ny)]> es).
Proof.
  intros Hy i. destruct (decide (y = i)) as [<-|Ne].
  - rewrite list_lookup_insert_eq by (eapply lookup_lt_Some; eauto). rewrite Hy. auto.
  - rewrite list_lookup_insert_ne by exact Ne. auto.
Qed.

Lemma set_slot_At (es : list (TrieNode Slot)) (y : nat) (ny : TrieNode Slot) (s : Slot) (k : list Z) :
  wf es -> es !! y = Some ny -> Reach es 0 0 k y (length (label ny)) ->
  wf (<[y := mk_node (label ny) s (data ny)]> es) /\
  At (<[y := mk_node (label ny) s (data ny)]> es) k s /\
  forall q s', q <> k -> At (<[y := mk_node (label ny) s (data ny)]> es) q s' <-> At es q s'.
Proof.
  intros Hw Hy Rk. pose proof (set_slot_shape es y ny s Hy) as Hs.
  pose proof (same_shape_sym _ _ Hs) as Hs'.
  pose proof (lookup_lt_Some _ _ _ Hy) as Hlt.
  split; [apply (same_shape_wf es); auto; symmetry; apply length_insert|].
  split.
  - exists y, (mk_node (label ny) s (data ny)). split; [apply list_lookup_insert_eq; exact Hlt|].
    split; [|reflexivity]. apply (same_shape_Reach es); auto.
  - intros q s' Hq. split.
    + intros (z & nz & Hz & R & <-). apply (same_shape_Reach _ es) in R; auto.
      destruct (decide (y = z)) as [<-|Ne].
      * rewrite list_lookup_insert_eq in Hz by exact Hlt. injection Hz as <-. simpl in R.
        exfalso. apply Hq. apply (wf_inj es Hw q k y ny); auto.
      * rewrite list_lookup_insert_ne in Hz by exact Ne. exists z, nz. auto.
    + intros (z & nz & Hz & R & <-). destruct (decide (y = z)) as [<-|Ne].
      * rewrite Hy in Hz. injection Hz as <-.
        exfalso. apply Hq. apply (wf_inj es Hw q k y ny); auto.
      * exists z, nz. rewrite list_lookup_insert_ne by exact Ne.
        split; [exact Hz|]. split; [|reflexivity]. apply (same_shape_Reach es); auto.
Qed.

End Shape.

(** ** Monotonicity of paths *)

Lemma Reach_mono {Slot : Type} (es es' : list (TrieNode Slot)) (x kb : nat) (l : list Z) (y j : nat) :
  (forall i ni, es !! i = Some ni -> exists ni', es' !! i = Some ni' /\ label ni' = label ni /\
     forall c, in_table (data ni) c -> in_table (data ni') c) ->
  Reach es x kb l y j -> Reach es' x kb l y j.
Proof.
  intros Hm. induction 1 as [x nx kb j Hx Hj | x nx kb c nc a r l y j Hx Hkb Hc Hnc Hl _ IH].
  - destruct (Hm _ _ Hx) as (nx' & Hx' & El & _).
    rewrite <- El. apply reach_here; auto. rewrite El. exact Hj.
  - destruct (Hm _ _ Hx) as (nx' & Hx' & El & Ed).
    destruct (Hm _ _ Hnc) as (nc' & Hnc' & Elc & _).
    rewrite <- El. eapply reach_down; eauto; [rewrite El; exact Hkb | rewrite Elc; exact Hl].
Qed.

Lemma table_transfer {Slot : Type} (es es' : list (TrieNode Slot)) (d : list (option nat)) :
  table_ok es d -> (forall c, in_table d c -> first_atom es' c = first_atom es c) ->
  table_ok es' d.
Proof.
  intros [T1 T2] Hf. split; auto. intros h c E. rewrite Hf by (exists h; exact E). auto.
Qed.

Lemma table_ok_nil {Slot : Type} (es : list (TrieNode Slot)) : table_ok es [].
Proof. split; [left; reflexivity | intros h c E; rewrite lookup_nil in E; discriminate]. Qed.

Lemma in_table_nil (c : nat) : ~ in_table [] c.
Proof. intros [h E]. rewrite lookup_nil in E. discriminate. Qed.

(** ** A new leaf under a node: [insert_edge] *)

Section Leaf.
Context {Slot : Type} (es es' : list (TrieNode Slot)) (p : nat) (np : TrieNode Slot)
  (lf : list Z) (s : Slot) (D : list (option nat)).
Hypothesis Hw : wf es.
Hypothesis Hp : es !! p = Some np.
Hypothesis Hlen : length es' = S (length es).
Hypothesis HN : es' !! length es = Some (mk_node lf s []).
Hypothesis Hp' : es' !! p = Some (mk_node (label np) (value np) D).
Hypothesis Hold : forall i, i <> p -> i < length es -> es' !! i = es !! i.
Hypothesis HD : forall c, in_table D c <-> in_table (data np) c \/ c = length es.
Hypothesis Hlf : lf <> [].

Lemma leaf_back (i : nat) (ni' : TrieNode Slot) :
  i < length es -> es' !! i = Some ni' ->
  exists ni, es !! i = Some ni /\ label ni' = label ni /\ value ni' = value ni /\
    (i <> p -> data ni' = data ni) /\
    (forall c, in_table (data ni') c <-> in_table (data ni) c \/ (i = p /\ c = length es)).
Proof.
  intros Hi Hi'. destruct (decide (i = p)) as [->|Ne].
  - rewrite Hp' in Hi'. injection Hi' as <-. exists np. simpl.
    repeat split; auto; [congruence| |]; intros Hc; apply HD in Hc || apply HD; intuition.
  - rewrite Hold in Hi' by auto. exists ni'. repeat split; auto.
    intros [Hc|[E _]]; [exact Hc|contradiction].
Qed.

Lemma leaf_fwd (i : nat) (ni : TrieNode Slot) :
  es !! i = Some ni ->
  exists ni', es' !! i = Some ni' /\ label ni' = label ni /\ value ni' = value ni /\
    forall c, in_table (data ni) c -> in_table (data ni') c.
Proof.
  intros Hi. pose proof (lookup_lt_Some _ _ _ Hi). destruct (decide (i = p)) as [->|Ne].
  - rewrite Hp in Hi. injection Hi as <-. eexists. split; [exact Hp'|]. simpl.
    repeat split; auto. intros c Hc. apply HD. auto.
  - exists ni. rewrite Hold by auto. auto.
Qed.

Lemma leaf_Reach_fwd (x kb : nat) (l : list Z) (y j : nat) :
  Reach es x kb l y j -> Reach es' x kb l y j.
Proof.
  apply Reach_mono. intros i ni Hi. destruct (leaf_fwd i ni Hi) as (ni' & ? & ? & _ & ?). eauto.
Qed.

Lemma leaf_first (c : nat) : c < length es -> first_atom es' c = first_atom es c.
Proof.
  intros Hc. unfold first_atom. destruct (es !! c) as [nc|] eqn:E.
  - destruct (leaf_fwd c nc E) as (nc' & -> & El & _). rewrite El. reflexivity.
  - apply lookup_ge_None in E. lia.
Qed.

Lemma leaf_Reach_bwd (x kb : nat) (l : list Z) (y j : nat) :
  Reach es' x kb l y j -> x < length es ->
  Reach es x kb l y j \/
  (y = length es /\ 1 <= j /\ exists l0, Reach es x kb l0 p (length (label np)) /\ l = l0 ++ take j lf).
Proof.
  induction 1 as [x nx kb j Hx Hj | x nx kb c nc a r l y j Hx Hkb Hc Hnc Hl HR IH]; intros Hxl.
  - destruct (leaf_back x nx Hxl Hx) as (nx0 & Hx0 & El & _). left.
    rewrite El. apply reach_here; auto. rewrite <- El. exact Hj.
  - destruct (leaf_back x nx Hxl Hx) as (nx0 & Hx0 & El & _ & _ & Hd). rewrite El in Hkb |- *.
    apply Hd in Hc. destruct Hc as [Hc | [-> ->]].
    + destruct (wf_child es Hw x nx0 c Hx0 Hc) as [Hcl _].
      destruct (leaf_back c nc Hcl Hnc) as (nc0 & Hnc0 & Elc & _).
      destruct (IH Hcl) as [IH' | (-> & Hj1 & l0 & R0 & ->)].
      * left. eapply reach_down; eauto. rewrite <- Elc. exact Hl.
      * right. split; [reflexivity|]. split; [exact Hj1|].
        exists (drop kb (label nx0) ++ a :: l0). split.
        -- eapply reach_down; eauto. rewrite <- Elc. exact Hl.
        -- rewrite <- app_assoc. reflexivity.
    + rewrite Hp in Hx0. injection Hx0 as <-.
      rewrite HN in Hnc. injection Hnc as <-. simpl in Hl.
      destruct (Reach_inv es' _ _ _ _ _ (mk_node lf s []) HR HN)
        as [(-> & Hj & E) | (_ & c' & nc' & a' & r' & l' & Hc' & _)];
        [| exfalso; exact (in_table_nil c' Hc')].
      simpl in Hj, E. right. split; [reflexivity|]. split; [lia|].
      exists (drop kb (label np)). split.
      * pose proof (reach_here es p np kb (length (label np)) Hp ltac:(lia)) as H.
        rewrite take_ge in H by (rewrite length_drop; lia). exact H.
      * subst l lf. destruct j as [|j]; [lia|]. simpl. rewrite Nat.sub_0_r. reflexivity.
Qed.

Lemma leaf_wf : Forall (fun a => is_char a = true) lf -> table_ok es' D -> wf es'.
Proof.
  intros Hch HDok. pose proof (wf_root es Hw) as Hr.
  assert (Hx : forall x nx, es' !! x = Some nx -> x <> length es -> x < length es).
  { intros x nx Hx Ne. apply lookup_lt_Some in Hx. lia. }
  constructor.
  - lia.
  - intros x nx c Hx' Hc. destruct (decide (x = length es)) as [->|Ne].
    + rewrite HN in Hx'. injection Hx' as <-. exfalso. exact (in_table_nil c Hc).
    + destruct (leaf_back x nx (Hx _ _ Hx' Ne) Hx') as (nx0 & Hx0 & _ & _ & _ & Hd).
      apply Hd in Hc as [Hc | [_ ->]]; [|lia].
      destruct (wf_child es Hw x nx0 c Hx0 Hc). lia.
  - intros x nx Hnz Hx'. destruct (decide (x = length es)) as [->|Ne].
    + rewrite HN in Hx'. injection Hx' as <-. exact Hlf.
    + destruct (leaf_back x nx (Hx _ _ Hx' Ne) Hx') as (nx0 & Hx0 & El & _).
      rewrite El. apply (wf_label es Hw x nx0); auto.
  - intros x nx Hx'. destruct (decide (x = length es)) as [->|Ne].
    + rewrite HN in Hx'. injection Hx' as <-. apply table_ok_nil.
    + destruct (decide (x = p)) as [->|Np].
      * rewrite Hp' in Hx'. injection Hx' as <-. exact HDok.
      * destruct (leaf_back x nx (Hx _ _ Hx' Ne) Hx') as (nx0 & Hx0 & _ & _ & Ed & _).
        rewrite (Ed Np). apply (table_transfer es). { exact (wf_table es Hw x nx0 Hx0). }
        intros c Hc. apply leaf_first. apply (wf_child es Hw x nx0 c Hx0 Hc).
  - intros x nx Hx'. destruct (decide (x = length es)) as [->|Ne].
    + rewrite HN in Hx'. injection Hx' as <-. exact Hch.
    + destruct (leaf_back x nx (Hx _ _ Hx' Ne) Hx') as (nx0 & Hx0 & El & _).
      rewrite El. apply (wf_chars es Hw x nx0 Hx0).
  - intros q q' y ny Hy R R'.
    apply leaf_Reach_bwd in R; [|exact Hr]. apply leaf_Reach_bwd in R'; [|exact Hr].
    destruct R as [R | (Ey & _ & l0 & R0 & Eq)]; destruct R' as [R' | (Ey' & _ & l0' & R0' & Eq')].
    + destruct (Reach_end es _ _ _ _ _ R) as (ny0 & Hy0 & _).
      destruct (leaf_back y ny (lookup_lt_Some _ _ _ Hy0) Hy) as (ny1 & Hy1 & El & _).
      rewrite Hy0 in Hy1. injection Hy1 as <-. rewrite El in R, R'.
      apply (wf_inj es Hw q q' y ny0); auto.
    + destruct (Reach_end es _ _ _ _ _ R) as (ny0 & Hy0 & _).
      apply lookup_lt_Some in Hy0. lia.
    + destruct (Reach_end es _ _ _ _ _ R') as (ny0 & Hy0 & _).
      apply lookup_lt_Some in Hy0. lia.
    + subst q q'. f_equal. apply (wf_inj es Hw l0 l0' p np); auto.
Qed.

Lemma leaf_At (k0 : list Z) :
  Reach es 0 0 k0 p (length (label np)) ->
  At es' (k0 ++ lf) s /\ forall q s', q <> k0 ++ lf -> At es' q s' <-> At es q s'.
Proof.
  intros R0. pose proof (wf_root es Hw) as Hr. split.
  - exists (length es), (mk_node lf s []). split; [exact HN|]. split; [|reflexivity].
    destruct lf as [|a r] eqn:Elf; [contradiction|]. simpl label.
    apply (Reach_snoc es' 0 0 k0 p (mk_node (label np) (value np) D) (length es)
             (mk_node (a :: r) s []) a r r (length es) (S (length r))).
    + simpl. apply leaf_Reach_fwd. exact R0.
    + exact Hp'.
    + simpl. apply HD. auto.
    + exact HN.
    + reflexivity.
    + pose proof (reach_here es' (length es) (mk_node (a :: r) s []) 1 (length (a :: r)) HN
        ltac:(simpl; lia)) as H.
      assert (E : take (length (a :: r) - 1) (drop 1 (a :: r)) = r)
        by (simpl; rewrite Nat.sub_0_r; apply take_ge; lia).
      cbn [label] in H. rewrite E in H. exact H.
  - intros q s' Hq. split.
    + intros (z & nz & Hz & R & <-). apply leaf_Reach_bwd in R; [|exact Hr].
      destruct R as [R | (-> & _ & l0 & R1 & ->)].
      * destruct (Reach_end es _ _ _ _ _ R) as (nz0 & Hz0 & _).
        destruct (leaf_back z nz (lookup_lt_Some _ _ _ Hz0) Hz) as (nz1 & Hz1 & El & Ev & _).
        rewrite Hz0 in Hz1. injection Hz1 as <-.
        exists z, nz0. rewrite El in R. auto.
      * rewrite HN in Hz. injection Hz as <-. simpl in Hq.
        rewrite take_ge in Hq by lia. exfalso. apply Hq. f_equal.
        apply (wf_inj es Hw l0 k0 p np); auto.
    + intros (z & nz & Hz & R & <-).
      destruct (leaf_fwd z nz Hz) as (nz' & Hz' & El & Ev & _).
      exists z, nz'. rewrite El, Ev. split; [exact Hz'|]. split; [|reflexivity].
      apply leaf_Reach_fwd. exact R.
Qed.

End Leaf.

(** ** More path facts *)

Lemma drop_take_comm (lab : list Z) (kb m : nat) :
  drop kb (take m lab) = take (m - kb) (drop kb lab).
Proof.
  rewrite take_drop_commute. destruct (Nat.le_gt_cases kb m).
  - f_equal. f_equal. lia.
  - rewrite !drop_ge; auto; rewrite length_take; lia.
Qed.

Lemma take_drop_take (lab : list Z) (kb j m : nat) :
  j <= m -> take (j - kb) (drop kb (take m lab)) = take (j - kb) (drop kb lab).
Proof.
  intros H. rewrite drop_take_comm, take_take. f_equal. lia.
Qed.

(** Matching may start one atom earlier in a label ... *)
Lemma Reach_shift {Slot : Type} (es : list (TrieNode Slot)) (x k : nat) (nx : TrieNode Slot)
    (a : Z) (l : list Z) (y j : nat) :
  es !! x = Some nx -> label nx !! k = Some a ->
  Reach es x (S k) l y j -> Reach es x k (a :: l) y j.
Proof.
  intros Hx Ha R. pose proof (lookup_lt_Some _ _ _ Ha) as Hk.
  assert (Ed : drop k (label nx) = a :: drop (S k) (label nx)) by (apply drop_S; exact Ha).
  destruct (Reach_inv es _ _ _ _ _ nx R Hx)
    as [(-> & Hj & ->) | (Hkb & c & nc & b & r & l' & Hc & Hnc & Hl & -> & R')].
  - replace (j - S k) with (j - k - 1) by lia.
    pose proof (reach_here es x nx k j Hx ltac:(lia)) as H.
    rewrite Ed in H. replace (j - k) with (S (j - k - 1)) in H by lia. exact H.
  - pose proof (reach_down es x nx k c nc b r l' y j Hx ltac:(lia) Hc Hnc Hl R') as H.
    rewrite Ed in H. exact H.
Qed.

(** ... or at any earlier offset. *)
Lemma Reach_back {Slot : Type} (es : list (TrieNode Slot)) (x kb j0 : nat) (nx : TrieNode Slot)
    (l : list Z) (y j : nat) :
  es !! x = Some nx -> kb <= j0 ->
  Reach es x j0 l y j -> Reach es x kb (take (j0 - kb) (drop kb (label nx)) ++ l) y j.
Proof.
  intros Hx Hkb R.
  destruct (Reach_inv es _ _ _ _ _ nx R Hx)
    as [(-> & Hj & ->) | (Hj0 & c & nc & b & r & l' & Hc & Hnc & Hl & -> & R')].
  - rewrite take_drop_join by lia. apply reach_here; auto. lia.
  - rewrite app_assoc, <- drop_split by lia. eapply reach_down; eauto. lia.
Qed.

(** Two keys ending at the same place of a well-formed store are equal. *)
Lemma Reach_inj_partial {Slot : Type} (es : list (TrieNode Slot)) (q q' : list Z) (y j : nat) :
  wf es -> Reach es 0 0 q y j -> Reach es 0 0 q' y j -> q = q'.
Proof.
  intros Hw R R'. destruct (Reach_end es _ _ _ _ _ R) as (ny & Hy & Hj & _).
  pose proof (Reach_ext es _ _ _ _ _ ny (length (label ny)) R Hy ltac:(lia)) as E.
  pose proof (Reach_ext es _ _ _ _ _ ny (length (label ny)) R' Hy ltac:(lia)) as E'.
  pose proof (wf_inj es Hw _ _ y ny Hy E E') as Eq.
  apply app_inv_tail in Eq. exact Eq.
Qed.

Section SplitRest.
Context {Slot Val : Type} `{VH : ValueHolder Slot Val}.

Lemma split_rest (es : list (TrieNode Slot)) (n : nat) (nn : TrieNode Slot) (hint m : nat) :
  es !! n = Some nn ->
  length (split (new_edge es hint) n (length es) m) = S (length es) /\
  forall i, i <> n -> i < length es -> split (new_edge es hint) n (length es) m !! i = es !! i.
Proof.
  intros Hnn. pose proof (lookup_lt_Some _ _ _ Hnn) as Hn.
  set (fresh := mk_node [] vh_empty (repeat None hint)).
  assert (E0 : (es ++ [fresh]) !! n = Some nn) by (rewrite lookup_app_l; auto).
  assert (E1 : (es ++ [fresh]) !! length es = Some fresh)
    by (apply list_lookup_middle; reflexivity).
  unfold split, new_edge. fold fresh. rewrite E0, E1. cbv beta iota zeta.
  set (nd_n := mk_node (take m (label nn)) (value fresh) (data fresh)).
  set (nd_s := mk_node (drop m (label nn)) (value nn) (data nn)).
  set (es2 := <[length es := nd_s]> (<[n := nd_n]> (es ++ [fresh]))).
  assert (H2n : es2 !! n = Some nd_n).
  { unfold es2. rewrite list_lookup_insert_ne by lia.
    apply list_lookup_insert_eq. rewrite length_app. simpl. lia. }
  unfold put. rewrite H2n. split.
  - unfold es2. rewrite !length_insert, length_app. simpl. lia.
  - intros i Ne Hi. rewrite list_lookup_insert_ne by congruence. unfold es2.
    rewrite list_lookup_insert_ne by lia. rewrite list_lookup_insert_ne by congruence.
    apply lookup_app_l. exact Hi.
Qed.

End SplitRest.

(** ** Splitting a node at label offset [m]: [split] *)

Section Split.
Context {Slot : Type} (es es1 : list (TrieNode Slot)) (n : nat) (nn : TrieNode Slot) (m : nat)
  (s0 : Slot) (T : list (option nat)).
Hypothesis Hw : wf es.
Hypothesis Hn : es !! n = Some nn.
Hypothesis Hm : m < length (label nn).
Hypothesis Hm1 : n <> 0 -> 1 <= m.
Hypothesis Hlen1 : length es1 = S (length es).
Hypothesis Hn1 : es1 !! n = Some (mk_node (take m (label nn)) s0 T).
Hypothesis HN1 : es1 !! length es = Some (mk_node (drop m (label nn)) (value nn) (data nn)).
Hypothesis Hold1 : forall i, i <> n -> i < length es -> es1 !! i = es !! i.
Hypothesis HT : forall c, in_table T c <-> c = length es.

Lemma split_n_lt : n < length es.
Proof. exact (lookup_lt_Some _ _ _ Hn). Qed.

Lemma split_len_take : length (take m (label nn)) = m.
Proof. rewrite length_take. lia. Qed.

Lemma split_len_drop : length (drop m (label nn)) = length (label nn) - m.
Proof. apply length_drop. Qed.

Lemma split_child_fwd (c : nat) (nc : TrieNode Slot) (a : Z) (r : list Z) :
  c <> 0 -> es !! c = Some nc -> label nc = a :: r ->
  exists nc1 r1, es1 !! c = Some nc1 /\ label nc1 = a :: r1.
Proof.
  intros Hc0 Hc Hl. pose proof (lookup_lt_Some _ _ _ Hc) as Hcl.
  destruct (decide (c = n)) as [->|Ne].
  - rewrite Hn in Hc. injection Hc as <-. pose proof (Hm1 Hc0).
    exists (mk_node (take m (label nn)) s0 T), (take (m - 1) r). split; auto. simpl.
    rewrite Hl. destruct m as [|m']; [lia|]. simpl. rewrite Nat.sub_0_r. reflexivity.
  - exists nc, r. rewrite Hold1 by auto. auto.
Qed.

Lemma split_child_bwd (c : nat) (nc1 : TrieNode Slot) (a : Z) (r : list Z) :
  c <> 0 -> c < length es -> es1 !! c = Some nc1 -> label nc1 = a :: r ->
  exists nc r0, es !! c = Some nc /\ label nc = a :: r0.
Proof.
  intros Hc0 Hcl Hc Hl. destruct (decide (c = n)) as [->|Ne].
  - rewrite Hn1 in Hc. injection Hc as <-. simpl in Hl. pose proof (Hm1 Hc0).
    exists nn. destruct (label nn) as [|b r0]; [simpl in Hm; lia|].
    destruct m as [|m']; [lia|]. simpl in Hl. injection Hl as -> _. eauto.
  - rewrite Hold1 in Hc by auto. eauto.
Qed.

Lemma split_first (c : nat) : c < length es -> (c = n -> 1 <= m) ->
  first_atom es1 c = first_atom es c.
Proof.
  intros Hc Hcn. unfold first_atom. destruct (decide (c = n)) as [->|Ne].
  - rewrite Hn, Hn1. simpl. specialize (Hcn eq_refl).
    destruct (label nn) as [|b r0]; [rewrite take_nil; reflexivity|]. destruct m; [lia|]. reflexivity.
  - rewrite Hold1 by auto. reflexivity.
Qed.

Lemma sp_le (kb : nat) : kb <= m -> (sp_node (length es) n m) n kb = n /\ (sp_off n m) n kb = kb.
Proof. intros H. unfold sp_node, sp_off. case_decide; [lia|]. auto. Qed.

Lemma sp_gt (kb : nat) : m < kb -> (sp_node (length es) n m) n kb = length es /\ (sp_off n m) n kb = kb - m.
Proof. intros H. unfold sp_node, sp_off. case_decide; [|tauto]. auto. Qed.

Lemma sp_other (x kb : nat) : x <> n -> (sp_node (length es) n m) x kb = x /\ (sp_off n m) x kb = kb.
Proof. intros H. unfold sp_node, sp_off. case_decide; [tauto|]. auto. Qed.

Lemma bk_N (j : nat) : (bk_node (length es) n) (length es) = n /\ (bk_off (length es) m) (length es) j = m + j.
Proof. unfold bk_node, bk_off. case_decide; [|tauto]. auto. Qed.

Lemma bk_other (x j : nat) : x <> length es -> (bk_node (length es) n) x = x /\ (bk_off (length es) m) x j = j.
Proof. intros H. unfold bk_node, bk_off. case_decide; [tauto|]. auto. Qed.

Lemma split_drop_m : drop m (label nn) = nth m (label nn) 0%Z :: drop (S m) (label nn).
Proof. apply drop_cons_nth. exact Hm. Qed.

Lemma split_Reach_fwd (x kb : nat) (l : list Z) (y j : nat) :
  Reach es x kb l y j ->
  Reach es1 ((sp_node (length es) n m) x kb) ((sp_off n m) x kb) l ((sp_node (length es) n m) y j) ((sp_off n m) y j).
Proof.
  pose proof split_n_lt as Hnl. pose proof split_len_take as Lt. pose proof split_len_drop as Ld.
  pose proof split_drop_m as Ed. set (b := nth m (label nn) 0%Z) in Ed.
  induction 1 as [x nx kb j Hx Hj | x nx kb c nc a r l y j Hx Hkb Hc Hnc Hl HR IH].
  - destruct (decide (x = n)) as [->|Ne].
    + rewrite Hn in Hx. injection Hx as <-.
      destruct (Nat.le_gt_cases j m) as [Hjm|Hjm].
      * destruct (sp_le kb ltac:(lia)) as [-> ->]. destruct (sp_le j Hjm) as [-> ->].
        rewrite <- (take_drop_take (label nn) kb j m) by lia.
        apply (reach_here es1 n _ kb j Hn1). simpl. lia.
      * destruct (sp_gt j Hjm) as [-> ->]. destruct (Nat.le_gt_cases kb m) as [Hkm|Hkm].
        -- destruct (sp_le kb Hkm) as [-> ->].
           pose proof (reach_here es1 (length es) _ 1 (j - m) HN1 ltac:(simpl; lia)) as H1.
           pose proof (reach_down es1 n _ kb (length es) _ b (drop (S m) (label nn)) _ _ _ Hn1
             ltac:(simpl; lia) (proj2 (HT _) eq_refl) HN1 Ed H1) as H2.
           cbn [label] in H2.
           assert (E : take (j - kb) (drop kb (label nn)) =
                       drop kb (take m (label nn)) ++
                       b :: take (j - m - 1) (drop 1 (drop m (label nn)))).
           { rewrite <- (take_drop_join (label nn) kb m j) by lia.
             rewrite (drop_take_comm (label nn) kb m), Ed. f_equal.
             destruct (j - m) as [|jm] eqn:Ejm; [lia|]. simpl. rewrite Nat.sub_0_r. reflexivity. }
           rewrite E. exact H2.
        -- destruct (sp_gt kb Hkm) as [-> ->].
           pose proof (reach_here es1 (length es) _ (kb - m) (j - m) HN1 ltac:(simpl; lia)) as H.
           cbn [label] in H. rewrite drop_drop in H.
           replace (m + (kb - m)) with kb in H by lia.
           replace (j - m - (kb - m)) with (j - kb) in H by lia. exact H.
    + destruct (sp_other x kb Ne) as [-> ->]. destruct (sp_other x j Ne) as [-> ->].
      apply reach_here; [|exact Hj]. rewrite Hold1; auto. eapply lookup_lt_Some; eauto.
  - destruct (wf_child es Hw x nx c Hx Hc) as [Hcl Hc0].
    assert (Ec : (sp_node (length es) n m) c 1 = c /\ (sp_off n m) c 1 = 1).
    { destruct (decide (c = n)) as [->|Ne]; [apply sp_le; auto|apply sp_other; auto]. }
    destruct Ec as [Ec1 Ec2]. rewrite Ec1, Ec2 in IH.
    destruct (split_child_fwd c nc a r Hc0 Hnc Hl) as (nc1 & r1 & Hnc1 & Hl1).
    destruct (decide (x = n)) as [->|Ne].
    + rewrite Hn in Hx. injection Hx as <-.
      pose proof (reach_down es1 (length es) _ 1 c nc1 a r1 l _ _ HN1 ltac:(simpl; lia)
        Hc Hnc1 Hl1 IH) as H1. cbn [label] in H1.
      destruct (Nat.le_gt_cases kb m) as [Hkm|Hkm].
      * destruct (sp_le kb Hkm) as [-> ->].
        pose proof (reach_down es1 n _ kb (length es) _ b (drop (S m) (label nn)) _ _ _ Hn1
          ltac:(simpl; lia) (proj2 (HT _) eq_refl) HN1 Ed H1) as H2. cbn [label] in H2.
        assert (E : drop kb (label nn) ++ a :: l =
                    drop kb (take m (label nn)) ++ b :: (drop 1 (drop m (label nn)) ++ a :: l)).
        { rewrite (drop_split (label nn) kb m) by lia.
          rewrite (drop_take_comm (label nn) kb m), Ed. simpl. rewrite <- app_assoc. reflexivity. }
        rewrite E. exact H2.
      * destruct (sp_gt kb Hkm) as [-> ->].
        pose proof (reach_down es1 (length es) _ (kb - m) c nc1 a r1 l _ _ HN1 ltac:(simpl; lia)
          Hc Hnc1 Hl1 IH) as H. cbn [label] in H. rewrite drop_drop in H.
        replace (m + (kb - m)) with kb in H by lia. exact H.
    + destruct (sp_other x kb Ne) as [-> ->].
      eapply reach_down; eauto. rewrite Hold1; auto. eapply lookup_lt_Some; eauto.
Qed.

Lemma split_Reach_bwd (x kb : nat) (l : list Z) (y j : nat) :
  Reach es1 x kb l y j -> (x = n -> kb <= m) -> (x = length es -> 1 <= kb) ->
  Reach es ((bk_node (length es) n) x) ((bk_off (length es) m) x kb) l ((bk_node (length es) n) y) ((bk_off (length es) m) y j) /\
  (y = n -> j <= m) /\ (y = length es -> 1 <= j).
Proof.
  pose proof split_n_lt as Hnl. pose proof split_len_take as Lt. pose proof split_len_drop as Ld.
  induction 1 as [x nx kb j Hx Hj | x nx kb c nc a r l y j Hx Hkb Hc Hnc Hl HR IH];
    intros H1 H2; pose proof (lookup_lt_Some _ _ _ Hx) as Hxl; rewrite Hlen1 in Hxl.
  - destruct (decide (x = length es)) as [->|NeN]; [|destruct (decide (x = n)) as [->|Ne]].
    + rewrite HN1 in Hx. injection Hx as <-. cbn [label] in Hj |- *.
      destruct (bk_N kb) as [-> ->]. destruct (bk_N j) as [_ ->].
      split; [|split; [intros; lia | intros; lia]].
      rewrite drop_drop. replace (j - kb) with (m + j - (m + kb)) by lia.
      apply reach_here; auto. specialize (H2 eq_refl). lia.
    + rewrite Hn1 in Hx. injection Hx as <-. cbn [label] in Hj |- *.
      destruct (bk_other n kb NeN) as [-> ->]. destruct (bk_other n j NeN) as [_ ->].
      rewrite take_drop_take by lia.
      split; [apply reach_here; auto; lia | split; [intros; lia | intros; lia]].
    + rewrite Hold1 in Hx by lia.
      destruct (bk_other x kb NeN) as [-> ->]. destruct (bk_other x j NeN) as [_ ->].
      split; [apply reach_here; auto | split; intros; contradiction].
  - destruct (decide (x = length es)) as [->|NeN]; [|destruct (decide (x = n)) as [->|Ne]].
    + rewrite HN1 in Hx. injection Hx as <-. cbn [label data] in Hkb, Hc |- *.
      destruct (wf_child es Hw n nn c Hn Hc) as [Hcl Hc0].
      destruct (IH (fun E => Hm1 (fun E0 => Hc0 (eq_trans E E0))) ltac:(lia)) as [IH1 IH2].
      destruct (bk_other c 1 ltac:(lia)) as [Ec1 Ec2]. rewrite Ec1, Ec2 in IH1.
      destruct (split_child_bwd c nc a r Hc0 Hcl Hnc Hl) as (nc0 & r0 & Hnc0 & Hl0).
      destruct (bk_N kb) as [-> ->]. split; [|exact IH2].
      rewrite drop_drop. eapply reach_down; eauto. lia.
    + rewrite Hn1 in Hx. injection Hx as <-. cbn [label data] in Hkb, Hc |- *.
      apply HT in Hc. subst c. rewrite HN1 in Hnc. injection Hnc as <-. cbn [label] in Hl.
      destruct (IH ltac:(lia) ltac:(lia)) as [IH1 IH2].
      destruct (bk_N 1) as [Ec1 Ec2]. rewrite Ec1, Ec2 in IH1.
      destruct (bk_other n kb NeN) as [-> ->].
      assert (Ha : label nn !! m = Some a).
      { rewrite <- (Nat.add_0_r m), <- lookup_drop, Hl. reflexivity. }
      replace (m + 1) with (S m) in IH1 by lia.
      pose proof (Reach_shift es n m nn a l _ _ Hn Ha IH1) as H3.
      pose proof (Reach_back es n kb m nn (a :: l) _ _ Hn (H1 eq_refl) H3) as H4.
      rewrite drop_take_comm. split; [exact H4 | exact IH2].
    + rewrite Hold1 in Hx by lia.
      destruct (wf_child es Hw x nx c Hx Hc) as [Hcl Hc0].
      destruct (IH (fun E => Hm1 (fun E0 => Hc0 (eq_trans E E0))) ltac:(lia)) as [IH1 IH2].
      destruct (bk_other c 1 ltac:(lia)) as [Ec1 Ec2]. rewrite Ec1, Ec2 in IH1.
      destruct (split_child_bwd c nc a r Hc0 Hcl Hnc Hl) as (nc0 & r0 & Hnc0 & Hl0).
      destruct (bk_other x kb NeN) as [-> ->]. split; [|exact IH2].
      eapply reach_down; eauto.
Qed.

Lemma sp_zero : (sp_node (length es) n m) 0 0 = 0 /\ (sp_off n m) 0 0 = 0.
Proof. unfold sp_node, sp_off. case_decide; [lia|]. auto. Qed.

Lemma split_wf : table_ok es1 T -> wf es1.
Proof.
  intros HTok. pose proof split_n_lt as Hnl. pose proof split_len_take as Lt.
  pose proof split_len_drop as Ld. pose proof (wf_root es Hw) as Hr.
  assert (Hchild : forall c, in_table (data nn) c -> first_atom es1 c = first_atom es c).
  { intros c Hc. destruct (wf_child es Hw n nn c Hn Hc) as [Hcl Hc0].
    apply split_first; auto. intros ->. auto. }
  constructor.
  - lia.
  - intros x nx c Hx Hc. pose proof (lookup_lt_Some _ _ _ Hx) as Hxl. rewrite Hlen1 in Hxl.
    destruct (decide (x = length es)) as [->|NeN]; [|destruct (decide (x = n)) as [->|Ne]].
    + rewrite HN1 in Hx. injection Hx as <-. simpl in Hc.
      destruct (wf_child es Hw n nn c Hn Hc). lia.
    + rewrite Hn1 in Hx. injection Hx as <-. simpl in Hc. apply HT in Hc. lia.
    + rewrite Hold1 in Hx by lia. destruct (wf_child es Hw x nx c Hx Hc). lia.
  - intros x nx Hx0 Hx. pose proof (lookup_lt_Some _ _ _ Hx) as Hxl. rewrite Hlen1 in Hxl.
    destruct (decide (x = length es)) as [->|NeN]; [|destruct (decide (x = n)) as [->|Ne]].
    + rewrite HN1 in Hx. injection Hx as <-. simpl. intros E.
      apply (f_equal length) in E. simpl in E. lia.
    + rewrite Hn1 in Hx. injection Hx as <-. simpl. intros E.
      apply (f_equal length) in E. simpl in E. specialize (Hm1 Hx0). lia.
    + rewrite Hold1 in Hx by lia. apply (wf_label es Hw x nx); auto.
  - intros x nx Hx. pose proof (lookup_lt_Some _ _ _ Hx) as Hxl. rewrite Hlen1 in Hxl.
    destruct (decide (x = length es)) as [->|NeN]; [|destruct (decide (x = n)) as [->|Ne]].
    + rewrite HN1 in Hx. injection Hx as <-. simpl.
      apply (table_transfer es); [exact (wf_table es Hw n nn Hn) | exact Hchild].
    + rewrite Hn1 in Hx. injection Hx as <-. exact HTok.
    + rewrite Hold1 in Hx by lia. apply (table_transfer es); [exact (wf_table es Hw x nx Hx)|].
      intros c Hc. destruct (wf_child es Hw x nx c Hx Hc) as [Hcl Hc0].
      apply split_first; auto. intros ->. auto.
  - intros x nx Hx. pose proof (lookup_lt_Some _ _ _ Hx) as Hxl. rewrite Hlen1 in Hxl.
    pose proof (wf_chars es Hw n nn Hn) as Hc.
    destruct (decide (x = length es)) as [->|NeN]; [|destruct (decide (x = n)) as [->|Ne]].
    + rewrite HN1 in Hx. injection Hx as <-. apply Forall_drop. exact Hc.
    + rewrite Hn1 in Hx. injection Hx as <-. apply Forall_take. exact Hc.
    + rewrite Hold1 in Hx by lia. apply (wf_chars es Hw x nx Hx).
  - intros q q' y ny Hy R R'.
    destruct (split_Reach_bwd _ _ _ _ _ R ltac:(lia) ltac:(lia)) as [R1 _].
    destruct (split_Reach_bwd _ _ _ _ _ R' ltac:(lia) ltac:(lia)) as [R1' _].
    destruct (bk_other 0 0 ltac:(lia)) as [E1 E2]. rewrite E1, E2 in R1, R1'.
    exact (Reach_inj_partial es q q' _ _ Hw R1 R1').
Qed.

Lemma split_At (k0 : list Z) :
  Reach es 0 0 k0 n m ->
  Reach es1 0 0 k0 n m /\ forall q s, At es1 q s <-> At es q s \/ (q = k0 /\ s = s0).
Proof.
  intros R0. pose proof split_n_lt as Hnl. pose proof split_len_take as Lt.
  pose proof split_len_drop as Ld. pose proof (wf_root es Hw) as Hr.
  assert (R1 : Reach es1 0 0 k0 n m).
  { pose proof (split_Reach_fwd _ _ _ _ _ R0) as H.
    destruct sp_zero as [E1 E2]. destruct (sp_le m ltac:(lia)) as [E3 E4].
    rewrite E1, E2, E3, E4 in H. exact H. }
  split; [exact R1|]. intros q s. split.
  - intros (z & nz & Hz & R & <-).
    pose proof (lookup_lt_Some _ _ _ Hz) as Hzl. rewrite Hlen1 in Hzl.
    destruct (split_Reach_bwd _ _ _ _ _ R ltac:(lia) ltac:(lia)) as [R2 _].
    destruct (bk_other 0 0 ltac:(lia)) as [E1 E2]. rewrite E1, E2 in R2.
    destruct (decide (z = length es)) as [->|NeN]; [|destruct (decide (z = n)) as [->|Ne]].
    + rewrite HN1 in Hz. injection Hz as <-. cbn [label value] in R2 |- *.
      destruct (bk_N (length (drop m (label nn)))) as [E3 E4]. rewrite E3, E4, Ld in R2.
      replace (m + (length (label nn) - m)) with (length (label nn)) in R2 by lia.
      left. exists n, nn. auto.
    + rewrite Hn1 in Hz. injection Hz as <-. cbn [label value] in R2 |- *.
      destruct (bk_other n (length (take m (label nn))) NeN) as [E3 E4].
      rewrite E3, E4, Lt in R2. right. split; [|reflexivity].
      exact (Reach_inj_partial es q k0 n m Hw R2 R0).
    + destruct (bk_other z (length (label nz)) NeN) as [E3 E4]. rewrite E3, E4 in R2.
      rewrite Hold1 in Hz by lia. left. exists z, nz. auto.
  - intros [(z & nz & Hz & R & <-) | [-> ->]].
    + pose proof (split_Reach_fwd _ _ _ _ _ R) as R2.
      destruct sp_zero as [E1 E2]. rewrite E1, E2 in R2.
      destruct (decide (z = n)) as [->|Ne].
      * rewrite Hn in Hz. injection Hz as <-.
        destruct (sp_gt (length (label nn)) Hm) as [E3 E4]. rewrite E3, E4 in R2.
        exists (length es), (mk_node (drop m (label nn)) (value nn) (data nn)).
        split; [exact HN1|]. cbn [label value]. rewrite Ld. auto.
      * destruct (sp_other z (length (label nz)) Ne) as [E3 E4]. rewrite E3, E4 in R2.
        exists z, nz. rewrite Hold1 by (auto; eapply lookup_lt_Some; eauto). auto.
    + exists n, (mk_node (take m (label nn)) s0 T). split; [exact Hn1|].
      cbn [label value]. rewrite Lt. auto.
Qed.

End Split.

(** ** [insert_edge] and [split] as store updates *)

Lemma insert_last {T : Type} (l : list T) (x y : T) : <[length l := x]> (l ++ [y]) = l ++ [x].
Proof. induction l as [|z l IH]; simpl; [reflexivity|]. f_equal. exact IH. Qed.

Section StoreUpdates.
Context {Slot Val : Type} `{VH : ValueHolder Slot Val}.

Lemma insert_edge_spec (es : list (TrieNode Slot)) (p : nat) (np : TrieNode Slot) (lf : list Z) (v : Val) :
  es !! p = Some np ->
  length (insert_edge es (Some p) lf v) = S (length es) /\
  insert_edge es (Some p) lf v !! length es = Some (mk_node lf (set_value v) []) /\
  insert_edge es (Some p) lf v !! p =
    Some (mk_node (label np) (value np)
            (put_table (es ++ [mk_node lf vh_empty []]) (data np) (length es))) /\
  (forall i, i <> p -> i < length es -> insert_edge es (Some p) lf v !! i = es !! i) /\
  (forall c, first_atom (insert_edge es (Some p) lf v) c =
             first_atom (es ++ [mk_node lf vh_empty []]) c).
Proof.
  intros Hp. pose proof (lookup_lt_Some _ _ _ Hp) as Hpl.
  set (esb := es ++ [mk_node lf vh_empty []]).
  assert (E1 : insert_infix (new_edge es 0) lf (length es) = esb).
  { unfold insert_infix, update_node, new_edge.
    rewrite list_lookup_middle by reflexivity. simpl. apply insert_last. }
  assert (Hbp : esb !! p = Some np) by (unfold esb; rewrite lookup_app_l; auto).
  assert (HbN : esb !! length es = Some (mk_node lf vh_empty [])) by (apply list_lookup_middle; reflexivity).
  assert (Hbl : length esb = S (length es)) by (unfold esb; rewrite length_app; simpl; lia).
  set (np' := mk_node (label np) (value np) (put_table esb (data np) (length es))).
  assert (E2 : put esb p (length es) = <[p := np']> esb) by (unfold put; rewrite Hbp; reflexivity).
  assert (H2N : (<[p := np']> esb) !! length es = Some (mk_node lf vh_empty []))
    by (rewrite list_lookup_insert_ne by lia; exact HbN).
  unfold insert_edge. cbv zeta. rewrite E1, E2.
  unfold node_set_value, update_node. rewrite H2N. simpl.
  set (leaf := mk_node lf (set_value v) []).
  assert (Hl : length (<[length es := leaf]> (<[p := np']> esb)) = S (length es))
    by (rewrite !length_insert; exact Hbl).
  split; [exact Hl|]. split.
  { apply list_lookup_insert_eq. rewrite length_insert. lia. }
  split.
  { rewrite list_lookup_insert_ne by lia. apply list_lookup_insert_eq. lia. }
  split.
  { intros i Ne Hi. rewrite list_lookup_insert_ne by lia. rewrite list_lookup_insert_ne by congruence.
    unfold esb. apply lookup_app_l. exact Hi. }
  intros c. unfold first_atom. destruct (decide (c = length es)) as [->|NeN].
  - rewrite list_lookup_insert_eq by (rewrite length_insert; lia). rewrite HbN. reflexivity.
  - rewrite list_lookup_insert_ne by congruence. destruct (decide (c = p)) as [->|Ne].
    + rewrite list_lookup_insert_eq by lia. rewrite Hbp. reflexivity.
    + rewrite list_lookup_insert_ne by congruence. reflexivity.
Qed.

Lemma first_atom_app (es : list (TrieNode Slot)) (nd : TrieNode Slot) (c : nat) :
  c < length es -> first_atom (es ++ [nd]) c = first_atom es c.
Proof. intros H. unfold first_atom. rewrite lookup_app_l by exact H. reflexivity. Qed.

Lemma child_char (es : list (TrieNode Slot)) (x : nat) (nx : TrieNode Slot) (c : nat) :
  wf es -> es !! x = Some nx -> in_table (data nx) c -> is_char (first_atom es c) = true.
Proof.
  intros Hw Hx Hc. destruct (child_node es Hw x nx c Hx Hc) as (nc & a & r & Hnc & Hl & -> & _).
  pose proof (wf_chars es Hw c nc Hnc) as F. rewrite Hl in F. inversion F. assumption.
Qed.

(** A new leaf for the atoms [lf] under the node [p] where the key [k0] ends. *)
Lemma insert_edge_step (es : list (TrieNode Slot)) (p : nat) (np : TrieNode Slot) (lf : list Z)
    (v : Val) (k0 : list Z) :
  wf es -> es !! p = Some np -> Reach es 0 0 k0 p (length (label np)) ->
  lf <> [] -> Forall (fun a => is_char a = true) lf ->
  (forall c nc, in_table (data np) c -> es !! c = Some nc -> label nc !! 0 <> lf !! 0) ->
  wf (insert_edge es (Some p) lf v) /\
  At (insert_edge es (Some p) lf v) (k0 ++ lf) (set_value v) /\
  forall q s, q <> k0 ++ lf -> At (insert_edge es (Some p) lf v) q s <-> At es q s.
Proof.
  intros Hw Hp R0 Hlf Hch Hdist.
  destruct (insert_edge_spec es p np lf v Hp) as (Hlen & HN & Hp' & Hold & Hfa).
  set (es' := insert_edge es (Some p) lf v) in *.
  set (esb := es ++ [mk_node lf vh_empty []]) in *.
  destruct lf as [|b r] eqn:Elf; [contradiction|]. inversion Hch as [|? ? Hb Hr]; subst.
  assert (HbN : first_atom esb (length es) = b)
    by (unfold first_atom, esb; rewrite list_lookup_middle by reflexivity; reflexivity).
  assert (Hchild : forall c, in_table (data np) c -> first_atom esb c = first_atom es c).
  { intros c Hc. apply first_atom_app. apply (wf_child es Hw p np c Hp Hc). }
  destruct (put_table_spec esb (data np) (length es)) as (Tok & Tin & _).
  - apply (table_transfer es); [exact (wf_table es Hw p np Hp) | exact Hchild].
  - intros c Hc. rewrite Hchild by exact Hc. apply (child_char es p np); auto.
  - rewrite HbN. exact Hb.
  - intros c Hc. rewrite Hchild, HbN by exact Hc.
    destruct (child_node es Hw p np c Hp Hc) as (nc & a & r' & Hnc & Hl & -> & _).
    intros ->. apply (Hdist c nc Hc Hnc). rewrite Hl. reflexivity.
  - assert (Dok : table_ok es' (put_table esb (data np) (length es))).
    { apply (table_transfer esb); [exact Tok|]. intros c _. apply Hfa. }
    assert (HD : forall c, in_table (put_table esb (data np) (length es)) c <->
                           in_table (data np) c \/ c = length es) by exact Tin.
    split; [|split].
    + apply (leaf_wf es es' p np (b :: r) (set_value v) _ Hw Hp Hlen HN Hp' Hold HD);
        [discriminate | exact Hch | exact Dok].
    + apply (leaf_At es es' p np (b :: r) (set_value v) _ Hw Hp Hlen HN Hp' Hold HD); auto.
    + apply (leaf_At es es' p np (b :: r) (set_value v) _ Hw Hp Hlen HN Hp' Hold HD); auto.
Qed.

Lemma single_table_lookup (i k N h c : nat) :
  i < k -> <[i := Some N]> (repeat None k) !! h = Some (Some c) -> h = i /\ c = N.
Proof.
  intros Hi E. destruct (decide (h = i)) as [->|Ne].
  - rewrite list_lookup_insert_eq in E by (rewrite repeat_length; exact Hi). split; congruence.
  - rewrite list_lookup_insert_ne in E by congruence.
    apply repeat_lookup_some in E. discriminate.
Qed.

Lemma single_table_in (i k N c : nat) :
  i < k -> in_table (<[i := Some N]> (repeat None k)) c <-> c = N.
Proof.
  intros Hi. split.
  - intros [h E]. apply (single_table_lookup i k N h c Hi E).
  - intros ->. exists i. apply list_lookup_insert_eq. rewrite repeat_length. exact Hi.
Qed.

(** Splitting the node [n] where the key [k0] ends inside its label. *)
Lemma split_step (es : list (TrieNode Slot)) (n : nat) (nn : TrieNode Slot) (hint m : nat)
    (k0 : list Z) :
  wf es -> es !! n = Some nn -> m < length (label nn) -> (n <> 0 -> 1 <= m) ->
  (hint = 1 \/ hint = 2) -> Reach es 0 0 k0 n m ->
  wf (split (new_edge es hint) n (length es) m) /\
  Reach (split (new_edge es hint) n (length es) m) 0 0 k0 n m /\
  split (new_edge es hint) n (length es) m !! n =
    Some (mk_node (take m (label nn)) vh_empty
            (<[slot_of (hd 0%Z (drop m (label nn))) hint := Some (length es)]>
               (repeat None hint))) /\
  forall q s, At (split (new_edge es hint) n (length es) m) q s <->
              At es q s \/ (q = k0 /\ s = vh_empty).
Proof.
  intros Hw Hn Hm Hm1 Hh R0.
  destruct (split_fresh es n nn hint m Hn Hh) as [Hn1 HN1].
  destruct (split_rest es n nn hint m Hn) as [Hlen1 Hold1].
  set (es1 := split (new_edge es hint) n (length es) m) in *.
  set (i := slot_of (hd 0%Z (drop m (label nn))) hint) in *.
  assert (Hi : i < hint) by (apply slot_of_lt_small; exact Hh).
  pose proof (single_table_in i hint (length es)) as HT.
  assert (HTok : table_ok es1 (<[i := Some (length es)]> (repeat None hint))).
  { split.
    - rewrite length_insert, repeat_length. right. destruct Hh as [-> | ->]; [exists 0 | exists 1]; reflexivity.
    - intros h c E. destruct (single_table_lookup i hint (length es) h c Hi E) as [-> ->].
      rewrite length_insert, repeat_length. unfold first_atom. rewrite HN1. reflexivity. }
  destruct (split_At es es1 n nn m vh_empty _ Hw Hn Hm Hm1 Hlen1 Hn1 HN1 Hold1 (fun c => HT c Hi) k0 R0)
    as [R1 HAt].
  split; [exact (split_wf es es1 n nn m vh_empty _ Hw Hn Hm Hm1 Hlen1 Hn1 HN1 Hold1 (fun c => HT c Hi) HTok)|].
  split; [exact R1|]. split; [exact Hn1|]. exact HAt.
Qed.

End StoreUpdates.

(** ** One [insert], on the slots of the keys *)

Section InsertStep.
Context {Slot Val : Type} `{VH : ValueHolder Slot Val}.

Lemma singleton_Reach (k : list Z) (s : Slot) (q : list Z) (y j : nat) :
  Reach [mk_node k s []] 0 0 q y j -> q = take j k /\ y = 0.
Proof.
  intros R. destruct (Reach_inv _ _ _ _ _ _ (mk_node k s []) R eq_refl)
    as [(-> & Hj & ->) | (_ & c & nc & a & r & l' & Hc & _)].
  - rewrite Nat.sub_0_r, drop_0. auto.
  - exfalso. exact (in_table_nil c Hc).
Qed.

Lemma singleton_wf (k : list Z) (s : Slot) :
  Forall (fun a => is_char a = true) k -> wf [mk_node k s []].
Proof.
  intros Hch. constructor.
  - simpl. lia.
  - intros x nx c Hx Hc. destruct x as [|[|x]]; simpl in Hx; try discriminate.
    injection Hx as <-. exfalso. exact (in_table_nil c Hc).
  - intros x nx Hx0 Hx. destruct x as [|[|x]]; simpl in Hx; try discriminate. exfalso. exact (Hx0 eq_refl).
  - intros x nx Hx. destruct x as [|[|x]]; simpl in Hx; try discriminate.
    injection Hx as <-. apply table_ok_nil.
  - intros x nx Hx. destruct x as [|[|x]]; simpl in Hx; try discriminate.
    injection Hx as <-. exact Hch.
  - intros q q' y ny Hy R R'. apply singleton_Reach in R as [-> _].
    apply singleton_Reach in R' as [-> _]. reflexivity.
Qed.

Lemma singleton_At (k : list Z) (s : Slot) (q : list Z) (s' : Slot) :
  At [mk_node k s []] q s' <-> q = k /\ s' = s.
Proof.
  split.
  - intros (y & ny & Hy & R & <-). apply singleton_Reach in R as [-> ->].
    simpl in Hy. injection Hy as <-. simpl. rewrite take_ge by lia. auto.
  - intros [-> ->]. exists 0, (mk_node k s []). split; [reflexivity|]. split; [|reflexivity].
    pose proof (reach_here [mk_node k s []] 0 (mk_node k s []) 0 (length k) eq_refl (conj (Nat.le_0_l _) (le_n _))) as H.
    simpl in H. rewrite Nat.sub_0_r, drop_0, take_ge in H by lia. exact H.
Qed.

Lemma At_nil (q : list Z) (s : Slot) : ~ At [] q s.
Proof. intros (y & ny & Hy & _). rewrite lookup_nil in Hy. discriminate. Qed.

Lemma insert_edge_nil (k : list Z) (v : Val) :
  insert_edge [] None k v = [mk_node k (set_value v) []].
Proof. reflexivity. Qed.

Lemma node_set_value_eq (es : list (TrieNode Slot)) (y : nat) (ny : TrieNode Slot) (v : Val) :
  es !! y = Some ny ->
  node_set_value es y v = <[y := mk_node (label ny) (set_value v) (data ny)]> es.
Proof. intros Hy. unfold node_set_value, update_node. rewrite Hy. reflexivity. Qed.

(** [insert(k, v, replace)] gives [k] the slot [upd_slot] of its old slot,
    or [set_value v] if it had none; every other key keeps its slot, or
    gets an empty one where it had none (the node a split leaves). *)
Lemma insert_At_step (st : trie_map Slot) (k : list Z) (v : Val) (r : Val -> Val -> Val) :
  wf_trie st -> Forall (fun a => is_char a = true) k ->
  wf (edges (insert st k v r)) /\
  (forall s0, At (edges st) k s0 -> At (edges (insert st k v r)) k (upd_slot r v s0)) /\
  ((forall s0, ~ At (edges st) k s0) -> At (edges (insert st k v r)) k (set_value v)) /\
  (forall q s, q <> k -> At (edges st) q s -> At (edges (insert st k v r)) q s) /\
  (forall q s, q <> k -> At (edges (insert st k v r)) q s ->
     At (edges st) q s \/ (s = vh_empty /\ forall s', ~ At (edges st) q s')).
Proof.
  intros Hwt Hch. unfold insert.
  destruct (edges st) as [|e0 es0] eqn:Ees.
  - simpl. rewrite insert_edge_nil. split; [apply singleton_wf; exact Hch|].
    split; [intros s0 H; exfalso; exact (At_nil k s0 H)|].
    split; [intros _; apply singleton_At; auto|].
    split; [intros q s _ H; exfalso; exact (At_nil q s H)|].
    intros q s Hq H. apply singleton_At in H as [-> _]. contradiction.
  - destruct Hwt as [Hwt|Hw]; [congruence|]. rewrite Ees in Hw.
    set (es := e0 :: es0) in *.
    unfold general_search. rewrite gs_loop_outcome by reflexivity.
    destruct (root_search es k Hw) as (o & Ho & Hok). rewrite Ho. cbn beta iota.
    destruct o as [y|y i|y e|y e i]; simpl; rewrite Ees; fold es.
    + destruct (At_exact es k y Hw Hok) as (ny & Hy & Hiff).
      destruct Hok as (ny' & Hy' & R). rewrite Hy in Hy'. injection Hy' as <-. rewrite drop_0 in R.
      assert (Hk : At es k (value ny)) by (apply Hiff; reflexivity).
      assert (Hupd : exists s', insert_value es y v r = <[y := mk_node (label ny) s' (data ny)]> es /\
                                s' = upd_slot r v (value ny)).
      { unfold insert_value, upd_slot. rewrite Hy.
        destruct (has_value (value ny)) eqn:Eh.
        - destruct (vh_has_get _ Eh) as [old Eg]. rewrite Eg. eauto.
        - eauto. }
      destruct Hupd as (s' & -> & Es').
      destruct (set_slot_At es y ny s' k Hw Hy R) as (Hw' & Hk' & Hq).
      split; [exact Hw'|]. split.
      { intros s0 H0. rewrite (At_det es k s0 (value ny) Hw H0 Hk). subst s'. exact Hk'. }
      split; [intros Hn; exfalso; exact (Hn _ Hk)|].
      split; [intros q s Hne H; apply Hq; auto|].
      intros q s Hne H. left. apply (Hq q s Hne). exact H.
    + destruct Hok as (Hi & ny & Hy & R & Hno). rewrite drop_0, Nat.sub_0_r in R.
      assert (Hnot : forall s, ~ At es k s).
      { apply (At_not_exact es k (ONoNext y i) Hw); [|congruence].
        split; [exact Hi|]. exists ny. rewrite drop_0, Nat.sub_0_r. auto. }
      destruct (insert_edge_step es y ny (drop i k) v (take i k) Hw Hy R) as (Hw' & Hk' & Hq).
      * intros E. apply (f_equal length) in E. rewrite length_drop in E. simpl in E. lia.
      * apply Forall_drop. exact Hch.
      * intros c nc Hc Hnc. rewrite lookup_drop, Nat.add_0_r. apply (Hno c nc Hc Hnc).
      * rewrite take_drop in Hk', Hq. split; [exact Hw'|]. split.
        { intros s0 H0. exfalso. exact (Hnot s0 H0). }
        split; [intros _; exact Hk'|].
        split; [intros q s Hne H; apply Hq; auto|].
        intros q s Hne H. left. apply (Hq q s Hne). exact H.
    + destruct Hok as (ny & Hy & He & R). rewrite drop_0 in R.
      assert (Hnot : forall s, ~ At es k s).
      { apply (At_not_exact es k (OEnd y e) Hw); [|congruence].
        exists ny. rewrite drop_0. auto. }
      assert (He1 : y <> 0 -> 1 <= e).
      { intros Hy0. destruct (Reach_end es _ _ _ _ _ R) as (ny' & _ & _ & [[E _]|E]); lia. }
      destruct (split_step es y ny 1 e k Hw Hy He He1 (or_introl eq_refl) R)
        as (Hw1 & R1 & Hy1 & HAt1).
      set (es1 := split (new_edge es 1) y (length es) e) in *.
      rewrite (node_set_value_eq es1 y _ v Hy1). cbn [label data].
      assert (R1' : Reach es1 0 0 k y (length (label (mk_node (take e (label ny)) vh_empty
                      (<[slot_of (hd 0%Z (drop e (label ny))) 1 := Some (length es)]> (repeat None 1))))))
        by (cbn [label]; rewrite length_take; replace (e `min` length (label ny)) with e by lia; exact R1).
      destruct (set_slot_At es1 y _ (set_value v) k Hw1 Hy1 R1') as (Hw' & Hk' & Hq).
      cbn [label data] in Hw', Hk', Hq.
      split; [exact Hw'|]. split.
      { intros s0 H0. exfalso. exact (Hnot s0 H0). }
      split; [intros _; exact Hk'|].
      split.
      { intros q s Hne H. apply Hq; [exact Hne|]. apply HAt1. auto. }
      intros q s Hne H. apply Hq in H; [|exact Hne]. apply HAt1 in H as [H|[E _]]; [auto|contradiction].
    + destruct Hok as (Hi & ny & Hy & He & R & Hne). rewrite drop_0, Nat.sub_0_r in R.
      assert (Hnot : forall s, ~ At es k s).
      { apply (At_not_exact es k (OSplit y e i) Hw); [|congruence].
        split; [exact Hi|]. exists ny. rewrite drop_0, Nat.sub_0_r. auto. }
      assert (He1 : y <> 0 -> 1 <= e).
      { intros Hy0. destruct (Reach_end es _ _ _ _ _ R) as (ny' & _ & _ & [[E _]|E]); lia. }
      destruct (split_step es y ny 2 e (take i k) Hw Hy He He1 (or_intror eq_refl) R)
        as (Hw1 & R1 & Hy1 & HAt1).
      destruct (split_fresh es y ny 2 e Hy (or_intror eq_refl)) as [_ HN1].
      set (es1 := split (new_edge es 2) y (length es) e) in *.
      set (T := <[slot_of (hd 0%Z (drop e (label ny))) 2 := Some (length es)]> (repeat None 2)) in *.
      assert (R1' : Reach es1 0 0 (take i k) y (length (label (mk_node (take e (label ny)) vh_empty T))))
        by (cbn [label]; rewrite length_take; replace (e `min` length (label ny)) with e by lia; exact R1).
      destruct (insert_edge_step es1 y _ (drop i k) v (take i k) Hw1 Hy1 R1') as (Hw' & Hk' & Hq).
      * intros E. apply (f_equal length) in E. rewrite length_drop in E. simpl in E. lia.
      * apply Forall_drop. exact Hch.
      * intros c nc Hc Hnc. cbn [data] in Hc. unfold T in Hc.
        apply single_table_in in Hc; [|apply slot_of_lt_small; auto]. subst c.
        rewrite HN1 in Hnc. injection Hnc as <-. cbn [label].
        rewrite !lookup_drop, !Nat.add_0_r. exact Hne.
      * rewrite take_drop in Hk', Hq. split; [exact Hw'|]. split.
        { intros s0 H0. exfalso. exact (Hnot s0 H0). }
        split; [intros _; exact Hk'|].
        split.
        { intros q s Hq' H. apply Hq; [exact Hq'|]. apply HAt1. auto. }
        intros q s Hq' H. apply Hq in H; [|exact Hq']. apply HAt1 in H as [H|[-> ->]]; [auto|].
        right. split; [reflexivity|]. intros s' Hs'.
        destruct Hs' as (z & nz & Hz & Rz & _).
        destruct (Reach_det es (wf_table es Hw) _ _ _ _ _ R _ _ Rz) as [<- E].
        rewrite Hy in Hz. injection Hz as <-. lia.
Qed.

Lemma At_dec (st : trie_map Slot) (q : list Z) :
  wf_trie st -> (exists s, At (edges st) q s) \/ (forall s, ~ At (edges st) q s).
Proof.
  intros [E|Hw].
  - right. rewrite E. apply At_nil.
  - destruct (root_search (edges st) q Hw) as (o & _ & Hok). destruct o as [y|y i|y e|y e i].
    + destruct (At_exact _ q y Hw Hok) as (ny & _ & Hiff). left. exists (value ny). apply Hiff. reflexivity.
    + right. apply (At_not_exact _ q _ Hw Hok). congruence.
    + right. apply (At_not_exact _ q _ Hw Hok). congruence.
    + right. apply (At_not_exact _ q _ Hw Hok). congruence.
Qed.

Lemma get_At_trie (st : trie_map Slot) (q : list Z) :
  wf_trie st ->
  (forall s, At (edges st) q s -> get st q = slot_get s) /\
  ((forall s, ~ At (edges st) q s) -> get st q = None).
Proof.
  intros [E|Hw]; [|apply get_At; exact Hw].
  split; [intros s H; rewrite E in H; exfalso; exact (At_nil q s H)|].
  intros _. unfold get. rewrite E. reflexivity.
Qed.

Lemma contains_At_trie (st : trie_map Slot) (q : list Z) :
  wf_trie st ->
  (forall s, At (edges st) q s -> contains st q = has_value s) /\
  ((forall s, ~ At (edges st) q s) -> contains st q = false).
Proof.
  intros [E|Hw]; [|apply contains_At; exact Hw].
  split; [intros s H; rewrite E in H; exfalso; exact (At_nil q s H)|].
  intros _. unfold contains. rewrite E. reflexivity.
Qed.

Lemma upd_slot_eq (r : Val -> Val -> Val) (v : Val) (s0 : Slot) :
  upd_slot r v s0 = match slot_get s0 with Some old => set_value (r old v) | None => set_value v end.
Proof.
  unfold upd_slot, slot_get. destruct (has_value s0) eqn:Eh; [|reflexivity].
  destruct (vh_has_get _ Eh) as [old ->]. reflexivity.
Qed.

Lemma slot_get_empty : slot_get vh_empty = None.
Proof. unfold slot_get. rewrite vh_empty_absent. reflexivity. Qed.

(** [insert(k, v, replace)] as seen by [get] and [contains]: [k] gets
    [set_value(replace(old, v))] or [set_value(v)], other keys are unchanged. *)
Lemma insert_get_contains (st : trie_map Slot) (k : list Z) (v : Val) (r : Val -> Val -> Val) :
  wf_trie st -> Forall (fun a => is_char a = true) k ->
  wf_trie (insert st k v r) /\
  get (insert st k v r) k =
    slot_get (match get st k with Some old => set_value (r old v) | None => set_value v end) /\
  contains (insert st k v r) k =
    has_value (match get st k with Some old => set_value (r old v) | None => set_value v end) /\
  forall q, q <> k -> get (insert st k v r) q = get st q /\ contains (insert st k v r) q = contains st q.
Proof.
  intros Hwt Hch.
  destruct (insert_At_step st k v r Hwt Hch) as (Hw' & Hk1 & Hk2 & Hq1 & Hq2).
  assert (Hwt' : wf_trie (insert st k v r)) by (right; exact Hw').
  split; [exact Hwt'|].
  destruct (At_dec st k Hwt) as [[s0 H0]|Hn].
  - rewrite (proj1 (get_At_trie st k Hwt) s0 H0), <- upd_slot_eq.
    pose proof (Hk1 s0 H0) as H1.
    rewrite (proj1 (get_At_trie _ k Hwt') _ H1), (proj1 (contains_At_trie _ k Hwt') _ H1).
    split; [reflexivity|]. split; [reflexivity|].
    intros q Hq. destruct (At_dec st q Hwt) as [[s H]|Hnq].
    + pose proof (Hq1 q s Hq H) as H'.
      rewrite (proj1 (get_At_trie _ q Hwt') _ H'), (proj1 (contains_At_trie _ q Hwt') _ H').
      rewrite (proj1 (get_At_trie _ q Hwt) _ H), (proj1 (contains_At_trie _ q Hwt) _ H). auto.
    + rewrite (proj2 (get_At_trie _ q Hwt) Hnq), (proj2 (contains_At_trie _ q Hwt) Hnq).
      destruct (At_dec _ q Hwt') as [[s H']|Hnq'].
      * destruct (Hq2 q s Hq H') as [H|[-> _]]; [exfalso; exact (Hnq s H)|].
        rewrite (proj1 (get_At_trie _ q Hwt') _ H'), (proj1 (contains_At_trie _ q Hwt') _ H').
        rewrite slot_get_empty, vh_empty_absent. auto.
      * rewrite (proj2 (get_At_trie _ q Hwt') Hnq'), (proj2 (contains_At_trie _ q Hwt') Hnq'). auto.
  - rewrite (proj2 (get_At_trie st k Hwt) Hn).
    pose proof (Hk2 Hn) as H1.
    rewrite (proj1 (get_At_trie _ k Hwt') _ H1), (proj1 (contains_At_trie _ k Hwt') _ H1).
    split; [reflexivity|]. split; [reflexivity|].
    intros q Hq. destruct (At_dec st q Hwt) as [[s H]|Hnq].
    + pose proof (Hq1 q s Hq H) as H'.
      rewrite (proj1 (get_At_trie _ q Hwt') _ H'), (proj1 (contains_At_trie _ q Hwt') _ H').
      rewrite (proj1 (get_At_trie _ q Hwt) _ H), (proj1 (contains_At_trie _ q Hwt) _ H). auto.
    + rewrite (proj2 (get_At_trie _ q Hwt) Hnq), (proj2 (contains_At_trie _ q Hwt) Hnq).
      destruct (At_dec _ q Hwt') as [[s H']|Hnq'].
      * destruct (Hq2 q s Hq H') as [H|[-> _]]; [exfalso; exact (Hnq s H)|].
        rewrite (proj1 (get_At_trie _ q Hwt') _ H'), (proj1 (contains_At_trie _ q Hwt') _ H').
        rewrite slot_get_empty, vh_empty_absent. auto.
      * rewrite (proj2 (get_At_trie _ q Hwt') Hnq'), (proj2 (contains_At_trie _ q Hwt') Hnq'). auto.
Qed.

End InsertStep.

(** ** Table sizes *)

Lemma least_exact_odd (a b : Z) :
  is_char a = true -> is_char b = true -> (a mod 2 <> b mod 2)%Z -> least_exact a b = 2%Z.
Proof.
  intros Ha Hb Hm. assert (Hab : a <> b) by (intros ->; contradiction).
  destruct (least_char_spec a b Ha Hb Hab) as (j & Hj & E1 & _ & E3 & E4).
  destruct (Nat.eq_dec j 1) as [->|Ne].
  - rewrite <- E4, E1. reflexivity.
  - exfalso. apply Hm. apply (mod_pow2_down a b 1 (j - 1)); [lia|exact E3].
Qed.

Lemma slot_of_one (x : Z) : slot_of x 1 = 0.
Proof. unfold slot_of, atom_hash. replace (Z.of_nat 1 - 1)%Z with 0%Z by reflexivity. rewrite Z.land_0_r. reflexivity. Qed.

Section Sizes.
Context {Slot : Type}.
Implicit Types (es : list (TrieNode Slot)).

Lemma node_sizes_transfer es es' (d : list (option nat)) :
  node_sizes_ok es d -> (forall c, in_table d c -> first_atom es' c = first_atom es c) ->
  node_sizes_ok es' d.
Proof.
  intros [S1 S2] Hf. split; [exact S1|].
  intros c1 c2 H1 H2 Ne. destruct (S2 c1 c2 H1 H2 Ne) as (b1 & b2 & Nb & Hb1 & Hb2 & E).
  exists b1, b2. rewrite !Hf by assumption. auto.
Qed.

Lemma node_sizes_nil es : node_sizes_ok es [].
Proof.
  split; [intros _; simpl; lia|]. intros c1 c2 H1. exfalso. exact (in_table_nil c1 H1).
Qed.

Lemma node_sizes_single es (i k N : nat) :
  i < k -> k <= 2 -> node_sizes_ok es (<[i := Some N]> (repeat None k)).
Proof.
  intros Hi Hk. split.
  - intros _. rewrite length_insert, repeat_length. exact Hk.
  - intros c1 c2 H1 H2 Ne. apply single_table_in in H1, H2; auto. congruence.
Qed.

Lemma in_table_lt (d : list (option nat)) (c : nat) : in_table d c -> 0 < length d.
Proof. intros [h E]. apply lookup_lt_Some in E. lia. Qed.

Lemma table_len_small es (d : list (option nat)) :
  table_ok es d -> length d <> 0 -> length d <= 2 -> length d = 1 \/ length d = 2.
Proof. intros [[E|[j E]] _] H0 H2; [lia|]. lia. Qed.

Lemma node_sizes_put es (d : list (option nat)) (N : nat) :
  table_ok es d ->
  (forall c, in_table d c -> is_char (first_atom es c) = true) ->
  is_char (first_atom es N) = true ->
  (forall c, in_table d c -> first_atom es c <> first_atom es N) ->
  node_sizes_ok es d -> node_sizes_ok es (put_table es d N).
Proof.
  intros Tok Hch HchN Hdist [S1 S2].
  destruct (put_table_spec es d N Tok Hch HchN Hdist) as (Tok' & Tin & Tcase).
  assert (HNin : in_table (put_table es d N) N) by (apply Tin; auto).
  assert (HneN : forall c, in_table d c -> c <> N) by (intros c Hc ->; exact (Hdist N Hc eq_refl)).
  split.
  - intros Hall. assert (Hno : forall c, ~ in_table d c).
    { intros c Hc. apply (HneN c Hc). apply Hall; [apply Tin; auto | exact HNin]. }
    destruct Tcase as [[_ E] | [(_ & E & _) | (b & Hb & _)]].
    + lia.
    + rewrite E. apply S1. intros c1 c2 H1. exfalso. exact (Hno c1 H1).
    + exfalso. exact (Hno b Hb).
  - intros c1 c2 H1 H2 Ne. apply Tin in H1, H2.
    destruct Tcase as [[E0 _] | [(E0 & E & Hsl) | (b & Hb & E & _)]].
    + exfalso. destruct H1 as [H1| ->]; [apply in_table_lt in H1; lia|].
      destruct H2 as [H2| ->]; [apply in_table_lt in H2; lia|]. congruence.
    + assert (Hcase : forall c, in_table d c ->
                exists b1 b2, b1 <> b2 /\ in_table (put_table es d N) b1 /\
                  in_table (put_table es d N) b2 /\
                  Z.of_nat (length (put_table es d N)) =
                    least_exact (first_atom es b1) (first_atom es b2)).
      { intros c Hc.
        destruct (decide (Forall (fun e => e = None \/ e = Some c) d)) as [Hf|Hf].
        - assert (Hone : forall c', in_table d c' -> c' = c).
          { intros c' [h Eh]. rewrite Forall_lookup in Hf. destruct (Hf h _ Eh); congruence. }
          assert (Hle : length d <= 2)
            by (apply S1; intros a1 a2 Ha1 Ha2; rewrite (Hone a1 Ha1), (Hone a2 Ha2); reflexivity).
          destruct (table_len_small es d Tok E0 Hle) as [E1|E2].
          + exfalso. apply (Hsl c Hc). rewrite E1, !slot_of_one. reflexivity.
          + exists N, c. split; [intros E3; exact (HneN c Hc (eq_sym E3))|].
            split; [exact HNin|]. split; [apply Tin; auto|].
            rewrite E, E2. symmetry. apply least_exact_odd; [exact HchN | apply Hch; exact Hc|].
            intros Em. apply (Hsl c Hc). rewrite E2.
            change 2 with (2 ^ 1). apply slot_of_pow2_eq.
            replace (2 ^ Z.of_nat 1)%Z with 2%Z by reflexivity. symmetry. exact Em.
        - apply not_Forall_Exists in Hf; [|apply _]. apply Exists_exists in Hf as (e & He & Hne).
          destruct e as [c'|]; [|exfalso; apply Hne; auto].
          assert (Hc' : in_table d c') by (apply in_table_elem; exact He).
          assert (Nc : c <> c') by (intros <-; apply Hne; auto).
          destruct (S2 c c' Hc Hc' Nc) as (b1 & b2 & Nb & Hb1 & Hb2 & Eb).
          exists b1, b2. rewrite E. repeat split; auto; apply Tin; auto. }
      destruct H1 as [H1| ->]; [exact (Hcase c1 H1)|].
      destruct H2 as [H2| ->]; [exact (Hcase c2 H2)|]. contradiction.
    + exists N, b. split; [exact (not_eq_sym (HneN b Hb))|].
      split; [exact HNin|]. split; [apply Tin; auto|]. exact E.
Qed.

End Sizes.

Section SizesUpdates.
Context {Slot Val : Type} `{VH : ValueHolder Slot Val}.

Lemma set_slot_sizes (es : list (TrieNode Slot)) (y : nat) (ny : TrieNode Slot) (s : Slot) :
  es !! y = Some ny -> sizes_ok es -> sizes_ok (<[y := mk_node (label ny) s (data ny)]> es).
Proof.
  intros Hy Hs x nx Hx. pose proof (set_slot_shape es y ny s Hy) as Sh.
  destruct (same_shape_lookup _ _ _ _ (same_shape_sym _ _ Sh) Hx) as (nx0 & Hx0 & _ & Ed).
  rewrite <- Ed. apply (node_sizes_transfer es); [exact (Hs x nx0 Hx0)|].
  intros c _. symmetry. apply same_shape_first. exact Sh.
Qed.

Lemma insert_edge_sizes (es : list (TrieNode Slot)) (p : nat) (np : TrieNode Slot) (lf : list Z)
    (v : Val) :
  wf es -> es !! p = Some np -> lf <> [] -> Forall (fun a => is_char a = true) lf ->
  (forall c nc, in_table (data np) c -> es !! c = Some nc -> label nc !! 0 <> lf !! 0) ->
  sizes_ok es -> sizes_ok (insert_edge es (Some p) lf v).
Proof.
  intros Hw Hp Hlf Hch Hdist Hs.
  destruct (insert_edge_spec es p np lf v Hp) as (Hlen & HN & Hp' & Hold & Hfa).
  set (es' := insert_edge es (Some p) lf v) in *.
  set (esb := es ++ [mk_node lf vh_empty []]) in *.
  destruct lf as [|b r] eqn:Elf; [contradiction|]. inversion Hch as [|? ? Hb Hr]; subst.
  assert (HbN : first_atom esb (length es) = b)
    by (unfold first_atom, esb; rewrite list_lookup_middle by reflexivity; reflexivity).
  assert (Hfirst : forall c, c < length es -> first_atom es' c = first_atom es c).
  { intros c Hc. rewrite Hfa. apply first_atom_app. exact Hc. }
  intros x nx Hx. pose proof (lookup_lt_Some _ _ _ Hx) as Hxl. rewrite Hlen in Hxl.
  destruct (decide (x = length es)) as [->|NeN]; [|destruct (decide (x = p)) as [->|Ne]].
  - rewrite HN in Hx. injection Hx as <-. apply node_sizes_nil.
  - rewrite Hp' in Hx. injection Hx as <-. cbn [data].
    assert (Hchild : forall c, in_table (data np) c -> first_atom esb c = first_atom es c).
    { intros c Hc. apply first_atom_app. apply (wf_child es Hw p np c Hp Hc). }
    apply (node_sizes_transfer esb); [|intros c _; apply Hfa].
    apply node_sizes_put.
    + apply (table_transfer es); [exact (wf_table es Hw p np Hp) | exact Hchild].
    + intros c Hc. rewrite Hchild by exact Hc. apply (child_char es p np); auto.
    + rewrite HbN. exact Hb.
    + intros c Hc. rewrite Hchild, HbN by exact Hc.
      destruct (child_node es Hw p np c Hp Hc) as (nc & a & r' & Hnc & Hl & -> & _).
      intros ->. apply (Hdist c nc Hc Hnc). rewrite Hl. reflexivity.
    + apply (node_sizes_transfer es); [exact (Hs p np Hp) | exact Hchild].
  - rewrite Hold in Hx by lia. apply (node_sizes_transfer es); [exact (Hs x nx Hx)|].
    intros c Hc. apply Hfirst. apply (wf_child es Hw x nx c Hx Hc).
Qed.

Lemma split_sizes (es : list (TrieNode Slot)) (n : nat) (nn : TrieNode Slot) (hint m : nat) :
  wf es -> es !! n = Some nn -> m < length (label nn) -> (n <> 0 -> 1 <= m) ->
  (hint = 1 \/ hint = 2) -> sizes_ok es -> sizes_ok (split (new_edge es hint) n (length es) m).
Proof.
  intros Hw Hn Hm Hm1 Hh Hs.
  destruct (split_fresh es n nn hint m Hn Hh) as [Hn1 HN1].
  destruct (split_rest es n nn hint m Hn) as [Hlen1 Hold1].
  set (es1 := split (new_edge es hint) n (length es) m) in *.
  pose proof (split_n_lt es n nn Hn) as Hnl.
  assert (Hfirst : forall x nx c, es !! x = Some nx -> in_table (data nx) c ->
                     first_atom es1 c = first_atom es c).
  { intros x nx c Hx Hc. destruct (wf_child es Hw x nx c Hx Hc) as [Hcl Hc0].
    apply (split_first es es1 n nn m vh_empty _ Hn Hm Hm1 Hlen1 Hn1 HN1 Hold1 c Hcl).
    intros ->. auto. }
  intros x nx Hx. pose proof (lookup_lt_Some _ _ _ Hx) as Hxl. rewrite Hlen1 in Hxl.
  destruct (decide (x = length es)) as [->|NeN]; [|destruct (decide (x = n)) as [->|Ne]].
  - rewrite HN1 in Hx. injection Hx as <-. cbn [data].
    apply (node_sizes_transfer es); [exact (Hs n nn Hn)|]. intros c Hc. apply (Hfirst n nn c Hn Hc).
  - rewrite Hn1 in Hx. injection Hx as <-. cbn [data].
    apply node_sizes_single; [apply slot_of_lt_small; exact Hh | lia].
  - rewrite Hold1 in Hx by lia. apply (node_sizes_transfer es); [exact (Hs x nx Hx)|].
    intros c Hc. apply (Hfirst x nx c Hx Hc).
Qed.


Lemma insert_sizes_step (st : trie_map Slot) (k : list Z) (v : Val) (r : Val -> Val -> Val) :
  wf_trie st -> Forall (fun a => is_char a = true) k -> sizes_ok (edges st) ->
  sizes_ok (edges (insert st k v r)).
Proof.
  intros Hwt Hch Hs. unfold insert.
  destruct (edges st) as [|e0 es0] eqn:Ees.
  - simpl. rewrite insert_edge_nil. intros x nx Hx.
    destruct x as [|x]; [injection Hx as <-; apply node_sizes_nil | destruct x; discriminate].
  - destruct Hwt as [Hwt|Hw]; [congruence|]. rewrite Ees in Hw.
    set (es := e0 :: es0) in *.
    unfold general_search. rewrite gs_loop_outcome by reflexivity.
    destruct (root_search es k Hw) as (o & Ho & Hok). rewrite Ho. cbn beta iota.
    destruct o as [y|y i|y e|y e i]; simpl; rewrite Ees; fold es.
    + destruct Hok as (ny & Hy & _).
      unfold insert_value. rewrite Hy.
      destruct (has_value (value ny)); [destruct (get_value (value ny))|];
        try (apply set_slot_sizes; assumption).
      exact Hs.
    + destruct Hok as (Hi & ny & Hy & R & Hno).
      apply (insert_edge_sizes es y ny); auto.
      * intros E. apply (f_equal length) in E. rewrite length_drop in E. simpl in E. lia.
      * apply Forall_drop. exact Hch.
      * intros c nc Hc Hnc. rewrite lookup_drop, Nat.add_0_r. apply (Hno c nc Hc Hnc).
    + destruct Hok as (ny & Hy & He & R). rewrite drop_0 in R.
      assert (He1 : y <> 0 -> 1 <= e).
      { intros Hy0. destruct (Reach_end es _ _ _ _ _ R) as (ny' & _ & _ & [[E _]|E]); lia. }
      destruct (split_step es y ny 1 e k Hw Hy He He1 (or_introl eq_refl) R)
        as (Hw1 & R1 & Hy1 & HAt1).
      pose proof (split_sizes es y ny 1 e Hw Hy He He1 (or_introl eq_refl) Hs) as Hs1.
      rewrite (node_set_value_eq _ y _ v Hy1).
      apply set_slot_sizes; assumption.
    + destruct Hok as (Hi & ny & Hy & He & R & Hne). rewrite drop_0, Nat.sub_0_r in R.
      assert (He1 : y <> 0 -> 1 <= e).
      { intros Hy0. destruct (Reach_end es _ _ _ _ _ R) as (ny' & _ & _ & [[E _]|E]); lia. }
      destruct (split_step es y ny 2 e (take i k) Hw Hy He He1 (or_intror eq_refl) R)
        as (Hw1 & R1 & Hy1 & HAt1).
      pose proof (split_sizes es y ny 2 e Hw Hy He He1 (or_intror eq_refl) Hs) as Hs1.
      destruct (split_fresh es y ny 2 e Hy (or_intror eq_refl)) as [_ HN1].
      apply (insert_edge_sizes _ y _ _ v Hw1 Hy1).
      * intros E. apply (f_equal length) in E. rewrite length_drop in E. simpl in E. lia.
      * apply Forall_drop. exact Hch.
      * intros c nc Hc Hnc. cbn [data] in Hc.
        apply single_table_in in Hc; [|apply slot_of_lt_small; auto]. subst c.
        rewrite HN1 in Hnc. injection Hnc as <-. cbn [label].
        rewrite !lookup_drop, !Nat.add_0_r. exact Hne.
      * exact Hs1.
Qed.

End SizesUpdates.

(** ** Sequences of operations *)

Section Runs.
Context {Slot Val : Type} `{VH : ValueHolder Slot Val}.

Lemma empty_trie_ok : wf_trie (@empty_trie Slot) /\ sizes_ok (edges (@empty_trie Slot)).
Proof.
  split; [left; reflexivity|]. intros x nx Hx. cbn in Hx. rewrite lookup_nil in Hx. discriminate.
Qed.

Lemma run_ops_inv (ops : list (list Z * Val * (Val -> Val -> Val))) (st : trie_map Slot) :
  wf_trie st -> sizes_ok (edges st) ->
  Forall (fun o => Forall (fun a => is_char a = true) o.1.1) ops ->
  wf_trie (run_ops st ops) /\ sizes_ok (edges (run_ops st ops)).
Proof.
  revert st. induction ops as [|[[k v] r] ops IH]; intros st Hw Hs Hch; [auto|].
  inversion Hch as [|? ? Hk Hr]; subst. cbn [run_ops fold_left]. apply IH; [| |exact Hr].
  - apply (insert_get_contains st k v r Hw Hk).
  - apply insert_sizes_step; assumption.
Qed.

Lemma reachable_ok (ops : list (list Z * Val * (Val -> Val -> Val))) :
  Forall (fun o => Forall (fun a => is_char a = true) o.1.1) ops ->
  wf_trie (run_ops empty_trie ops) /\ sizes_ok (edges (run_ops empty_trie ops)).
Proof. intros Hch. apply run_ops_inv; [apply empty_trie_ok | apply empty_trie_ok | exact Hch]. Qed.

Lemma contains_get (st : trie_map Slot) (q : list Z) :
  wf_trie st -> contains st q = match get st q with Some _ => true | None => false end.
Proof.
  intros Hw. destruct (At_dec st q Hw) as [[s H]|Hn].
  - rewrite (proj1 (get_At_trie st q Hw) s H), (proj1 (contains_At_trie st q Hw) s H).
    unfold slot_get. destruct (has_value s) eqn:Eh; [|reflexivity].
    destruct (vh_has_get s Eh) as [x ->]. reflexivity.
  - rewrite (proj2 (get_At_trie st q Hw) Hn), (proj2 (contains_At_trie st q Hw) Hn). reflexivity.
Qed.

End Runs.

Lemma inserts_get {V : Type} (l : list (list Z * V)) (st : trie_map (option V)) :
  wf_trie st -> Forall (fun kv => Forall (fun a => is_char a = true) kv.1) l ->
  NoDup (map fst l) -> (forall k, In k (map fst l) -> get st k = None) ->
  let st' := fold_left (fun st '(k, v) => insert_assign st k v) l st in
  wf_trie st' /\ (forall k v, In (k, v) l -> get st' k = Some v) /\
  (forall k', ~ In k' (map fst l) -> get st' k' = get st k').
Proof.
  revert st. induction l as [|[k v] l IH]; intros st Hw Hch Hnd Hnone; cbn zeta.
  - split; [exact Hw|]. split; [intros k v []|]. reflexivity.
  - cbn [fold_left]. inversion Hch as [|? ? Hk Hr]; subst. cbn [fst] in Hk.
    cbn [map] in Hnd. inversion Hnd as [|? ? Hnin0 Hnd']; subst.
    assert (Hnin : ~ In k (map fst l)) by (intros H; apply Hnin0; apply list_elem_of_In; exact H).
    destruct (insert_get_contains st k v (fun _ n => n) Hw Hk) as (Hw1 & Hg1 & _ & Hq1).
    rewrite (Hnone k (or_introl eq_refl)) in Hg1. cbn in Hg1.
    fold (insert_assign st k v) in Hw1, Hg1, Hq1.
    destruct (IH (insert_assign st k v) Hw1 Hr Hnd') as (Hw' & Hin & Hout).
    { intros k' Hk'. assert (Ne : k' <> k) by (intros E; subst k'; contradiction).
      rewrite (proj1 (Hq1 k' Ne)). apply Hnone. right. exact Hk'. }
    split; [exact Hw'|]. split.
    + intros k0 v0 [E|H]; [injection E as <- <-|apply Hin; exact H].
      rewrite Hout by exact Hnin. exact Hg1.
    + intros k' Hk'. rewrite Hout by (intros H; apply Hk'; right; exact H).
      apply Hq1. intros ->. apply Hk'. left. reflexivity.
Qed.

Lemma int_add_small (a b : Z) : (- 2 ^ 31 <= a + b <= 2 ^ 31 - 1)%Z -> int_add a b = (a + b)%Z.
Proof. intros H. unfold int_add. rewrite Z.mod_small by lia. lia. Qed.

Lemma int_add_range (a b : Z) : (- 2 ^ 31 <= int_add a b <= 2 ^ 31 - 1)%Z.
Proof. unfold int_add. pose proof (Z.mod_pos_bound (a + b + 2 ^ 31) (2 ^ 32) ltac:(lia)). lia. Qed.

(** A counter trie never reads a zero count: [get] sees [count != 0]. *)
Lemma counter_get_nonzero (st : trie_map Z) (q : list Z) (c : Z) :
  wf_trie st -> get st q = Some c -> c <> 0%Z.
Proof.
  intros Hw Hg. destruct (At_dec st q Hw) as [[s H]|Hn].
  - rewrite (proj1 (get_At_trie st q Hw) s H) in Hg. unfold slot_get in Hg.
    change (has_value s) with (negb (Z.eqb s 0)) in Hg.
    destruct (Z.eqb_spec s 0) as [E|E]; [discriminate|]. cbn in Hg. congruence.
  - rewrite (proj2 (get_At_trie st q Hw) Hn) in Hg. discriminate.
Qed.

(** [add(k)] on a counter trie: other keys keep their count; [k] reads one
    more when its count stays below [INT_MAX]; every count [add(k)] leaves
    at [k] is an [int]. *)
Lemma add_one_step (st : trie_map Z) (k q : list Z) :
  wf_trie st -> Forall (fun a => is_char a = true) k ->
  wf_trie (add st k 1%Z) /\
  (k <> q -> get (add st k 1%Z) q = get st q) /\
  (k = q -> (0 <= match get st q with Some c => c | None => 0%Z end)%Z ->
     (match get st q with Some c => c | None => 0%Z end + 1 <= 2 ^ 31 - 1)%Z ->
     match get (add st k 1%Z) q with Some c => c | None => 0%Z end =
       (match get st q with Some c => c | None => 0%Z end + 1)%Z) /\
  (forall c, get (add st k 1%Z) k = Some c -> (- 2 ^ 31 <= c <= 2 ^ 31 - 1)%Z).
Proof.
  intros Hw Hk. unfold add.
  destruct (insert_get_contains st k 1%Z int_add Hw Hk) as (Hw1 & Hg1 & _ & Hq1).
  split; [exact Hw1|]. split; [intros Ne; exact (proj1 (Hq1 q (fun E => Ne (eq_sym E))))|]. split.
  - intros <- H0 H1. rewrite Hg1. destruct (get st k) as [c|] eqn:Ec; [|reflexivity].
    pose proof (counter_get_nonzero st k c Hw Ec) as Hc0.
    change (set_value (int_add c 1%Z)) with (int_add c 1%Z).
    rewrite int_add_small by lia. unfold slot_get.
    change (has_value (c + 1)%Z) with (negb (Z.eqb (c + 1) 0)).
    destruct (Z.eqb_spec (c + 1) 0); [lia|reflexivity].
  - intros c Hc. rewrite Hg1 in Hc. destruct (get st k) as [c0|].
    + change (set_value (int_add c0 1%Z)) with (int_add c0 1%Z) in Hc. unfold slot_get in Hc.
      change (has_value (int_add c0 1%Z)) with (negb (Z.eqb (int_add c0 1) 0)) in Hc.
      destruct (negb _); [|discriminate]. injection Hc as <-. apply int_add_range.
    + injection Hc as <-. lia.
Qed.

(** After the [add(k)] calls of [keys], a key reads its former count plus
    the number of its occurrences, while that stays within [INT_MAX]. *)
Lemma adds_count (keys : list (list Z)) (st : trie_map Z) (q : list Z) :
  wf_trie st -> Forall (Forall (fun a => is_char a = true)) keys ->
  (0 <= match get st q with Some c => c | None => 0%Z end)%Z ->
  (match get st q with Some c => c | None => 0%Z end +
     Z.of_nat (count_occ (List.list_eq_dec Z.eq_dec) keys q) <= 2 ^ 31 - 1)%Z ->
  wf_trie (run_adds st keys) /\
  match get (run_adds st keys) q with Some c => c | None => 0%Z end =
    (match get st q with Some c => c | None => 0%Z end +
     Z.of_nat (count_occ (List.list_eq_dec Z.eq_dec) keys q))%Z.
Proof.
  revert st. induction keys as [|k keys IH]; intros st Hw Hch H0 H1.
  - split; [exact Hw|]. cbn. lia.
  - inversion Hch as [|? ? Hk Hr]; subst. cbn [run_adds fold_left].
    destruct (add_one_step st k q Hw Hk) as (Hw1 & Hne & Heq & _).
    cbn [count_occ] in H1 |- *.
    destruct (List.list_eq_dec Z.eq_dec k q) as [<-|Ne].
    + rewrite Nat2Z.inj_succ in H1 |- *.
      pose proof (Heq eq_refl H0 ltac:(lia)) as E.
      destruct (IH (add st k 1%Z) Hw1 Hr ltac:(rewrite E; lia) ltac:(rewrite E; lia)) as (Hw' & Hc').
      split; [exact Hw'|]. unfold run_adds in Hc'. rewrite Hc', E. lia.
    + rewrite <- (Hne Ne) in H0, H1.
      destruct (IH (add st k 1%Z) Hw1 Hr H0 H1) as (Hw' & Hc').
      split; [exact Hw'|]. unfold run_adds in Hc'. rewrite Hc', (Hne Ne). reflexivity.
Qed.

(** Every count of a counter trie built by [add(k)] calls is an [int]. *)
Lemma adds_int_range (keys : list (list Z)) (st : trie_map Z) :
  wf_trie st -> Forall (Forall (fun a => is_char a = true)) keys ->
  (forall q c, get st q = Some c -> (- 2 ^ 31 <= c <= 2 ^ 31 - 1)%Z) ->
  wf_trie (run_adds st keys) /\
  (forall q c, get (run_adds st keys) q = Some c -> (- 2 ^ 31 <= c <= 2 ^ 31 - 1)%Z).
Proof.
  revert st. induction keys as [|k keys IH]; intros st Hw Hch Hr0; [split; assumption|].
  inversion Hch as [|? ? Hk Hr]; subst. cbn [run_adds fold_left].
  destruct (add_one_step st k k Hw Hk) as (Hw1 & _ & _ & Hrk).
  apply (IH (add st k 1%Z) Hw1 Hr). intros q c Hc.
  destruct (List.list_eq_dec Z.eq_dec k q) as [<-|Ne]; [exact (Hrk c Hc)|].
  destruct (add_one_step st k q Hw Hk) as (_ & Hne & _).
  rewrite (Hne Ne) in Hc. exact (Hr0 q c Hc).
Qed.

Lemma count_occ_repeat_self (x : list Z) (n : nat) :
  count_occ (List.list_eq_dec Z.eq_dec) (repeat x n) x = n.
Proof.
  induction n as [|n IH]; [reflexivity|]. cbn [repeat count_occ].
  destruct (List.list_eq_dec Z.eq_dec x x) as [_|Ne]; [f_equal; exact IH | contradiction].
Qed.

Lemma Forall_repeat_self {T : Type} (P : T -> Prop) (x : T) (n : nat) : P x -> Forall P (repeat x n).
Proof. intros H. induction n as [|n IH]; constructor; assumption. Qed.

Lemma table_slots_distinct {Slot : Type} (es : list (TrieNode Slot)) (d : list (option nat)) (c1 c2 : nat) :
  table_ok es d -> in_table d c1 -> in_table d c2 -> c1 <> c2 ->
  slot_of (first_atom es c1) (length d) <> slot_of (first_atom es c2) (length d).
Proof.
  intros [_ Hd] [h1 E1] [h2 E2] Ne Es.
  rewrite <- (Hd _ _ E1), <- (Hd _ _ E2) in Es. subst h2. rewrite E1 in E2. congruence.
Qed.

Lemma least_exact_comm (a b : Z) : least_exact a b = least_exact b a.
Proof. unfold least_exact. rewrite Z.lxor_comm. reflexivity. Qed.

Section Reachable.
Context {Slot Val : Type} `{VH : ValueHolder Slot Val}.

(** C6: after any sequence of [insert]/[add] calls with [char] atoms, in
    every node no two children start with the same atom (I1), any two
    children sit in distinct slots [a & (S-1)], [b & (S-1)] of the table of
    size [S] (I5), and [put] of a further child whose first atom is a
    [char] not yet used keeps every child, adds the new one, and again
    leaves all of them in distinct slots, each at the slot of its first
    atom. *)
Theorem reachable_tables_ok (ops : list (list Z * Val * (Val -> Val -> Val))) :
  Forall (fun o => Forall (fun a => is_char a = true) o.1.1) ops ->
  forall x nx, edges (run_ops empty_trie ops) !! x = Some nx ->
  let es := edges (run_ops empty_trie ops) in
  let d := data nx in
  (forall c1 c2, in_table d c1 -> in_table d c2 -> c1 <> c2 ->
     first_atom es c1 <> first_atom es c2) /\
  (forall c1 c2, in_table d c1 -> in_table d c2 -> c1 <> c2 ->
     slot_of (first_atom es c1) (length d) <> slot_of (first_atom es c2) (length d)) /\
  (forall N, is_char (first_atom es N) = true ->
     (forall c, in_table d c -> first_atom es c <> first_atom es N) ->
     (forall c, in_table (put_table es d N) c <-> in_table d c \/ c = N) /\
     (forall h c, put_table es d N !! h = Some (Some c) ->
        h = slot_of (first_atom es c) (length (put_table es d N))) /\
     (forall c1 c2, in_table (put_table es d N) c1 -> in_table (put_table es d N) c2 -> c1 <> c2 ->
        slot_of (first_atom es c1) (length (put_table es d N)) <>
        slot_of (first_atom es c2) (length (put_table es d N)))).
Proof.
  intros Hch x nx Hx es d.
  destruct (reachable_ok ops Hch) as [[E|Hw] _].
  { unfold es in Hx. rewrite E in Hx. discriminate. }
  fold es in Hw, Hx.
  pose proof (wf_table es Hw x nx Hx) as Ht.
  split; [|split].
  - intros c1 c2 H1 H2 Ne Ef. apply Ne. exact (child_unique es d c1 c2 Ht H1 H2 Ef).
  - intros c1 c2 H1 H2 Ne. exact (table_slots_distinct es d c1 c2 Ht H1 H2 Ne).
  - intros N HN Hfr.
    destruct (put_table_spec es d N Ht (fun c Hc => child_char es x nx c Hw Hx Hc) HN Hfr)
      as (Ht' & Hin & _).
    split; [exact Hin|]. split; [exact (proj2 Ht')|].
    intros c1 c2 H1 H2 Ne. exact (table_slots_distinct es _ c1 c2 Ht' H1 H2 Ne).
Qed.


(** C7: after any sequence of [insert]/[add] calls with [char] atoms, a
    node with exactly two children, whose labels start with [a] and [b],
    has a table of [((a XOR b) & -(a XOR b)) << 1] slots in unbounded
    integer arithmetic, which is [2^j] for the least [j] with
    [a mod 2^j <> b mod 2^j] and is also what the 32-bit
    [least_uncolliding_size] computes; [put] of a third child (a [char]
    first atom not yet used) either keeps that size or grows the table to
    [least_exact] of the new atom and one of the two siblings. *)
Theorem two_children_table_size (ops : list (list Z * Val * (Val -> Val -> Val))) :
  Forall (fun o => Forall (fun a => is_char a = true) o.1.1) ops ->
  forall x nx c1 c2, edges (run_ops empty_trie ops) !! x = Some nx -> c1 <> c2 ->
  (forall c, in_table (data nx) c <-> c = c1 \/ c = c2) ->
  let es := edges (run_ops empty_trie ops) in
  let d := data nx in
  let a := first_atom es c1 in
  let b := first_atom es c2 in
  Z.of_nat (length d) = Z.shiftl (Z.land (Z.lxor a b) (- Z.lxor a b)) 1 /\
  Z.of_nat (length d) = least_uncolliding_size a b /\
  (exists j : nat, 1 <= j <= 8 /\ Z.of_nat (length d) = (2 ^ Z.of_nat j)%Z /\
     (a mod 2 ^ Z.of_nat j <> b mod 2 ^ Z.of_nat j)%Z /\
     (a mod 2 ^ Z.of_nat (j - 1) = b mod 2 ^ Z.of_nat (j - 1))%Z) /\
  (forall N, is_char (first_atom es N) = true ->
     (forall c, in_table d c -> first_atom es c <> first_atom es N) ->
     length (put_table es d N) = length d \/
     (length d < length (put_table es d N) /\
      exists b0, (b0 = c1 \/ b0 = c2) /\
        Z.of_nat (length (put_table es d N)) = least_exact (first_atom es N) (first_atom es b0))).
Proof.
  intros Hch x nx c1 c2 Hx Ne Hd es d a b.
  destruct (reachable_ok ops Hch) as [[E|Hw] Hs].
  { unfold es in Hx. rewrite E in Hx. discriminate. }
  fold es in Hw, Hx, Hs.
  pose proof (wf_table es Hw x nx Hx) as Ht.
  assert (H1 : in_table d c1) by (apply Hd; auto).
  assert (H2 : in_table d c2) by (apply Hd; auto).
  assert (Hex : Z.of_nat (length d) = least_exact a b).
  { destruct (proj2 (Hs x nx Hx) c1 c2 H1 H2 Ne) as (b1 & b2 & Nb & B1 & B2 & Eb).
    fold d in Eb. rewrite Eb.
    apply Hd in B1 as [->| ->]; apply Hd in B2 as [->| ->];
      solve [contradiction | reflexivity | apply least_exact_comm]. }
  assert (Hab : a <> b).
  { intros Ef. apply Ne. exact (child_unique es d c1 c2 Ht H1 H2 Ef). }
  destruct (least_char_spec a b (child_char es x nx c1 Hw Hx H1) (child_char es x nx c2 Hw Hx H2) Hab)
    as (j & Hj & Hl & Hm1 & Hm2 & Hle).
  split; [exact Hex|]. split; [congruence|]. split.
  { exists j. split; [exact Hj|]. split; [congruence|]. auto. }
  intros N HN Hfr.
  destruct (put_table_spec es d N Ht (fun c Hc => child_char es x nx c Hw Hx Hc) HN Hfr)
    as (_ & _ & Hsz).
  destruct Hsz as [[Hz _]|[[_ [Eq _]]|(b0 & Hb0 & Eb0 & Lt)]].
  - exfalso. destruct H1 as [h Eh]. apply lookup_lt_Some in Eh. lia.
  - left. exact Eq.
  - right. split; [exact Lt|]. exists b0. split; [apply Hd; exact Hb0|exact Eb0].
Qed.

End Reachable.

(** C1: inserting pairs whose keys (of [char] atoms) are pairwise distinct,
    in any order, into an empty map: [get] then returns the inserted value
    for every inserted key and nothing for every other key. *)
Theorem insert_get_roundtrip {V : Type} (l : list (list Z * V)) :
  NoDup (map fst l) -> Forall (fun kv => Forall (fun a => is_char a = true) kv.1) l ->
  (forall k v, In (k, v) l -> get (run_inserts l) k = Some v) /\
  (forall k', ~ In k' (map fst l) -> get (run_inserts l) k' = None).
Proof.
  intros Hnd Hch.
  destruct (inserts_get l empty_trie (proj1 (@empty_trie_ok (option V))) Hch Hnd)
    as (_ & Hin & Hout).
  { intros k _. reflexivity. }
  split; [exact Hin|]. intros k' Hk'. rewrite Hout by exact Hk'. reflexivity.
Qed.

(** C8 (corrected): on a map of [int]s built by [insert]/[add] calls with
    [char] atoms, [insert(k, v)] on a key bearing [old] makes [get(k)]
    return [v], and [add(k, v)] makes it return [old += v]: [old + v]
    whenever that sum is an [int].  On a counter trie, after the [add(k)]
    calls of a list of keys, a key added [n] times with [1 <= n <= INT_MAX]
    reads [n] and is contained, and a key never added is not contained. *)
Theorem insert_replaces_add_counts (ops : list (list Z * Z * (Z -> Z -> Z))) (k : list Z) (old v : Z)
    (keys : list (list Z)) (q : list Z) :
  Forall (fun o => Forall (fun a => is_char a = true) o.1.1) ops ->
  Forall (fun a => is_char a = true) k ->
  get (run_ops (@empty_trie (option Z)) ops) k = Some old ->
  Forall (Forall (fun a => is_char a = true)) keys ->
  (get (insert_assign (run_ops (@empty_trie (option Z)) ops) k v) k = Some v /\
   get (add (run_ops (@empty_trie (option Z)) ops) k v) k = Some (int_add old v) /\
   ((- 2 ^ 31 <= old + v <= 2 ^ 31 - 1)%Z ->
    get (add (run_ops (@empty_trie (option Z)) ops) k v) k = Some (old + v)%Z)) /\
  (1 <= count_occ (List.list_eq_dec Z.eq_dec) keys q ->
   (Z.of_nat (count_occ (List.list_eq_dec Z.eq_dec) keys q) <= 2 ^ 31 - 1)%Z ->
   get (run_adds (@empty_trie Z) keys) q = Some (Z.of_nat (count_occ (List.list_eq_dec Z.eq_dec) keys q)) /\
   contains (run_adds (@empty_trie Z) keys) q = true) /\
  (count_occ (List.list_eq_dec Z.eq_dec) keys q = 0 -> contains (run_adds (@empty_trie Z) keys) q = false).
Proof.
  intros Hops Hk Hold Hkeys.
  destruct (@reachable_ok (option Z) Z (map_holder Z) ops Hops) as [Hw _].
  split.
  { assert (Ha : get (add (run_ops (@empty_trie (option Z)) ops) k v) k = Some (int_add old v)).
    { destruct (insert_get_contains _ k v int_add Hw Hk) as (_ & Hg & _).
      unfold add. rewrite Hg, Hold. reflexivity. }
    split; [|split; [exact Ha|]].
    - destruct (insert_get_contains _ k v (fun _ n => n) Hw Hk) as (_ & Hg & _).
      unfold insert_assign. rewrite Hg, Hold. reflexivity.
    - intros Hr. rewrite Ha, int_add_small by exact Hr. reflexivity. }
  assert (He : get (@empty_trie Z) q = None) by reflexivity.
  assert (Hcnt : (Z.of_nat (count_occ (List.list_eq_dec Z.eq_dec) keys q) <= 2 ^ 31 - 1)%Z ->
    wf_trie (run_adds (@empty_trie Z) keys) /\
    match get (run_adds (@empty_trie Z) keys) q with Some c => c | None => 0%Z end =
      Z.of_nat (count_occ (List.list_eq_dec Z.eq_dec) keys q)).
  { intros Hb. destruct (adds_count keys (@empty_trie Z) q (proj1 (@empty_trie_ok Z)) Hkeys)
      as (Hw' & Hc); rewrite ?He; [lia | lia |]. rewrite He in Hc. split; [exact Hw'|]. lia. }
  split.
  - intros Hn Hb. destruct (Hcnt Hb) as (Hw' & Hc). rewrite (contains_get _ q Hw').
    destruct (get (run_adds (@empty_trie Z) keys) q) as [c|] eqn:Eg; [|lia].
    split; [f_equal; exact Hc | reflexivity].
  - intros Hn. destruct (Hcnt ltac:(rewrite Hn; lia)) as (Hw' & Hc). rewrite (contains_get _ q Hw').
    destruct (get (run_adds (@empty_trie Z) keys) q) as [c|] eqn:Eg; [|reflexivity].
    exfalso. apply (counter_get_nonzero _ q c Hw' Eg). rewrite Hc, Hn. reflexivity.
Qed.

(** C8, the claim for [n = 2^31 > INT_MAX]: after [2^31] calls [add("x")]
    the [int] count cannot read [2^31]; every count a run of [add(k)] calls
    leaves is an [int]. *)
Lemma insert_replaces_add_counts_counterexample :
  count_occ (List.list_eq_dec Z.eq_dec) (repeat (str "x") (2 ^ 31)) (str "x") = 2 ^ 31 /\
  get (run_adds (@empty_trie Z) (repeat (str "x") (2 ^ 31))) (str "x") <> Some (Z.of_nat (2 ^ 31)).
Proof.
  split; [apply count_occ_repeat_self|]. intros E.
  destruct (adds_int_range (repeat (str "x") (2 ^ 31)) (@empty_trie Z) (proj1 (@empty_trie_ok Z))) as [_ Hr].
  - apply Forall_repeat_self. repeat constructor.
  - intros q c Hc. discriminate.
  - specialize (Hr _ _ E).
    assert (E2 : Z.of_nat (2 ^ 31) = (2 ^ 31)%Z) by (rewrite Nat2Z.inj_pow; reflexivity).
    rewrite E2 in Hr. lia.
Qed.

(** Witnesses on concrete runs. *)

(** [insert("ab", 1); insert("ac", 2); insert("a", 3)]. *)
Lemma insert_get_roundtrip_witness :
  NoDup (map fst [(str "ab", 1%Z); (str "ac", 2%Z); (str "a", 3%Z)]) /\
  Forall (fun kv : list Z * Z => Forall (fun a => is_char a = true) kv.1)
    [(str "ab", 1%Z); (str "ac", 2%Z); (str "a", 3%Z)] /\
  get (run_inserts [(str "ab", 1%Z); (str "ac", 2%Z); (str "a", 3%Z)]) (str "a") = Some 3%Z /\
  get (run_inserts [(str "ab", 1%Z); (str "ac", 2%Z); (str "a", 3%Z)]) (str "b") = None.
Proof.
  assert (Hnd : NoDup (map fst [(str "ab", 1%Z); (str "ac", 2%Z); (str "a", 3%Z)]))
    by (apply (bool_decide_unpack _); vm_compute; reflexivity).
  assert (Hch : Forall (fun kv : list Z * Z => Forall (fun a => is_char a = true) kv.1)
    [(str "ab", 1%Z); (str "ac", 2%Z); (str "a", 3%Z)]) by (repeat constructor).
  destruct (insert_get_roundtrip _ Hnd Hch) as [Hin Hout].
  split; [exact Hnd|]. split; [exact Hch|]. split.
  - apply Hin. right. right. left. reflexivity.
  - apply Hout. vm_compute. intros [E|[E|[E|[]]]]; discriminate.
Defined.

(** [insert("ab", 1); insert("ad", 2)]: the root ["a"] has the children
    ["b"] (node 1) and ["d"] (node 2), in a table of 4 slots. *)
Lemma reachable_tables_ok_witness :
  Forall (fun o : list Z * Z * (Z -> Z -> Z) => Forall (fun a => is_char a = true) o.1.1)
    [(str "ab", 1%Z, fun _ n => n); (str "ad", 2%Z, fun _ n => n)] /\
  edges (run_ops (@empty_trie (option Z)) [(str "ab", 1%Z, fun _ n => n); (str "ad", 2%Z, fun _ n => n)])
    !! 0 = Some (mk_node (str "a") None [Some 2; None; Some 1; None]) /\
  slot_of 98 4 <> slot_of 100 4.
Proof.
  assert (Hch : Forall (fun o : list Z * Z * (Z -> Z -> Z) => Forall (fun a => is_char a = true) o.1.1)
    [(str "ab", 1%Z, fun _ n => n); (str "ad", 2%Z, fun _ n => n)]) by (repeat constructor).
  assert (Hx : edges (run_ops (@empty_trie (option Z))
                 [(str "ab", 1%Z, fun _ n => n); (str "ad", 2%Z, fun _ n => n)])
    !! 0 = Some (mk_node (str "a") None [Some 2; None; Some 1; None])) by (vm_compute; reflexivity).
  destruct (reachable_tables_ok _ Hch 0 _ Hx) as (_ & Hslot & _).
  split; [exact Hch|]. split; [exact Hx|].
  apply (Hslot 1 2); [exists 2; reflexivity | exists 0; reflexivity | discriminate].
Defined.

(** The same run: the table of the root has [least_exact 98 100 = 4] slots. *)
Lemma two_children_table_size_witness :
  Forall (fun o : list Z * Z * (Z -> Z -> Z) => Forall (fun a => is_char a = true) o.1.1)
    [(str "ab", 1%Z, fun _ n => n); (str "ad", 2%Z, fun _ n => n)] /\
  edges (run_ops (@empty_trie (option Z)) [(str "ab", 1%Z, fun _ n => n); (str "ad", 2%Z, fun _ n => n)])
    !! 0 = Some (mk_node (str "a") None [Some 2; None; Some 1; None]) /\
  (forall c, in_table [Some 2; None; Some 1; None] c <-> c = 1 \/ c = 2) /\
  Z.of_nat 4 = least_uncolliding_size 98 100.
Proof.
  assert (Hch : Forall (fun o : list Z * Z * (Z -> Z -> Z) => Forall (fun a => is_char a = true) o.1.1)
    [(str "ab", 1%Z, fun _ n => n); (str "ad", 2%Z, fun _ n => n)]) by (repeat constructor).
  assert (Hx : edges (run_ops (@empty_trie (option Z))
                 [(str "ab", 1%Z, fun _ n => n); (str "ad", 2%Z, fun _ n => n)])
    !! 0 = Some (mk_node (str "a") None [Some 2; None; Some 1; None])) by (vm_compute; reflexivity).
  assert (Hd : forall c, in_table [Some 2; None; Some 1; None] c <-> c = 1 \/ c = 2).
  { intros c. split.
    - intros [h E]. destruct h as [|[|[|[|h]]]]; cbn in E; try discriminate;
        injection E as <-; auto.
    - intros [-> | ->]; [exists 2 | exists 0]; reflexivity. }
  destruct (two_children_table_size _ Hch 0 _ 1 2 Hx ltac:(discriminate) Hd) as (_ & Hl & _).
  split; [exact Hch|]. split; [exact Hx|]. split; [exact Hd|]. exact Hl.
Defined.

(** [insert("x", 5)], then [insert("x", 7)] / [add("x", 7)]; and the
    counter [add("x"); add("x"); add("y"); add("x")]. *)
Lemma insert_replaces_add_counts_witness :
  get (insert_assign (run_ops (@empty_trie (option Z)) [(str "x", 5%Z, fun _ n => n)]) (str "x") 7%Z)
    (str "x") = Some 7%Z /\
  get (add (run_ops (@empty_trie (option Z)) [(str "x", 5%Z, fun _ n => n)]) (str "x") 7%Z)
    (str "x") = Some 12%Z /\
  get (run_adds (@empty_trie Z) [str "x"; str "x"; str "y"; str "x"]) (str "x") = Some 3%Z /\
  contains (run_adds (@empty_trie Z) [str "x"; str "x"; str "y"; str "x"]) (str "z") = false.
Proof.
  destruct (insert_replaces_add_counts [(str "x", 5%Z, fun _ n => n)] (str "x") 5%Z 7%Z
              [str "x"; str "x"; str "y"; str "x"] (str "x")) as ((H1 & _ & H2) & H3 & _);
    [repeat constructor | repeat constructor | vm_compute; reflexivity | repeat constructor |].
  destruct (insert_replaces_add_counts [(str "x", 5%Z, fun _ n => n)] (str "x") 5%Z 7%Z
              [str "x"; str "x"; str "y"; str "x"] (str "z")) as (_ & _ & H4);
    [repeat constructor | repeat constructor | vm_compute; reflexivity | repeat constructor |].
  split; [exact H1|]. split; [apply H2; lia|]. split.
  - apply H3; vm_compute; [lia | discriminate].
  - apply H4. vm_compute. reflexivity.
Defined.

(** ** Further properties of the container *)

Section MoreOps.
Context {Slot Val : Type} `{VH : ValueHolder Slot Val}.

(** [insert] counts a key in [msize] unless the search ends in [exactMatch],
    that is unless a node already ends at the key. *)
Lemma insert_msize (st : trie_map Slot) (k : list Z) (v : Val) (r : Val -> Val -> Val) :
  wf_trie st ->
  ((exists s, At (edges st) k s) -> msize (insert st k v r) = msize st) /\
  ((forall s, ~ At (edges st) k s) -> msize (insert st k v r) = S (msize st)).
Proof.
  intros Hwt. unfold insert.
  destruct (edges st) as [|e0 es0] eqn:Ees.
  - split; [intros [s H]; exfalso; exact (At_nil k s H) | intros _; reflexivity].
  - destruct Hwt as [Hwt|Hw]; [congruence|]. rewrite Ees in Hw.
    set (es := e0 :: es0) in *.
    unfold general_search. rewrite gs_loop_outcome by reflexivity.
    destruct (root_search es k Hw) as (o & Ho & Hok). rewrite Ho. cbn beta iota.
    destruct o as [y|y i|y e|y e i]; simpl.
    + destruct (At_exact es k y Hw Hok) as (ny & _ & Hiff). split; [reflexivity|].
      intros Hn. exfalso. apply (Hn (value ny)). apply Hiff. reflexivity.
    + split; [|reflexivity]. intros [s H]. exfalso.
      exact (At_not_exact es k _ Hw Hok ltac:(congruence) s H).
    + split; [|reflexivity]. intros [s H]. exfalso.
      exact (At_not_exact es k _ Hw Hok ltac:(congruence) s H).
    + split; [|reflexivity]. intros [s H]. exfalso.
      exact (At_not_exact es k _ Hw Hok ltac:(congruence) s H).
Qed.

Lemma get_some_At (st : trie_map Slot) (q : list Z) (x : Val) :
  wf_trie st -> get st q = Some x -> exists s, At (edges st) q s.
Proof.
  intros Hw Hg. destruct (At_dec st q Hw) as [H|Hn]; [exact H|].
  rewrite (proj2 (get_At_trie st q Hw) Hn) in Hg. discriminate.
Qed.

End MoreOps.

Section FindKey.
Context {Slot Val : Type} `{VH : ValueHolder Slot Val}.
Variable es : list (TrieNode Slot).
Variable key : list Z.
Hypothesis Hw : wf es.

Lemma iget_push (impl : IteratorInternal) (x : nat * nat) :
  iget es (mk_iter (base_prefix impl) (m_root impl) (m_ptrs impl ++ [x])) 0 = ptr_value es x.
Proof.
  unfold iget. cbn [m_ptrs m_root]. rewrite length_app. cbn [length].
  replace (Z.of_nat (length (m_ptrs impl) + 1) + 0)%Z with (Z.of_nat (S (length (m_ptrs impl))))%Z by lia.
  destruct (Z.ltb_spec 0 (Z.of_nat (S (length (m_ptrs impl))))) as [_|]; [|lia].
  replace (Z.to_nat (Z.of_nat (S (length (m_ptrs impl))) - 1)) with (length (m_ptrs impl)) by lia.
  rewrite lookup_app_r, Nat.sub_diag by lia. reflexivity.
Qed.

Lemma get_key_str_push (impl : IteratorInternal) (x : nat * nat) (a : list Z) (c : nat)
    (nc : TrieNode Slot) :
  get_key_str es impl = Some a -> ptr_value es x = Some c -> es !! c = Some nc ->
  get_key_str es (mk_iter (base_prefix impl) (m_root impl) (m_ptrs impl ++ [x])) = Some (a ++ label nc).
Proof.
  unfold get_key_str. cbn [m_root m_ptrs base_prefix].
  destruct (m_root impl) as [r|]; [|discriminate].
  destruct (es !! r) as [rn|]; [|discriminate].
  intros Ha Hx Hc. rewrite fold_left_app, Ha. cbn. rewrite Hx, Hc. reflexivity.
Qed.

(** The search of [find] follows the same path as [out_loop]; at an
    [exactMatch] its cursor points at the node and spells the key. *)
Lemma find_loop (fuel : nat) :
  forall n nn kb it impl pre y,
  es !! n = Some nn -> kb <= length (label nn) -> it <= length key ->
  iget es impl 0 = Some n -> get_key_str es impl = Some (pre ++ label nn) ->
  pre ++ take kb (label nn) = take it key ->
  out_loop es key fuel n kb it = SDone (Some (OExact y)) ->
  exists impl',
    gs_loop es key
       (fun n out =>
          match es !! n with
          | Some nd => if has_value (value nd) then out else None
          | None => out
          end)
       (fun _ _ _ => None) (fun _ _ _ => None) (fun _ _ _ _ => None)
       (fun x _ out =>
          option_map (fun impl => mk_iter (base_prefix impl) (m_root impl) (m_ptrs impl ++ [x])) out)
       fuel n kb it (Some impl) =
    SDone (match es !! y with
           | Some nd => if has_value (value nd) then Some impl' else None
           | None => Some impl'
           end) /\
    iget es impl' 0 = Some y /\ get_key_str es impl' = Some key /\
    m_root impl' = m_root impl /\ base_prefix impl' = base_prefix impl.
Proof.
  induction fuel as [|fuel IH]; intros n nn kb it impl pre y Hn Hkb Hit Hi Hk Hp Ho;
    [discriminate|].
  unfold out_loop in Ho. cbn [gs_loop] in Ho |- *. rewrite Hn in Ho |- *.
  set (l1 := drop kb (label nn)) in *. set (l2 := drop it key) in *.
  destruct (common_prefix_spec l1 l2) as (Ht & Hc1 & Hc2 & _).
  set (c := common_prefix l1 l2) in *.
  assert (Hl1 : length l1 = length (label nn) - kb) by apply length_drop.
  assert (Hl2 : length l2 = length key - it) by apply length_drop.
  assert (Hpre : kb + c = length (label nn) -> pre ++ label nn = take (it + c) key).
  { intros E. rewrite <- (take_drop kb (label nn)), app_assoc, Hp. fold l1.
    rewrite <- (take_ge l1 c) by lia. rewrite Ht. unfold l2. rewrite <- take_take_drop.
    reflexivity. }
  destruct (Nat.eqb_spec (it + c) (length key)) as [E1|E1];
    destruct (Nat.eqb_spec (kb + c) (length (label nn))) as [E2|E2]; try discriminate.
  - injection Ho as <-. exists impl. split; [rewrite Hn; reflexivity|]. split; [exact Hi|].
    split; [|auto]. rewrite Hk, (Hpre E2), E1. f_equal. apply take_ge. lia.
  - cbn in Ho |- *.
    destruct (node_find es nn (nth (it + c) key 0%Z)) as [h|] eqn:Ef; [|discriminate].
    destruct (node_find_some es nn _ h Ef) as (nx & Hh & Hfa). rewrite Hh in Ho |- *.
    assert (Hc0 : in_table (data nn) nx) by (exists h; exact Hh).
    destruct (child_node es Hw n nn nx Hn Hc0) as (nc & a & r & Hnc & Hl0 & Ha & _).
    assert (Hpv : ptr_value es (n, h) = Some nx) by (unfold ptr_value; cbn; rewrite Hn, Hh; reflexivity).
    destruct (IH nx nc 1 (S (it + c)) (mk_iter (base_prefix impl) (m_root impl) (m_ptrs impl ++ [(n, h)]))
                (pre ++ label nn) y Hnc) as (impl' & Hg & Hi' & Hk' & Hr' & Hb');
      [rewrite Hl0; simpl; lia | lia | rewrite iget_push; exact Hpv
      | exact (get_key_str_push impl (n, h) _ nx nc Hk Hpv Hnc) | | exact Ho |].
    + rewrite (Hpre E2), Hl0. cbn [take].
      destruct (lookup_lt_is_Some_2 key (it + c)) as [z Hz]; [lia|].
      rewrite (take_S_r key (it + c) z Hz). f_equal. f_equal.
      rewrite <- Ha, Hfa. apply nth_lookup_Some. exact Hz.
    + exists impl'. split; [exact Hg|]. cbn in Hr', Hb'. auto.
Qed.

End FindKey.

Section Extras.
Context {Slot Val : Type} `{VH : ValueHolder Slot Val}.

(** [find(k)] on a key bearing a value: a cursor on the node of [k], whose
    [key()] is [k] and whose [value()] is the value [get(k)] reads. *)
Theorem find_present_key (ops : list (list Z * Val * (Val -> Val -> Val))) (k : list Z) (v : Val) :
  Forall (fun o => Forall (fun a => is_char a = true) o.1.1) ops ->
  get (run_ops empty_trie ops) k = Some v ->
  exists impl, find (run_ops empty_trie ops) k = Some (iter impl) /\
    get_key_str (edges (run_ops empty_trie ops)) impl = Some k /\
    iter_value (edges (run_ops empty_trie ops)) impl = Some v.
Proof.
  intros Hch Hg. destruct (reachable_ok ops Hch) as [Hwt _].
  set (st := run_ops empty_trie ops) in *.
  unfold get in Hg. unfold find.
  destruct (edges st) as [|e0 es0] eqn:Ees; [discriminate|].
  destruct Hwt as [E|Hw]; [congruence|]. rewrite Ees in Hw.
  set (es := e0 :: es0) in *.
  unfold general_search in Hg |- *. rewrite gs_loop_outcome in Hg by reflexivity.
  destruct (root_search es k Hw) as (o & Ho & Hok). rewrite Ho in Hg.
  destruct o as [y|y i|y e|y e i]; cbn in Hg; try discriminate.
  destruct (es !! y) as [ny|] eqn:Hy; [|discriminate].
  destruct (has_value (value ny)) eqn:Hv; [|discriminate].
  destruct (lookup_lt_is_Some_2 es 0 (wf_root es Hw)) as [root Hr].
  destruct (find_loop es k Hw (S (length k)) 0 root 0 0 (mk_iter [] (Some 0) []) [] y Hr)
    as (impl & Hl & Hi & Hk & _ & _); [lia | lia | reflexivity | | reflexivity | exact Ho |].
  { unfold get_key_str. cbn [m_root base_prefix m_ptrs]. rewrite Hr. reflexivity. }
  rewrite Hl, Hy, Hv. cbn [normalize]. rewrite Hi, Hy, Hv.
  exists impl. split; [reflexivity|]. split; [exact Hk|].
  unfold iter_value. rewrite Hi, Hy. exact Hg.
Qed.

End Extras.

Section Infix.

Lemma insert_infix_cases (C : nat) (keys : Prefix.arena) (hint : option nat) (l : list Z)
    (A' : Prefix.arena) (t k e : nat) :
  match hint with Some h => h < length keys | None => True end ->
  insert_infix_arena C keys hint l = (A', (t, k, e)) ->
  (A' = keys ++ [l] /\ t = length keys /\ k = 0 /\ e = length l) \/
  (t < length keys /\ length (Prefix.chunk_atoms keys t) + length l <= C /\
   A' = <[t := Prefix.chunk_atoms keys t ++ l]> keys /\
   k = length (Prefix.chunk_atoms keys t) /\ e = k + length l).
Proof.
  intros Hh. unfold insert_infix_arena.
  assert (Hfresh : forall (A1 : Prefix.arena) t1,
    (A1, t1) = (keys ++ [[]], length keys) ->
    (<[t1 := Prefix.chunk_atoms A1 t1 ++ l]> A1, (t1, length (Prefix.chunk_atoms A1 t1),
       length (Prefix.chunk_atoms A1 t1) + length l)) = (A', (t, k, e)) ->
    A' = keys ++ [l] /\ t = length keys /\ k = 0 /\ e = length l).
  { intros A1 t1 E1 E2. injection E1 as -> ->.
    assert (Hc : Prefix.chunk_atoms (keys ++ [[]]) (length keys) = []).
    { unfold Prefix.chunk_atoms, Prefix.arena. rewrite lookup_app_r by lia. rewrite Nat.sub_diag. reflexivity. }
    rewrite Hc in E2. injection E2 as <- <- <- <-.
    unfold Prefix.arena in *. rewrite insert_app_r_alt by lia. rewrite Nat.sub_diag. cbn. auto. }
  assert (Hlast : forall (A1 : Prefix.arena) t1, t1 < length keys ->
    length (Prefix.chunk_atoms keys t1) + length l <= C ->
    (A1, t1) = (keys, t1) ->
    (<[t1 := Prefix.chunk_atoms A1 t1 ++ l]> A1, (t1, length (Prefix.chunk_atoms A1 t1),
       length (Prefix.chunk_atoms A1 t1) + length l)) = (A', (t, k, e)) ->
    t < length keys /\ length (Prefix.chunk_atoms keys t) + length l <= C /\
    A' = <[t := Prefix.chunk_atoms keys t ++ l]> keys /\
    k = length (Prefix.chunk_atoms keys t) /\ e = k + length l).
  { intros A1 t1 Ht Hc E1 E2. injection E1 as ->. injection E2 as <- <- <- <-. auto. }
  set (fresh := if (Nat.eqb C 0 || Nat.eqb (length keys) 0 ||
       Nat.ltb C (length (Prefix.chunk_atoms keys (length keys - 1)) + length l))%bool
       then (keys ++ [[]], length keys) else (keys, length keys - 1)).
  assert (Hf : fresh = (keys ++ [[]], length keys) \/
      (length keys - 1 < length keys /\
       length (Prefix.chunk_atoms keys (length keys - 1)) + length l <= C /\
       fresh = (keys, length keys - 1))).
  { unfold fresh. destruct (Nat.eqb_spec C 0); [left; reflexivity|].
    destruct (Nat.eqb_spec (length keys) 0); [left; reflexivity|].
    destruct (Nat.ltb_spec C (length (Prefix.chunk_atoms keys (length keys - 1)) + length l));
      [left; reflexivity|right; cbn; split; [lia|auto]]. }
  destruct hint as [h|].
  - destruct (Nat.ltb_spec C (length (Prefix.chunk_atoms keys h) + length l)).
    + destruct Hf as [Hf|(Ht & Hc & Hf)]; rewrite Hf; intros E; [left|right];
        [exact (Hfresh _ _ eq_refl E) | exact (Hlast _ _ Ht Hc eq_refl E)].
    + intros E. right. exact (Hlast _ _ Hh ltac:(lia) eq_refl E).
  - destruct Hf as [Hf|(Ht & Hc & Hf)]; rewrite Hf; intros E; [left|right];
      [exact (Hfresh _ _ eq_refl E) | exact (Hlast _ _ Ht Hc eq_refl E)].
Qed.

Lemma chunk_atoms_app_last (keys : Prefix.arena) (l : list Z) (c : nat) :
  Prefix.chunk_atoms (keys ++ [l]) c =
    if Nat.eqb c (length keys) then l else Prefix.chunk_atoms keys c.
Proof.
  unfold Prefix.chunk_atoms, Prefix.arena. destruct (Nat.eqb_spec c (length keys)) as [->|Hn].
  - rewrite lookup_app_r by lia. rewrite Nat.sub_diag. reflexivity.
  - destruct (decide (c < length keys)).
    + rewrite lookup_app_l by lia. reflexivity.
    + rewrite (lookup_ge_None_2 (keys ++ [l])) by (rewrite length_app; cbn; lia).
      rewrite (lookup_ge_None_2 keys) by lia. reflexivity.
Qed.

Lemma chunk_atoms_insert (keys : Prefix.arena) (t c : nat) (x : list Z) :
  t < length keys ->
  Prefix.chunk_atoms (<[t := x]> keys) c = if Nat.eqb c t then x else Prefix.chunk_atoms keys c.
Proof.
  intros Ht. unfold Prefix.chunk_atoms, Prefix.arena. destruct (Nat.eqb_spec c t) as [->|Hn].
  - rewrite list_lookup_insert, decide_True by (split; [reflexivity|exact Ht]). reflexivity.
  - rewrite list_lookup_insert_ne by congruence. reflexivity.
Qed.

End Infix.

Lemma slice_app (X l : list Z) (b n : nat) :
  n = 0 \/ b + n <= length X -> take n (drop b (X ++ l)) = take n (drop b X).
Proof.
  intros [->|Hn]; [rewrite !take_0; reflexivity|].
  rewrite drop_app_le by lia. apply take_app_le. rewrite length_drop. lia.
Qed.

(** The atoms of the chunk [c] after [insert_infix]: the chunk [t] it
    wrote to ends with [l]; every other chunk is as before. *)
Lemma insert_infix_chunks (C : nat) (keys : Prefix.arena) (hint : option nat) (l : list Z)
    (A' : Prefix.arena) (t k e : nat) :
  match hint with Some h => h < length keys | None => True end ->
  insert_infix_arena C keys hint l = (A', (t, k, e)) ->
  Prefix.chunk_atoms A' t = Prefix.chunk_atoms keys t ++ l /\
  k = length (Prefix.chunk_atoms keys t) /\ e = k + length l /\
  forall c, c <> t -> Prefix.chunk_atoms A' c = Prefix.chunk_atoms keys c.
Proof.
  intros Hh E. destruct (insert_infix_cases C keys hint l A' t k e Hh E)
    as [(-> & -> & -> & ->)|(Ht & _ & -> & -> & ->)].
  - assert (Hnil : Prefix.chunk_atoms keys (length keys) = []).
    { unfold Prefix.chunk_atoms, Prefix.arena. rewrite lookup_ge_None_2 by lia. reflexivity. }
    rewrite !chunk_atoms_app_last, Nat.eqb_refl, Hnil. split; [reflexivity|].
    split; [reflexivity|]. split; [reflexivity|].
    intros c Hc. rewrite chunk_atoms_app_last. apply Nat.eqb_neq in Hc. rewrite Hc. reflexivity.
  - rewrite !chunk_atoms_insert, Nat.eqb_refl by exact Ht. split; [reflexivity|].
    split; [reflexivity|]. split; [reflexivity|].
    intros c Hc. rewrite chunk_atoms_insert by exact Ht.
    apply Nat.eqb_neq in Hc. rewrite Hc. reflexivity.
Qed.

(** [insert_infix] then [setkey]: the node's new label reads back the
    inserted atoms under both [PrefixHolder] variants, and a label already
    stored in the arena (a slice within its chunk) reads the same atoms as
    before: chunks only grow at their end. *)
Theorem insert_infix_label_roundtrip (C : nat) (keys : Prefix.arena) (hint : option nat)
    (l : list Z) (A' : Prefix.arena) (t k e : nat) :
  match hint with Some h => h < length keys | None => True end ->
  insert_infix_arena C keys hint l = (A', (t, k, e)) ->
  Prefix.chunked_label A' (Prefix.setkey_chunked t k e) = l /\
  Prefix.single_label A' (Prefix.setkey_single t k e) = l /\
  (forall h : Prefix.chunked, Prefix.cend h <= length (Prefix.chunk_atoms keys (Prefix.chunk h)) ->
     Prefix.chunked_label A' h = Prefix.chunked_label keys h) /\
  (forall s : Prefix.single,
     (Prefix.prefix s).2 + Prefix.prefix_len s <= length (Prefix.chunk_atoms keys (Prefix.prefix s).1) ->
     Prefix.single_label A' s = Prefix.single_label keys s).
Proof.
  intros Hh E. destruct (insert_infix_chunks C keys hint l A' t k e Hh E) as (Ht & -> & -> & Hc).
  unfold Prefix.chunked_label, Prefix.single_label, Prefix.setkey_chunked, Prefix.setkey_single.
  cbn [Prefix.chunk Prefix.cbegin Prefix.cend Prefix.prefix Prefix.prefix_len fst snd].
  rewrite Ht, Nat.add_comm, Nat.add_sub, drop_app_length, take_ge by lia.
  split; [reflexivity|]. split; [reflexivity|]. split.
  - intros [c b en] Hle. cbn in Hle |- *.
    destruct (Nat.eq_dec c t) as [->|Hn]; [rewrite Ht | rewrite Hc by exact Hn; reflexivity].
    apply slice_app. lia.
  - intros [[c o] n] Hle. cbn in Hle |- *.
    destruct (Nat.eq_dec c t) as [->|Hn]; [rewrite Ht | rewrite Hc by exact Hn; reflexivity].
    apply slice_app. lia.
Qed.

(** Where [insert_infix] puts the atoms: in a fresh chunk appended to the
    arena holding exactly them, or at the end of an existing chunk only
    when that chunk then holds at most [CMinChunkSize] atoms; so with
    [CMinChunkSize = 0] a non-empty label always gets a chunk of its own. *)
Theorem insert_infix_placement (C : nat) (keys : Prefix.arena) (hint : option nat)
    (l : list Z) (A' : Prefix.arena) (t k e : nat) :
  match hint with Some h => h < length keys | None => True end ->
  insert_infix_arena C keys hint l = (A', (t, k, e)) ->
  ((t = length keys /\ A' = keys ++ [l]) \/
   (t < length keys /\ A' = <[t := Prefix.chunk_atoms keys t ++ l]> keys /\
    length (Prefix.chunk_atoms A' t) <= C)) /\
  (C = 0 -> l <> [] -> t = length keys /\ A' = keys ++ [l]).
Proof.
  intros Hh E. pose proof (insert_infix_chunks C keys hint l A' t k e Hh E) as (Ht & _).
  destruct (insert_infix_cases C keys hint l A' t k e Hh E)
    as [(-> & -> & -> & ->)|(Hlt & Hle & -> & -> & ->)].
  - split; [left; split; reflexivity|]. intros _ _. split; reflexivity.
  - split.
    + right. split; [exact Hlt|]. split; [reflexivity|]. rewrite Ht, length_app. exact Hle.
    + intros -> Hl. destruct l; [congruence|]. cbn in Hle. lia.
Qed.

Lemma node_find_iff {Slot : Type} (es : list (TrieNode Slot)) (nd : TrieNode Slot) (a : Z) (h : nat) :
  table_ok es (data nd) ->
  node_find es nd a = Some h <-> exists c, data nd !! h = Some (Some c) /\ first_atom es c = a.
Proof.
  intros [_ Hd]. split; [apply node_find_some|].
  intros (c & Hc & Ea). pose proof (Hd _ _ Hc) as Eh. rewrite Ea in Eh.
  pose proof (lookup_lt_Some _ _ _ Hc) as Hlt.
  unfold node_find. destruct (Nat.eqb_spec (length (data nd)) 0); [lia|].
  rewrite <- Eh, Hc. unfold starts_with. rewrite Ea, Z.eqb_refl. reflexivity.
Qed.

Section Extras2.
Context {Slot Val : Type} `{VH : ValueHolder Slot Val}.

Lemma reach_wf (ops : list (list Z * Val * (Val -> Val -> Val))) :
  Forall (fun o => Forall (fun a => is_char a = true) o.1.1) ops ->
  wf_trie (run_ops (@empty_trie Slot) ops).
Proof. intros Hch. exact (proj1 (reachable_ok ops Hch)). Qed.

(** [contains(k)] is [true] exactly when [get(k)] returns a non-null
    pointer, after any sequence of insertions. *)
Theorem contains_iff_get (ops : list (list Z * Val * (Val -> Val -> Val))) (q : list Z) :
  Forall (fun o => Forall (fun a => is_char a = true) o.1.1) ops ->
  contains (run_ops empty_trie ops) q = true <-> get (run_ops empty_trie ops) q <> None.
Proof.
  intros Hch. rewrite (contains_get _ q (reach_wf ops Hch)).
  destruct (get _ q); split; congruence.
Qed.

(** [insert(k, v, replace)] leaves [get] and [contains] of every other key
    as they were, whatever the policy [replace]. *)
Theorem insert_other_keys (ops : list (list Z * Val * (Val -> Val -> Val))) (k q : list Z)
    (v : Val) (r : Val -> Val -> Val) :
  Forall (fun o => Forall (fun a => is_char a = true) o.1.1) ops ->
  Forall (fun a => is_char a = true) k -> q <> k ->
  get (insert (run_ops empty_trie ops) k v r) q = get (run_ops empty_trie ops) q /\
  contains (insert (run_ops empty_trie ops) k v r) q = contains (run_ops empty_trie ops) q.
Proof.
  intros Hch Hk Hq.
  destruct (insert_get_contains _ k v r (reach_wf ops Hch) Hk) as (_ & _ & _ & Ho).
  exact (Ho q Hq).
Qed.

(** [size()] after [insert(k, ...)]: unchanged when [k] already bears a
    value; one more when no node of the trie ends exactly at [k]; in every
    case it grows by at most one. *)
Theorem insert_size_step (ops : list (list Z * Val * (Val -> Val -> Val))) (k : list Z)
    (v : Val) (r : Val -> Val -> Val) :
  Forall (fun o => Forall (fun a => is_char a = true) o.1.1) ops ->
  (get (run_ops empty_trie ops) k <> None ->
     size (insert (run_ops empty_trie ops) k v r) = size (run_ops empty_trie ops)) /\
  ((forall s, ~ At (edges (run_ops empty_trie ops)) k s) ->
     size (insert (run_ops empty_trie ops) k v r) = S (size (run_ops empty_trie ops))) /\
  (size (insert (run_ops empty_trie ops) k v r) = size (run_ops empty_trie ops) \/
   size (insert (run_ops empty_trie ops) k v r) = S (size (run_ops empty_trie ops))).
Proof.
  intros Hch. pose proof (reach_wf ops Hch) as Hw. unfold size.
  destruct (insert_msize _ k v r Hw) as [H1 H2].
  split; [|split].
  - intros Hg. destruct (get _ k) as [x|] eqn:E; [|congruence].
    exact (H1 (get_some_At _ k x Hw E)).
  - exact H2.
  - destruct (At_dec _ k Hw) as [Ha|Ha]; [left; exact (H1 Ha)|right; exact (H2 Ha)].
Qed.

(** [at(k)] throws [std::out_of_range] exactly when [contains(k)] is
    false, and otherwise returns the value [get(k)] points to;
    [operator[]] behaves the same. *)
Theorem at_throws_iff_absent (ops : list (list Z * Val * (Val -> Val -> Val))) (k : list Z) :
  Forall (fun o => Forall (fun a => is_char a = true) o.1.1) ops ->
  (at_ (run_ops empty_trie ops) k = inr out_of_range <-> contains (run_ops empty_trie ops) k = false) /\
  (forall x, at_ (run_ops empty_trie ops) k = inl x <-> get (run_ops empty_trie ops) k = Some x) /\
  index (run_ops empty_trie ops) k = at_ (run_ops empty_trie ops) k.
Proof.
  intros Hch. rewrite (contains_get _ k (reach_wf ops Hch)). unfold at_.
  split; [|split; [|reflexivity]].
  - destruct (get _ k); split; congruence.
  - intros x. destruct (get _ k); split; congruence.
Qed.

(** [TrieNode::find(x)] in any node of a trie built by insertions: it
    returns the slot [h] exactly when slot [h] holds a child whose label
    starts with [x]; so it returns null exactly when no child starts with [x]. *)
Theorem node_find_spec (ops : list (list Z * Val * (Val -> Val -> Val))) (x : nat)
    (nx : TrieNode Slot) (a : Z) (h : nat) :
  Forall (fun o => Forall (fun a => is_char a = true) o.1.1) ops ->
  edges (run_ops empty_trie ops) !! x = Some nx ->
  (node_find (edges (run_ops empty_trie ops)) nx a = Some h <->
   exists c, data nx !! h = Some (Some c) /\ first_atom (edges (run_ops empty_trie ops)) c = a).
Proof.
  intros Hch Hx. destruct (reach_wf ops Hch) as [E|Hw].
  - rewrite E in Hx. discriminate.
  - apply node_find_iff. exact (wf_table _ Hw x nx Hx).
Qed.

End Extras2.

(** [SetCounter] mode, [add(k, -c)] on a key whose count reads [c]: the
    count drops to zero, so [get(k)] is null and [contains(k)] false, yet
    [size()] stays the same (the node keeps its place). *)
Theorem add_negated_count_removes (ops : list (list Z * Z * (Z -> Z -> Z))) (k : list Z) (c : Z) :
  Forall (fun o => Forall (fun a => is_char a = true) o.1.1) ops ->
  Forall (fun a => is_char a = true) k ->
  get (run_ops (@empty_trie Z) ops) k = Some c ->
  get (add (run_ops (@empty_trie Z) ops) k (- c)%Z) k = None /\
  contains (add (run_ops (@empty_trie Z) ops) k (- c)%Z) k = false /\
  size (add (run_ops (@empty_trie Z) ops) k (- c)%Z) = size (run_ops (@empty_trie Z) ops).
Proof.
  intros Hch Hk Hg. pose proof (reach_wf (Slot:=Z) (Val:=Z) ops Hch) as Hw.
  unfold add. destruct (insert_get_contains _ k (- c)%Z int_add Hw Hk) as (_ & H1 & H2 & _).
  rewrite Hg in H1, H2.
  replace (int_add c (- c)) with 0%Z in H1, H2 by (unfold int_add; rewrite Z.add_opp_diag_r; reflexivity).
  split; [exact H1|]. split; [exact H2|].
  unfold size. exact (proj1 (insert_msize _ k (- c)%Z int_add Hw) (get_some_At _ k c Hw Hg)).
Qed.

(** [SetCounter] mode, [insert(k)] (that is [insert(k, 1)] with the
    policy [old = n]): afterwards [get(k)] reads [1] and [contains(k)] is
    true whatever [k] held; a second [insert(k)] changes neither [size()]
    nor [get] of any key. *)
Theorem set_insert_idempotent (ops : list (list Z * Z * (Z -> Z -> Z))) (k : list Z) :
  Forall (fun o => Forall (fun a => is_char a = true) o.1.1) ops ->
  Forall (fun a => is_char a = true) k ->
  get (insert_key (run_ops (@empty_trie Z) ops) k) k = Some 1%Z /\
  contains (insert_key (run_ops (@empty_trie Z) ops) k) k = true /\
  size (insert_key (insert_key (run_ops (@empty_trie Z) ops) k) k) =
    size (insert_key (run_ops (@empty_trie Z) ops) k) /\
  (forall q, get (insert_key (insert_key (run_ops (@empty_trie Z) ops) k) k) q =
             get (insert_key (run_ops (@empty_trie Z) ops) k) q).
Proof.
  intros Hch Hk. pose proof (reach_wf (Slot:=Z) (Val:=Z) ops Hch) as Hw.
  assert (Hone : forall st : trie_map Z, wf_trie st ->
    wf_trie (insert_key st k) /\ get (insert_key st k) k = Some 1%Z /\
    contains (insert_key st k) k = true /\
    forall q, q <> k -> get (insert_key st k) q = get st q).
  { intros st Hs. unfold insert_key, insert_assign.
    destruct (insert_get_contains st k 1%Z (fun _ n => n) Hs Hk) as (Hw1 & H1 & H2 & H3).
    split; [exact Hw1|]. split; [|split].
    - rewrite H1. destruct (get st k); reflexivity.
    - rewrite H2. destruct (get st k); reflexivity.
    - intros q Hq. exact (proj1 (H3 q Hq)). }
  destruct (Hone _ Hw) as (Hw1 & Hg1 & Hc1 & _).
  destruct (Hone _ Hw1) as (_ & Hg2 & _ & Ho2).
  split; [exact Hg1|]. split; [exact Hc1|]. split.
  - unfold size, insert_key, insert_assign.
    exact (proj1 (insert_msize _ k 1%Z (fun _ n => n) Hw1) (get_some_At _ k 1%Z Hw1 Hg1)).
  - intros q. destruct (List.list_eq_dec Z.eq_dec q k) as [->|Hq].
    + rewrite Hg2, Hg1. reflexivity.
    + exact (Ho2 q Hq).
Qed.

(** [atom_hash(x, size - 1)] for a table of [2^j] slots, [j <= 31], is
    [x mod 2^j], the value of the C++ expression with its [uint32_t] mask
    and [int] result: a slot of the table, also for negative [char]s. *)
Theorem atom_hash_slot (x : Z) (j : nat) (Hj : j <= 31) :
  cpp_atom_hash x (2 ^ Z.of_nat j - 1) = atom_hash x (2 ^ Z.of_nat j - 1) /\
  atom_hash x (2 ^ Z.of_nat j - 1) = (x mod 2 ^ Z.of_nat j)%Z /\
  (0 <= atom_hash x (2 ^ Z.of_nat j - 1) < 2 ^ Z.of_nat j)%Z /\
  slot_of x (2 ^ j) < 2 ^ j.
Proof.
  assert (Hp : (0 < 2 ^ Z.of_nat j)%Z) by (apply Z.pow_pos_nonneg; lia).
  assert (Hle : (2 ^ Z.of_nat j <= 2 ^ 31)%Z) by (apply Z.pow_le_mono_r; lia).
  assert (Ho : (2 ^ Z.of_nat j - 1)%Z = Z.ones (Z.of_nat j)) by (rewrite Z.ones_equiv; lia).
  assert (E : atom_hash x (2 ^ Z.of_nat j - 1) = (x mod 2 ^ Z.of_nat j)%Z).
  { unfold atom_hash. rewrite Ho. apply Z.land_ones. lia. }
  assert (Hb : (0 <= x mod 2 ^ Z.of_nat j < 2 ^ Z.of_nat j)%Z) by (apply Z.mod_pos_bound; lia).
  split; [|split; [exact E|split; [rewrite E; exact Hb|apply slot_of_pow2_lt]]].
  unfold cpp_atom_hash. rewrite E.
  rewrite (Z.mod_small (2 ^ Z.of_nat j - 1)) by lia.
  rewrite Ho, Z.land_ones by lia.
  assert (Hd : (2 ^ Z.of_nat j | 2 ^ 32)%Z).
  { replace (2 ^ 32)%Z with (2 ^ Z.of_nat j * 2 ^ (32 - Z.of_nat j))%Z
      by (rewrite <- Z.pow_add_r by lia; f_equal; lia).
    apply Z.divide_factor_l. }
  rewrite (Z.mod_mod_divide x) by (exact Hd || lia).
  destruct (Z.ltb_spec (x mod 2 ^ Z.of_nat j) (2 ^ 31)); [reflexivity | lia].
Qed.

(** [atom_hash_slot] at [x = -1], [j = 8]: the C++ hash of [-1] under the
    mask [255] is slot [255]. *)
Lemma atom_hash_slot_witness :
  8 <= 31 /\ cpp_atom_hash (-1) (2 ^ Z.of_nat 8 - 1) = 255%Z.
Proof.
  split; [lia|].
  destruct (atom_hash_slot (-1) 8 ltac:(lia)) as (H1 & H2 & _).
  rewrite H1, H2. reflexivity.
Defined.

(** [least_uncolliding_size(a, b)] for two different [char]s: a power of
    two [2^j] with [1 <= j <= 8], a table size that puts [a] and [b] in
    different slots, and the least such: every smaller power of two
    hashes them to the same slot. *)
Theorem least_uncolliding_size_least (a b : Z) :
  is_char a = true -> is_char b = true -> a <> b ->
  exists j : nat, 1 <= j <= 8 /\ least_uncolliding_size a b = Z.of_nat (2 ^ j) /\
    slot_of a (2 ^ j) <> slot_of b (2 ^ j) /\
    forall i, i < j -> slot_of a (2 ^ i) = slot_of b (2 ^ i).
Proof.
  intros Ha Hb Hab. destruct (least_char_spec a b Ha Hb Hab) as (j & Hj & E & Hne & Heq & _).
  exists j. split; [exact Hj|]. split; [rewrite E, Nat2Z.inj_pow; reflexivity|]. split.
  - rewrite slot_of_pow2_eq. exact Hne.
  - intros i Hi. apply slot_of_pow2_eq. apply (mod_pow2_down _ _ i (j - 1)); [lia | exact Heq].
Qed.

(** [TrieNode::put(edge)] on a node whose table is placed by first atom,
    for an edge whose first atom no child has: the table then holds the old
    children and the edge, and [find] on the first atom of each of them
    returns its slot; no child is lost when the table grows. *)
Theorem put_then_find {Slot : Type} (es : list (TrieNode Slot)) (lab : list Z) (s : Slot)
    (d : list (option nat)) (N : nat) :
  table_ok es d ->
  (forall c, in_table d c -> is_char (first_atom es c) = true) ->
  is_char (first_atom es N) = true ->
  (forall c, in_table d c -> first_atom es c <> first_atom es N) ->
  (forall c, in_table (put_table es d N) c <-> in_table d c \/ c = N) /\
  (forall c, in_table d c \/ c = N -> exists h,
     node_find es (mk_node lab s (put_table es d N)) (first_atom es c) = Some h /\
     put_table es d N !! h = Some (Some c)).
Proof.
  intros Hok Hch HN Hfr. destruct (put_table_spec es d N Hok Hch HN Hfr) as (Hok' & Hin & _).
  split; [exact Hin|]. intros c Hc. apply Hin in Hc as [h Hh]. exists h. split; [|exact Hh].
  apply (node_find_iff es (mk_node lab s (put_table es d N))); [exact Hok'|].
  exists c. split; [exact Hh|reflexivity].
Qed.

(** Witnesses of the further properties on concrete runs. *)

(** [insert("ab", 1); insert("ad", 2)], then [find("ab")]. *)
Lemma find_present_key_witness :
  Forall (fun o : list Z * Z * (Z -> Z -> Z) => Forall (fun a => is_char a = true) o.1.1)
    [(str "ab", 1%Z, fun _ n => n); (str "ad", 2%Z, fun _ n => n)] /\
  get (run_ops (@empty_trie (option Z)) [(str "ab", 1%Z, fun _ n => n); (str "ad", 2%Z, fun _ n => n)])
    (str "ab") = Some 1%Z /\
  exists impl,
    find (run_ops (@empty_trie (option Z)) [(str "ab", 1%Z, fun _ n => n); (str "ad", 2%Z, fun _ n => n)])
      (str "ab") = Some (iter impl) /\
    get_key_str (edges (run_ops (@empty_trie (option Z))
      [(str "ab", 1%Z, fun _ n => n); (str "ad", 2%Z, fun _ n => n)])) impl = Some (str "ab") /\
    iter_value (edges (run_ops (@empty_trie (option Z))
      [(str "ab", 1%Z, fun _ n => n); (str "ad", 2%Z, fun _ n => n)])) impl = Some 1%Z.
Proof.
  assert (Hch : Forall (fun o : list Z * Z * (Z -> Z -> Z) => Forall (fun a => is_char a = true) o.1.1)
    [(str "ab", 1%Z, fun _ n => n); (str "ad", 2%Z, fun _ n => n)]) by (repeat constructor).
  assert (Hg : get (run_ops (@empty_trie (option Z))
      [(str "ab", 1%Z, fun _ n => n); (str "ad", 2%Z, fun _ n => n)]) (str "ab") = Some 1%Z)
    by (vm_compute; reflexivity).
  split; [exact Hch|]. split; [exact Hg|].
  exact (find_present_key (Slot:=option Z) (Val:=Z) _ _ _ Hch Hg).
Defined.

(** [CMinChunkSize = 4]: the atoms ["c"] appended to the hinted chunk ["ab"]. *)
Lemma insert_infix_label_roundtrip_witness :
  (0 < length [[97; 98]%Z]) /\
  insert_infix_arena 4 [[97; 98]%Z] (Some 0) [99%Z] = ([[97; 98; 99]%Z], (0, 2, 3)) /\
  Prefix.chunked_label [[97; 98; 99]%Z] (Prefix.setkey_chunked 0 2 3) = [99%Z] /\
  Prefix.single_label [[97; 98; 99]%Z] (Prefix.setkey_single 0 2 3) = [99%Z] /\
  (forall h : Prefix.chunked,
     Prefix.cend h <= length (Prefix.chunk_atoms [[97; 98]%Z] (Prefix.chunk h)) ->
     Prefix.chunked_label [[97; 98; 99]%Z] h = Prefix.chunked_label [[97; 98]%Z] h) /\
  (forall s : Prefix.single,
     (Prefix.prefix s).2 + Prefix.prefix_len s <=
       length (Prefix.chunk_atoms [[97; 98]%Z] (Prefix.prefix s).1) ->
     Prefix.single_label [[97; 98; 99]%Z] s = Prefix.single_label [[97; 98]%Z] s).
Proof.
  assert (E : insert_infix_arena 4 [[97; 98]%Z] (Some 0) [99%Z] = ([[97; 98; 99]%Z], (0, 2, 3)))
    by reflexivity.
  split; [cbn; lia|]. split; [exact E|].
  exact (insert_infix_label_roundtrip 4 [[97; 98]%Z] (Some 0) [99%Z] _ _ _ _ ltac:(cbn; lia) E).
Defined.

(** [CMinChunkSize = 2]: ["c"] does not fit in the chunk ["ab"] and gets a
    fresh chunk. *)
Lemma insert_infix_placement_witness :
  (0 < length [[97; 98]%Z]) /\
  insert_infix_arena 2 [[97; 98]%Z] (Some 0) [99%Z] = ([[97; 98]; [99]]%Z, (1, 0, 1)) /\
  ((1 = length [[97; 98]%Z] /\ [[97; 98]; [99]]%Z = [[97; 98]%Z] ++ [[99%Z]]) \/
   (1 < length [[97; 98]%Z] /\
    [[97; 98]; [99]]%Z = <[1 := Prefix.chunk_atoms [[97; 98]%Z] 1 ++ [99%Z]]> [[97; 98]%Z] /\
    length (Prefix.chunk_atoms [[97; 98]; [99]]%Z 1) <= 2)) /\
  (2 = 0 -> [99%Z] <> [] -> 1 = length [[97; 98]%Z] /\ [[97; 98]; [99]]%Z = [[97; 98]%Z] ++ [[99%Z]]).
Proof.
  assert (E : insert_infix_arena 2 [[97; 98]%Z] (Some 0) [99%Z] = ([[97; 98]; [99]]%Z, (1, 0, 1)))
    by reflexivity.
  split; [cbn; lia|]. split; [exact E|].
  exact (insert_infix_placement 2 [[97; 98]%Z] (Some 0) [99%Z] _ _ _ _ ltac:(cbn; lia) E).
Defined.

(** [insert("ab", 1); insert("ad", 2)]: the key ["a"] ends at the
    valueless node of the split. *)
Lemma contains_iff_get_witness :
  Forall (fun o : list Z * Z * (Z -> Z -> Z) => Forall (fun a => is_char a = true) o.1.1)
    [(str "ab", 1%Z, fun _ n => n); (str "ad", 2%Z, fun _ n => n)] /\
  (contains (run_ops (@empty_trie (option Z)) [(str "ab", 1%Z, fun _ n => n); (str "ad", 2%Z, fun _ n => n)])
     (str "a") = true <->
   get (run_ops (@empty_trie (option Z)) [(str "ab", 1%Z, fun _ n => n); (str "ad", 2%Z, fun _ n => n)])
     (str "a") <> None).
Proof.
  assert (Hch : Forall (fun o : list Z * Z * (Z -> Z -> Z) => Forall (fun a => is_char a = true) o.1.1)
    [(str "ab", 1%Z, fun _ n => n); (str "ad", 2%Z, fun _ n => n)]) by (repeat constructor).
  split; [exact Hch|]. exact (contains_iff_get (Slot:=option Z) (Val:=Z) _ _ Hch).
Defined.

(** The same run, then [insert("a", 3)]: ["ab"] is untouched. *)
Lemma insert_other_keys_witness :
  Forall (fun o : list Z * Z * (Z -> Z -> Z) => Forall (fun a => is_char a = true) o.1.1)
    [(str "ab", 1%Z, fun _ n => n); (str "ad", 2%Z, fun _ n => n)] /\
  Forall (fun a => is_char a = true) (str "a") /\ str "ab" <> str "a" /\
  get (insert (run_ops (@empty_trie (option Z)) [(str "ab", 1%Z, fun _ n => n); (str "ad", 2%Z, fun _ n => n)])
         (str "a") 3%Z (fun _ n => n)) (str "ab") =
    get (run_ops (@empty_trie (option Z)) [(str "ab", 1%Z, fun _ n => n); (str "ad", 2%Z, fun _ n => n)])
      (str "ab") /\
  contains (insert (run_ops (@empty_trie (option Z)) [(str "ab", 1%Z, fun _ n => n); (str "ad", 2%Z, fun _ n => n)])
         (str "a") 3%Z (fun _ n => n)) (str "ab") =
    contains (run_ops (@empty_trie (option Z)) [(str "ab", 1%Z, fun _ n => n); (str "ad", 2%Z, fun _ n => n)])
      (str "ab").
Proof.
  assert (Hch : Forall (fun o : list Z * Z * (Z -> Z -> Z) => Forall (fun a => is_char a = true) o.1.1)
    [(str "ab", 1%Z, fun _ n => n); (str "ad", 2%Z, fun _ n => n)]) by (repeat constructor).
  assert (Hk : Forall (fun a => is_char a = true) (str "a")) by (repeat constructor).
  assert (Hq : str "ab" <> str "a") by discriminate.
  split; [exact Hch|]. split; [exact Hk|]. split; [exact Hq|].
  exact (insert_other_keys (Slot:=option Z) (Val:=Z) _ _ _ _ _ Hch Hk Hq).
Defined.

(** The same run, then [insert("ac", 3)]: no node ends at ["ac"]. *)
Lemma insert_size_step_witness :
  Forall (fun o : list Z * Z * (Z -> Z -> Z) => Forall (fun a => is_char a = true) o.1.1)
    [(str "ab", 1%Z, fun _ n => n); (str "ad", 2%Z, fun _ n => n)] /\
  size (insert (run_ops (@empty_trie (option Z)) [(str "ab", 1%Z, fun _ n => n); (str "ad", 2%Z, fun _ n => n)])
          (str "ac") 3%Z (fun _ n => n)) = 3 /\
  ((get (run_ops (@empty_trie (option Z)) [(str "ab", 1%Z, fun _ n => n); (str "ad", 2%Z, fun _ n => n)])
      (str "ac") <> None ->
    size (insert (run_ops (@empty_trie (option Z)) [(str "ab", 1%Z, fun _ n => n); (str "ad", 2%Z, fun _ n => n)])
          (str "ac") 3%Z (fun _ n => n)) =
    size (run_ops (@empty_trie (option Z)) [(str "ab", 1%Z, fun _ n => n); (str "ad", 2%Z, fun _ n => n)])) /\
   ((forall s, ~ At (edges (run_ops (@empty_trie (option Z))
                  [(str "ab", 1%Z, fun _ n => n); (str "ad", 2%Z, fun _ n => n)])) (str "ac") s) ->
    size (insert (run_ops (@empty_trie (option Z)) [(str "ab", 1%Z, fun _ n => n); (str "ad", 2%Z, fun _ n => n)])
          (str "ac") 3%Z (fun _ n => n)) =
    S (size (run_ops (@empty_trie (option Z)) [(str "ab", 1%Z, fun _ n => n); (str "ad", 2%Z, fun _ n => n)]))) /\
   (size (insert (run_ops (@empty_trie (option Z)) [(str "ab", 1%Z, fun _ n => n); (str "ad", 2%Z, fun _ n => n)])
          (str "ac") 3%Z (fun _ n => n)) =
    size (run_ops (@empty_trie (option Z)) [(str "ab", 1%Z, fun _ n => n); (str "ad", 2%Z, fun _ n => n)]) \/
    size (insert (run_ops (@empty_trie (option Z)) [(str "ab", 1%Z, fun _ n => n); (str "ad", 2%Z, fun _ n => n)])
          (str "ac") 3%Z (fun _ n => n)) =
    S (size (run_ops (@empty_trie (option Z)) [(str "ab", 1%Z, fun _ n => n); (str "ad", 2%Z, fun _ n => n)])))).
Proof.
  assert (Hch : Forall (fun o : list Z * Z * (Z -> Z -> Z) => Forall (fun a => is_char a = true) o.1.1)
    [(str "ab", 1%Z, fun _ n => n); (str "ad", 2%Z, fun _ n => n)]) by (repeat constructor).
  split; [exact Hch|]. split; [vm_compute; reflexivity|].
  exact (insert_size_step (Slot:=option Z) (Val:=Z) _ _ _ _ Hch).
Defined.

(** The same run: [at("a")] throws, [at("ad")] returns [2]. *)
Lemma at_throws_iff_absent_witness :
  Forall (fun o : list Z * Z * (Z -> Z -> Z) => Forall (fun a => is_char a = true) o.1.1)
    [(str "ab", 1%Z, fun _ n => n); (str "ad", 2%Z, fun _ n => n)] /\
  at_ (run_ops (@empty_trie (option Z)) [(str "ab", 1%Z, fun _ n => n); (str "ad", 2%Z, fun _ n => n)])
    (str "a") = inr out_of_range /\
  contains (run_ops (@empty_trie (option Z)) [(str "ab", 1%Z, fun _ n => n); (str "ad", 2%Z, fun _ n => n)])
    (str "a") = false /\
  at_ (run_ops (@empty_trie (option Z)) [(str "ab", 1%Z, fun _ n => n); (str "ad", 2%Z, fun _ n => n)])
    (str "ad") = inl 2%Z.
Proof.
  assert (Hch : Forall (fun o : list Z * Z * (Z -> Z -> Z) => Forall (fun a => is_char a = true) o.1.1)
    [(str "ab", 1%Z, fun _ n => n); (str "ad", 2%Z, fun _ n => n)]) by (repeat constructor).
  destruct (at_throws_iff_absent (Slot:=option Z) (Val:=Z) _ (str "a") Hch) as ([_ Ha] & _ & _).
  destruct (at_throws_iff_absent (Slot:=option Z) (Val:=Z) _ (str "ad") Hch) as (_ & Hd & _).
  assert (Hc : contains (run_ops (@empty_trie (option Z))
      [(str "ab", 1%Z, fun _ n => n); (str "ad", 2%Z, fun _ n => n)]) (str "a") = false)
    by (vm_compute; reflexivity).
  split; [exact Hch|]. split; [exact (Ha Hc)|]. split; [exact Hc|].
  apply Hd. vm_compute. reflexivity.
Defined.

(** The same run: the root's [find('b')] is slot [2], holding node 1. *)
Lemma node_find_spec_witness :
  Forall (fun o : list Z * Z * (Z -> Z -> Z) => Forall (fun a => is_char a = true) o.1.1)
    [(str "ab", 1%Z, fun _ n => n); (str "ad", 2%Z, fun _ n => n)] /\
  edges (run_ops (@empty_trie (option Z)) [(str "ab", 1%Z, fun _ n => n); (str "ad", 2%Z, fun _ n => n)])
    !! 0 = Some (mk_node (str "a") None [Some 2; None; Some 1; None]) /\
  node_find (edges (run_ops (@empty_trie (option Z))
      [(str "ab", 1%Z, fun _ n => n); (str "ad", 2%Z, fun _ n => n)]))
    (mk_node (str "a") None [Some 2; None; Some 1; None]) 98%Z = Some 2.
Proof.
  assert (Hch : Forall (fun o : list Z * Z * (Z -> Z -> Z) => Forall (fun a => is_char a = true) o.1.1)
    [(str "ab", 1%Z, fun _ n => n); (str "ad", 2%Z, fun _ n => n)]) by (repeat constructor).
  assert (Hx : edges (run_ops (@empty_trie (option Z))
                 [(str "ab", 1%Z, fun _ n => n); (str "ad", 2%Z, fun _ n => n)])
    !! 0 = Some (mk_node (str "a") None [Some 2; None; Some 1; None])) by (vm_compute; reflexivity).
  split; [exact Hch|]. split; [exact Hx|].
  apply (node_find_spec (Slot:=option Z) (Val:=Z) _ 0 _ 98%Z 2 Hch Hx).
  exists 1. split; [reflexivity|]. vm_compute. reflexivity.
Defined.

(** A counter trie after [add("x"); add("x")]: [add("x", -2)]. *)
Lemma add_negated_count_removes_witness :
  Forall (fun o : list Z * Z * (Z -> Z -> Z) => Forall (fun a => is_char a = true) o.1.1)
    [(str "x", 1%Z, int_add); (str "x", 1%Z, int_add)] /\
  Forall (fun a => is_char a = true) (str "x") /\
  get (run_ops (@empty_trie Z) [(str "x", 1%Z, int_add); (str "x", 1%Z, int_add)]) (str "x") = Some 2%Z /\
  get (add (run_ops (@empty_trie Z) [(str "x", 1%Z, int_add); (str "x", 1%Z, int_add)]) (str "x") (- 2)%Z)
    (str "x") = None /\
  contains (add (run_ops (@empty_trie Z) [(str "x", 1%Z, int_add); (str "x", 1%Z, int_add)]) (str "x") (- 2)%Z)
    (str "x") = false /\
  size (add (run_ops (@empty_trie Z) [(str "x", 1%Z, int_add); (str "x", 1%Z, int_add)]) (str "x") (- 2)%Z) =
    size (run_ops (@empty_trie Z) [(str "x", 1%Z, int_add); (str "x", 1%Z, int_add)]).
Proof.
  assert (Hch : Forall (fun o : list Z * Z * (Z -> Z -> Z) => Forall (fun a => is_char a = true) o.1.1)
    [(str "x", 1%Z, int_add); (str "x", 1%Z, int_add)]) by (repeat constructor).
  assert (Hk : Forall (fun a => is_char a = true) (str "x")) by (repeat constructor).
  assert (Hg : get (run_ops (@empty_trie Z) [(str "x", 1%Z, int_add); (str "x", 1%Z, int_add)]) (str "x")
    = Some 2%Z) by (vm_compute; reflexivity).
  split; [exact Hch|]. split; [exact Hk|]. split; [exact Hg|].
  exact (add_negated_count_removes _ _ _ Hch Hk Hg).
Defined.

(** A counter trie after [add("x"); add("x")]: [insert("x")] twice. *)
Lemma set_insert_idempotent_witness :
  Forall (fun o : list Z * Z * (Z -> Z -> Z) => Forall (fun a => is_char a = true) o.1.1)
    [(str "x", 1%Z, int_add); (str "x", 1%Z, int_add)] /\
  Forall (fun a => is_char a = true) (str "x") /\
  get (insert_key (run_ops (@empty_trie Z) [(str "x", 1%Z, int_add); (str "x", 1%Z, int_add)]) (str "x"))
    (str "x") = Some 1%Z /\
  contains (insert_key (run_ops (@empty_trie Z) [(str "x", 1%Z, int_add); (str "x", 1%Z, int_add)]) (str "x"))
    (str "x") = true /\
  size (insert_key (insert_key (run_ops (@empty_trie Z) [(str "x", 1%Z, int_add); (str "x", 1%Z, int_add)])
          (str "x")) (str "x")) =
    size (insert_key (run_ops (@empty_trie Z) [(str "x", 1%Z, int_add); (str "x", 1%Z, int_add)]) (str "x")) /\
  (forall q, get (insert_key (insert_key (run_ops (@empty_trie Z)
                 [(str "x", 1%Z, int_add); (str "x", 1%Z, int_add)]) (str "x")) (str "x")) q =
             get (insert_key (run_ops (@empty_trie Z)
                 [(str "x", 1%Z, int_add); (str "x", 1%Z, int_add)]) (str "x")) q).
Proof.
  assert (Hch : Forall (fun o : list Z * Z * (Z -> Z -> Z) => Forall (fun a => is_char a = true) o.1.1)
    [(str "x", 1%Z, int_add); (str "x", 1%Z, int_add)]) by (repeat constructor).
  assert (Hk : Forall (fun a => is_char a = true) (str "x")) by (repeat constructor).
  split; [exact Hch|]. split; [exact Hk|].
  exact (set_insert_idempotent _ _ Hch Hk).
Defined.

(** The atoms ['b'] and ['d'] (98 and 100) first differ at bit 1: a table
    of 4 slots. *)
Lemma least_uncolliding_size_least_witness :
  is_char 98 = true /\ is_char 100 = true /\ 98%Z <> 100%Z /\
  exists j : nat, 1 <= j <= 8 /\ least_uncolliding_size 98 100 = Z.of_nat (2 ^ j) /\
    slot_of 98 (2 ^ j) <> slot_of 100 (2 ^ j) /\
    forall i, i < j -> slot_of 98 (2 ^ i) = slot_of 100 (2 ^ i).
Proof.
  split; [reflexivity|]. split; [reflexivity|]. split; [discriminate|].
  exact (least_uncolliding_size_least 98 100 eq_refl eq_refl ltac:(discriminate)).
Defined.

(** A node whose table [[node "b"; null]] has 2 slots, then [put] of the
    node "d", which collides with "b": the table grows to 4 slots. *)
Lemma put_then_find_witness :
  table_ok [mk_node [] (@None Z) []; mk_node (str "b") None []; mk_node (str "d") None []]
    [Some 1; None] /\
  put_table [mk_node [] (@None Z) []; mk_node (str "b") None []; mk_node (str "d") None []]
    [Some 1; None] 2 = [Some 2; None; Some 1; None] /\
  (forall c, in_table [Some 2; None; Some 1; None] c <-> in_table [Some 1; None] c \/ c = 2) /\
  (forall c, in_table [Some 1; None] c \/ c = 2 -> exists h,
     node_find [mk_node [] (@None Z) []; mk_node (str "b") None []; mk_node (str "d") None []]
       (mk_node (str "a") None [Some 2; None; Some 1; None])
       (first_atom [mk_node [] (@None Z) []; mk_node (str "b") None []; mk_node (str "d") None []] c)
       = Some h /\
     [Some 2; None; Some 1; None] !! h = Some (Some c)).
Proof.
  assert (Hok : table_ok [mk_node [] (@None Z) []; mk_node (str "b") None []; mk_node (str "d") None []]
    [Some 1; None]).
  { split; [right; exists 1; reflexivity|].
    intros h c E. destruct h as [|[|h]]; cbn in E; try discriminate.
    injection E as <-. vm_compute. reflexivity. }
  assert (Hd : forall c, in_table [Some 1; None] c -> c = 1).
  { intros c [h E]. destruct h as [|[|h]]; cbn in E; try discriminate. congruence. }
  assert (Hp : put_table [mk_node [] (@None Z) []; mk_node (str "b") None []; mk_node (str "d") None []]
    [Some 1; None] 2 = [Some 2; None; Some 1; None]) by (vm_compute; reflexivity).
  destruct (put_then_find [mk_node [] (@None Z) []; mk_node (str "b") None []; mk_node (str "d") None []]
              (str "a") None [Some 1; None] 2 Hok) as [H1 H2].
  - intros c Hc. rewrite (Hd c Hc). reflexivity.
  - reflexivity.
  - intros c Hc. rewrite (Hd c Hc). vm_compute. discriminate.
  - rewrite Hp in H1, H2. split; [exact Hok|]. split; [exact Hp|]. split; [exact H1|exact H2].
Defined.

(** ** Depth-first order of cursor positions *)

Lemma lexlt_irrefl (l : list nat) : ~ lexlt l l.
Proof.
  induction l as [|a l IH]; intros H; inversion H; subst; [lia | contradiction].
Qed.

Lemma lexlt_trans (l1 l2 l3 : list nat) : lexlt l1 l2 -> lexlt l2 l3 -> lexlt l1 l3.
Proof.
  intros H12. revert l3. induction H12 as [b r|a b r r' Hab|a r r' H IH]; intros l3 H23.
  - inversion H23; subst; constructor.
  - inversion H23; subst; apply lex_lt; lia.
  - inversion H23; subst.
    + apply lex_lt. lia.
    + apply lex_cons. apply IH. assumption.
Qed.

Lemma lexlt_total (l l' : list nat) : l <> l' -> lexlt l l' \/ lexlt l' l.
Proof.
  revert l'. induction l as [|a l IH]; intros [|b l'] Hne.
  - congruence.
  - left. constructor.
  - right. constructor.
  - destruct (Nat.lt_trichotomy a b) as [Hab|[->|Hab]].
    + left. apply lex_lt. exact Hab.
    + assert (l <> l') by congruence.
      destruct (IH l' H); [left|right]; apply lex_cons; assumption.
    + right. apply lex_lt. exact Hab.
Qed.

Lemma lexlt_ext (l u : list nat) : u <> [] -> lexlt l (l ++ u).
Proof.
  intros Hu. induction l as [|a l IH]; cbn.
  - destruct u; [congruence|constructor].
  - apply lex_cons. exact IH.
Qed.

Lemma lexlt_div (pre r r' : list nat) (a b : nat) : a < b -> lexlt (pre ++ a :: r) (pre ++ b :: r').
Proof.
  intros Hab. induction pre as [|c pre IH]; cbn; [apply lex_lt; exact Hab | apply lex_cons; exact IH].
Qed.

Lemma lexlt_inv (l l' : list nat) :
  lexlt l l' ->
  (exists u, u <> [] /\ l' = l ++ u) \/
  (exists pre a b r r', a < b /\ l = pre ++ a :: r /\ l' = pre ++ b :: r').
Proof.
  induction 1 as [b r|a b r r' Hab|a r r' H IH].
  - left. exists (b :: r). split; [discriminate | reflexivity].
  - right. exists [], a, b, r, r'. auto.
  - destruct IH as [(u & Hu & ->)|(pre & a' & b' & q & q' & Hab & -> & ->)].
    + left. exists u. auto.
    + right. exists (a :: pre), a', b', q, q'. auto.
Qed.

(** [ts] is after [ss] without extending it: the first difference is a
    larger slot. *)
Lemma snoc_split (ss0 pre r : list nat) (s a : nat) :
  ss0 ++ [s] = pre ++ a :: r ->
  (pre = ss0 /\ a = s /\ r = []) \/ (exists r0, ss0 = pre ++ a :: r0 /\ r = r0 ++ [s]).
Proof.
  intros E. destruct r as [|x r0] using rev_ind.
  - apply app_inj_tail in E as [-> ->]. left. auto.
  - rewrite app_comm_cons, app_assoc in E. apply app_inj_tail in E as [-> ->].
    right. exists r0. auto.
Qed.

Lemma le_ext (l u : list nat) : l ++ u = l \/ lexlt l (l ++ u).
Proof. destruct u as [|x u]; [left; apply app_nil_r | right; apply lexlt_ext; discriminate]. Qed.

Section Walk.
Context {Slot : Type}.
Variable es : list (TrieNode Slot).

Lemma walk_app (x : nat) (ss ts : list nat) :
  walk es x (ss ++ ts) = match walk es x ss with Some y => walk es y ts | None => None end.
Proof.
  revert x. induction ss as [|s ss IH]; intros x; cbn; [reflexivity|].
  destruct (ptr_value es (x, s)); [apply IH | reflexivity].
Qed.

Lemma walk_snoc (x : nat) (ss : list nat) (s : nat) :
  walk es x (ss ++ [s]) = match walk es x ss with Some y => ptr_value es (y, s) | None => None end.
Proof.
  rewrite walk_app. destruct (walk es x ss) as [y|]; [|reflexivity]. cbn.
  destruct (ptr_value es (y, s)); reflexivity.
Qed.

Lemma ptrs_of_snoc (x : nat) (ss : list nat) (s y : nat) :
  walk es x ss = Some y -> ptrs_of es x (ss ++ [s]) = ptrs_of es x ss ++ [(y, s)].
Proof.
  revert x. induction ss as [|t ss IH]; intros x Hy; cbn in Hy |- *.
  - injection Hy as ->. destruct (ptr_value es (y, s)); reflexivity.
  - destruct (ptr_value es (x, t)) as [c|]; [|discriminate]. rewrite (IH c Hy). reflexivity.
Qed.

Lemma skey_snoc (x : nat) (ss : list nat) (s y c : nat) :
  walk es x ss = Some y -> ptr_value es (y, s) = Some c ->
  skey es x (ss ++ [s]) =
    skey es x ss ++ match es !! c with Some nc => label nc | None => [] end.
Proof.
  revert x. induction ss as [|t ss IH]; intros x Hy Hc; cbn in Hy |- *.
  - injection Hy as ->. rewrite Hc. cbn [skey]. rewrite !app_nil_r. reflexivity.
  - destruct (ptr_value es (x, t)) as [c'|]; [|discriminate].
    rewrite (IH c' Hy Hc), app_assoc. reflexivity.
Qed.

Lemma ptr_value_in (x s c : nat) :
  ptr_value es (x, s) = Some c -> exists nx, es !! x = Some nx /\ data nx !! s = Some (Some c).
Proof.
  unfold ptr_value. cbn. destruct (es !! x) as [nx|]; [|discriminate].
  destruct (data nx !! s) as [o|] eqn:E; [|discriminate]. intros ->. eauto.
Qed.

Lemma iget_snoc0 (b : list Z) (r : option nat) (l : list (nat * nat)) (p : nat * nat) :
  iget es (mk_iter b r (l ++ [p])) 0 = ptr_value es p.
Proof. exact (iget_push es (mk_iter b r l) p). Qed.

Lemma iget_snoc1 (b : list Z) (r : option nat) (l : list (nat * nat)) (p : nat * nat) :
  iget es (mk_iter b r (l ++ [p])) (-1) = iget es (mk_iter b r l) 0.
Proof.
  unfold iget. cbn [m_ptrs m_root]. rewrite length_app. cbn [length].
  replace (Z.of_nat (length l + 1) + -1)%Z with (Z.of_nat (length l) + 0)%Z by lia.
  destruct (Z.ltb_spec 0 (Z.of_nat (length l) + 0)); [|reflexivity].
  rewrite lookup_app_l by lia. reflexivity.
Qed.

Lemma iget_cursor (b : list Z) (ss : list nat) (y : nat) :
  walk es 0 ss = Some y -> iget es (mk_iter b (Some 0) (ptrs_of es 0 ss)) 0 = Some y.
Proof.
  destruct ss as [|s ss0] using rev_ind; intros Hy.
  - cbn in Hy. injection Hy as <-. reflexivity.
  - rewrite walk_snoc in Hy. destruct (walk es 0 ss0) as [p|] eqn:Ep; [|discriminate].
    rewrite (ptrs_of_snoc 0 ss0 s p Ep), iget_snoc0. exact Hy.
Qed.

End Walk.

Section WalkWf.
Context {Slot : Type}.
Variable es : list (TrieNode Slot).
Hypothesis Hw : wf es.

Lemma walk_lookup (ss : list nat) : forall x y,
  is_Some (es !! x) -> walk es x ss = Some y -> is_Some (es !! y).
Proof.
  induction ss as [|s ss IH]; intros x y Hx Hy; cbn in Hy.
  - injection Hy as <-. exact Hx.
  - destruct (ptr_value es (x, s)) as [c|] eqn:Ec; [|discriminate].
    destruct (ptr_value_in es x s c Ec) as (nx & Hnx & Hs).
    destruct (wf_child es Hw x nx c Hnx (ex_intro _ s Hs)) as [Hlt _].
    exact (IH c y (lookup_lt_is_Some_2 _ _ Hlt) Hy).
Qed.

Lemma walk_root_lookup (ss : list nat) (y : nat) : walk es 0 ss = Some y -> is_Some (es !! y).
Proof. apply walk_lookup. apply lookup_lt_is_Some_2. exact (wf_root es Hw). Qed.

Lemma get_key_str_cursor (ss : list nat) (y : nat) :
  walk es 0 ss = Some y ->
  get_key_str es (mk_iter [] (Some 0) (ptrs_of es 0 ss)) = Some (skey es 0 ss).
Proof.
  revert y. induction ss as [|s ss0 IH] using rev_ind; intros y Hy.
  - destruct (lookup_lt_is_Some_2 es 0 (wf_root es Hw)) as [root Hr].
    unfold get_key_str. cbn [m_root m_ptrs base_prefix ptrs_of skey]. rewrite Hr.
    cbn. rewrite app_nil_r. reflexivity.
  - rewrite walk_snoc in Hy. destruct (walk es 0 ss0) as [p|] eqn:Ep; [|discriminate].
    destruct (walk_root_lookup (ss0 ++ [s]) y ltac:(rewrite walk_snoc, Ep; exact Hy)) as [ny Hny].
    rewrite (ptrs_of_snoc es 0 ss0 s p Ep), (skey_snoc es 0 ss0 s p y Ep Hy), Hny.
    exact (get_key_str_push es (mk_iter [] (Some 0) (ptrs_of es 0 ss0)) (p, s) _ y ny
             (IH p eq_refl) Hy Hny).
Qed.

Lemma skey_head (c : nat) (nc : TrieNode Slot) (a : Z) (r : list Z) (ss : list nat) :
  es !! c = Some nc -> label nc = a :: r -> skey es c ss = a :: drop 1 (skey es c ss).
Proof. intros Hc Hl. destruct ss; cbn [skey]; rewrite Hc, Hl; reflexivity. Qed.

Lemma walk_Reach (ss : list nat) : forall x kb nx y ny,
  es !! x = Some nx -> kb <= length (label nx) -> walk es x ss = Some y -> es !! y = Some ny ->
  Reach es x kb (drop kb (skey es x ss)) y (length (label ny)).
Proof.
  induction ss as [|s ss IH]; intros x kb nx y ny Hx Hkb Hy Hny; cbn [walk] in Hy.
  - injection Hy as <-. rewrite Hx in Hny. injection Hny as <-.
    replace (drop kb (skey es x [])) with (take (length (label nx) - kb) (drop kb (label nx))).
    + apply reach_here; [exact Hx | lia].
    + cbn [skey]. rewrite Hx, !app_nil_r, take_ge; [reflexivity|]. rewrite length_drop. lia.
  - destruct (ptr_value es (x, s)) as [c|] eqn:Ec; [|discriminate].
    destruct (ptr_value_in es x s c Ec) as (nx' & Hnx' & Hs). rewrite Hx in Hnx'.
    injection Hnx' as <-.
    destruct (child_node es Hw x nx c Hx (ex_intro _ s Hs)) as (nc & a & r & Hnc & Hl & _ & _).
    assert (Hsk : skey es x (s :: ss) = label nx ++ skey es c ss).
    { cbn [skey]. rewrite Hx, Ec. reflexivity. }
    rewrite Hsk, drop_app_le by exact Hkb. rewrite (skey_head c nc a r ss Hnc Hl).
    apply (reach_down es x nx kb c nc a r); [exact Hx | exact Hkb | exists s; exact Hs | exact Hnc
      | exact Hl |].
    apply (IH c 1 nc y ny Hnc); [rewrite Hl; cbn; lia | exact Hy | exact Hny].
Qed.

Lemma Reach_walk (x kb : nat) (l : list Z) (y j : nat) :
  Reach es x kb l y j -> forall ny, es !! y = Some ny -> j = length (label ny) ->
  exists ss, walk es x ss = Some y /\ l = drop kb (skey es x ss).
Proof.
  induction 1 as [x nx kb j Hx Hj|x nx kb c nc a r l y j Hx Hkb Hin Hnc Hl HR IH];
    intros ny Hny Ej.
  - rewrite Hx in Hny. injection Hny as <-. exists []. split; [reflexivity|].
    cbn [skey]. rewrite Hx, !app_nil_r, Ej, take_ge; [reflexivity|]. rewrite length_drop. lia.
  - destruct (IH ny Hny Ej) as (ss & Hss & ->). destruct Hin as [h Hh].
    exists (h :: ss). split.
    + cbn [walk]. unfold ptr_value. cbn. rewrite Hx, Hh. exact Hss.
    + cbn [skey]. assert (Hp : ptr_value es (x, h) = Some c) by (unfold ptr_value; cbn; rewrite Hx, Hh; reflexivity).
      rewrite Hx, Hp, drop_app_le by exact Hkb. f_equal.
      symmetry. exact (skey_head c nc a r ss Hnc Hl).
Qed.

Lemma skey_inj (ss : list nat) : forall x ts y1 y2,
  is_Some (es !! x) -> walk es x ss = Some y1 -> walk es x ts = Some y2 ->
  skey es x ss = skey es x ts -> ss = ts.
Proof.
  induction ss as [|s ss IH]; intros x ts y1 y2 [nx Hx] H1 H2 Ek.
  - destruct ts as [|t ts]; [reflexivity|]. exfalso. cbn [walk] in H2.
    destruct (ptr_value es (x, t)) as [c|] eqn:Ec; [|discriminate].
    destruct (ptr_value_in es x t c Ec) as (nx' & Hnx' & Hs). rewrite Hx in Hnx'. injection Hnx' as <-.
    destruct (child_node es Hw x nx c Hx (ex_intro _ t Hs)) as (nc & a & r & Hnc & Hl & _ & _).
    cbn [skey] in Ek. rewrite Hx, Ec, app_nil_r in Ek.
    rewrite (skey_head c nc a r ts Hnc Hl) in Ek.
    apply (f_equal length) in Ek. rewrite length_app in Ek. cbn in Ek. lia.
  - cbn [walk] in H1. destruct (ptr_value es (x, s)) as [c|] eqn:Ec; [|discriminate].
    destruct (ptr_value_in es x s c Ec) as (nx' & Hnx' & Hs). rewrite Hx in Hnx'. injection Hnx' as <-.
    destruct (child_node es Hw x nx c Hx (ex_intro _ s Hs)) as (nc & a & r & Hnc & Hl & Ha & _).
    destruct ts as [|t ts].
    + exfalso. cbn [skey] in Ek. rewrite Hx, Ec, app_nil_r in Ek.
      rewrite (skey_head c nc a r ss Hnc Hl) in Ek.
      apply (f_equal length) in Ek. rewrite length_app in Ek. cbn in Ek. lia.
    + cbn [walk] in H2. destruct (ptr_value es (x, t)) as [c'|] eqn:Ec'; [|discriminate].
      destruct (ptr_value_in es x t c' Ec') as (nx' & Hnx' & Ht). rewrite Hx in Hnx'. injection Hnx' as <-.
      destruct (child_node es Hw x nx c' Hx (ex_intro _ t Ht)) as (nc' & a' & r' & Hnc' & Hl' & Ha' & _).
      cbn [skey] in Ek. rewrite Hx, Ec, Ec' in Ek. apply app_inv_head in Ek.
      rewrite (skey_head c nc a r ss Hnc Hl), (skey_head c' nc' a' r' ts Hnc' Hl') in Ek.
      injection Ek as Eaa Ek. subst a'.
      assert (Ecc : c = c').
      { apply (child_unique es (data nx)); [exact (wf_table es Hw x nx Hx) | exists s; exact Hs
          | exists t; exact Ht | congruence]. }
      subst c'.
      assert (Est : s = t).
      { destruct (wf_table es Hw x nx Hx) as [_ Hd]. rewrite (Hd s c Hs), (Hd t c Ht). reflexivity. }
      subst t. f_equal. apply (IH c ts y1 y2); [exists nc; exact Hnc | exact H1 | exact H2 |].
      rewrite (skey_head c nc a r ss Hnc Hl), (skey_head c nc a r ts Hnc Hl), Ek. reflexivity.
Qed.

Lemma walk_inj (ss ts : list nat) (y : nat) :
  walk es 0 ss = Some y -> walk es 0 ts = Some y -> ss = ts.
Proof.
  intros H1 H2. destruct (walk_root_lookup ss y H1) as [ny Hny].
  assert (Hr : is_Some (es !! 0)) by (apply lookup_lt_is_Some_2; exact (wf_root es Hw)).
  destruct Hr as [root Hroot].
  pose proof (walk_Reach ss 0 0 root y ny Hroot ltac:(lia) H1 Hny) as R1.
  pose proof (walk_Reach ts 0 0 root y ny Hroot ltac:(lia) H2 Hny) as R2.
  rewrite drop_0 in R1, R2.
  apply (skey_inj ss 0 ts y y); [exists root; exact Hroot | exact H1 | exact H2 |].
  exact (wf_inj es Hw _ _ y ny Hny R1 R2).
Qed.

End WalkWf.

Lemma after_nil (ts : list nat) : ~ after_slots [] ts.
Proof. intros (pre & a & b & r & r' & _ & E & _). destruct pre; discriminate. Qed.

Lemma after_snoc (ss0 : list nat) (s : nat) (ts : list nat) :
  after_slots (ss0 ++ [s]) ts <->
  (exists b r', s < b /\ ts = ss0 ++ b :: r') \/ after_slots ss0 ts.
Proof.
  split.
  - intros (pre & a & b & r & r' & Hab & E & ->).
    destruct (snoc_split ss0 pre r s a E) as [(-> & -> & ->) | (r0 & -> & ->)].
    + left. exists b, r'. split; [exact Hab | reflexivity].
    + right. exists pre, a, b, r0, r'. auto.
  - intros [(b & r' & Hb & ->) | (pre & a & b & r & r' & Hab & -> & ->)].
    + exists ss0, s, b, [], r'. auto.
    + exists pre, a, b, (r ++ [s]), r'. split; [exact Hab|]. split; [|reflexivity].
      rewrite <- app_assoc. reflexivity.
Qed.

Lemma after_lexlt (ss ts u : list nat) : after_slots ss ts -> lexlt (ss ++ u) ts.
Proof.
  intros (pre & a & b & r & r' & Hab & -> & ->). rewrite <- app_assoc. apply lexlt_div. exact Hab.
Qed.

Section FirstLive.

Lemma first_live_some (d : list (option nat)) : forall i j, first_live d i = Some j ->
  i <= j /\ (exists c, d !! (j - i) = Some (Some c)) /\
  forall k c, k < j - i -> d !! k <> Some (Some c).
Proof.
  induction d as [|o d IH]; intros i j H; cbn in H; [discriminate|].
  destruct o as [c|].
  - injection H as <-. split; [lia|]. split.
    + exists c. rewrite Nat.sub_diag. reflexivity.
    + intros k c' Hk. lia.
  - destruct (IH (S i) j H) as (Hij & (c & Hc) & Hmin). split; [lia|]. split.
    + exists c. replace (j - i) with (S (j - S i)) by lia. exact Hc.
    + intros [|k] c' Hk; cbn; [discriminate|]. apply Hmin. lia.
Qed.

Lemma first_live_none (d : list (option nat)) : forall i, first_live d i = None ->
  forall k c, d !! k <> Some (Some c).
Proof.
  induction d as [|o d IH]; intros i H k c; cbn in H; [discriminate|].
  destruct o as [c'|]; [discriminate|].
  destruct k as [|k]; cbn; [discriminate|]. exact (IH (S i) H k c).
Qed.

End FirstLive.

Section Steps.
Context {Slot : Type}.
Variable es : list (TrieNode Slot).

Lemma ptr_value_node (x s : nat) (nx : TrieNode Slot) (c : nat) :
  es !! x = Some nx -> ptr_value es (x, s) = Some c <-> data nx !! s = Some (Some c).
Proof.
  intros Hx. unfold ptr_value. cbn. rewrite Hx.
  destruct (data nx !! s) as [[c'|]|]; split; intros H; congruence.
Qed.

Lemma walk_ext_live (ss : list nat) (y k : nat) (u : list nat) :
  walk es 0 ss = Some y -> walk es 0 (ss ++ k :: u) <> None ->
  exists c, ptr_value es (y, k) = Some c.
Proof.
  intros H1 H2. rewrite walk_app, H1 in H2. cbn [walk] in H2.
  destruct (ptr_value es (y, k)) as [c|]; [exists c; reflexivity | congruence].
Qed.

Lemma climb_step (fuel : nat) (itn : IteratorInternal) : m_ptrs itn <> [] ->
  climb es (S fuel) itn =
  match step_up es itn with
  | None => None
  | Some (true, i) => Some i
  | Some (false, i) => climb es fuel i
  end.
Proof. intros H. cbn [climb]. destruct (m_ptrs itn); [contradiction | reflexivity]. Qed.

Lemma step_up_snoc (b : list Z) (r : option nat) (l : list (nat * nat)) (p : nat * nat) :
  step_up es (mk_iter b r (l ++ [p])) = step_fore es (mk_iter b r l).
Proof. unfold step_up. cbn [m_ptrs base_prefix m_root]. rewrite removelast_last. reflexivity. Qed.

Lemma step_fore_root (b : list Z) :
  step_fore es (mk_iter b (Some 0) []) = Some (false, mk_iter b (Some 0) []).
Proof. reflexivity. Qed.

Lemma step_fore_cursor (b : list Z) (ss0 : list nat) (p : nat) (np : TrieNode Slot) (s : nat) :
  walk es 0 ss0 = Some p -> es !! p = Some np ->
  step_fore es (mk_iter b (Some 0) (ptrs_of es 0 ss0 ++ [(p, s)])) =
  let s' := match first_live (drop (S s) (data np)) (S s) with
            | Some i => i | None => length (data np) end in
  Some (negb (Nat.eqb s' (length (data np))), mk_iter b (Some 0) (ptrs_of es 0 ss0 ++ [(p, s')])).
Proof.
  intros Hw Hp. unfold step_fore. rewrite iget_snoc1, (iget_cursor es b ss0 p Hw), Hp.
  cbn [m_ptrs base_prefix m_root]. rewrite last_snoc, removelast_last. reflexivity.
Qed.

Lemma step_down_cursor (b : list Z) (ss : list nat) (y : nat) (ny : TrieNode Slot) :
  walk es 0 ss = Some y -> es !! y = Some ny ->
  step_down es (mk_iter b (Some 0) (ptrs_of es 0 ss)) =
  match first_live (data ny) 0 with
  | Some i => Some (true, mk_iter b (Some 0) (ptrs_of es 0 (ss ++ [i])))
  | None => Some (false, mk_iter b (Some 0) (ptrs_of es 0 ss))
  end.
Proof.
  intros Hw Hy. unfold step_down. rewrite (iget_cursor es b ss y Hw), Hy.
  destruct (first_live (data ny) 0); [|reflexivity].
  rewrite (ptrs_of_snoc es 0 ss n y Hw). reflexivity.
Qed.

Lemma length_ptrs_of (ss : list nat) : forall x y, walk es x ss = Some y -> length (ptrs_of es x ss) = length ss.
Proof.
  induction ss as [|s ss IH]; intros x y H; [reflexivity|]. cbn [walk] in H. cbn [ptrs_of length].
  destruct (ptr_value es (x, s)) as [c|]; [|discriminate]. f_equal. exact (IH c y H).
Qed.

End Steps.

Section NextWf.
Context {Slot : Type}.
Variable es : list (TrieNode Slot).
Hypothesis Hw : wf es.

Lemma climb_cursor (fuel : nat) : forall ss0 p s X b,
  walk es 0 ss0 = Some p ->
  (forall j c, s < j -> ptr_value es (p, j) <> Some c) ->
  length ss0 < fuel ->
  exists impl', climb es fuel (mk_iter b (Some 0) (ptrs_of es 0 ss0 ++ [(p, X)])) = Some impl' /\
  ((m_root impl' = None /\ forall ts, walk es 0 ts <> None -> ~ after_slots (ss0 ++ [s]) ts) \/
   (exists ss' y', impl' = mk_iter b (Some 0) (ptrs_of es 0 ss') /\ walk es 0 ss' = Some y' /\
      after_slots (ss0 ++ [s]) ss' /\
      forall ts, walk es 0 ts <> None -> after_slots (ss0 ++ [s]) ts -> ts = ss' \/ lexlt ss' ts)).
Proof.
  induction fuel as [|f IH]; intros ss0 p s X b Hp Hdead Hlen; [lia|].
  rewrite climb_step by (destruct (ptrs_of es 0 ss0); discriminate).
  rewrite step_up_snoc.
  (* positions after [ss0 ++ [s]] are the positions after [ss0] *)
  assert (Htr : forall ts, walk es 0 ts <> None -> after_slots (ss0 ++ [s]) ts -> after_slots ss0 ts).
  { intros ts Hts Ha. apply after_snoc in Ha as [(b' & r' & Hb & ->) | Ha]; [|exact Ha].
    exfalso. destruct (walk_ext_live es ss0 p b' r' Hp Hts) as [c Hc]. exact (Hdead b' c Hb Hc). }
  destruct ss0 as [|s0 ss1] using rev_ind.
  - cbn in Hp. injection Hp as <-. cbn [ptrs_of]. rewrite step_fore_root.
    exists (mk_iter b None []). split; [destruct f; reflexivity|].
    left. split; [reflexivity|]. intros ts Hts Ha. exact (after_nil ts (Htr ts Hts Ha)).
  - clear IHss1. rewrite walk_snoc in Hp.
    destruct (walk es 0 ss1) as [p0|] eqn:Hp0; [|discriminate].
    destruct (ptr_value_in es p0 s0 p Hp) as (np0 & Hnp0 & _).
    rewrite (ptrs_of_snoc es 0 ss1 s0 p0 Hp0), (step_fore_cursor es b ss1 p0 np0 s0 Hp0 Hnp0); cbv zeta.
    rewrite length_app in Hlen. cbn in Hlen.
    destruct (first_live (drop (S s0) (data np0)) (S s0)) as [j|] eqn:Ej.
    + destruct (first_live_some _ _ _ Ej) as (Hj & (c & Hc) & Hmin).
      rewrite lookup_drop in Hc. replace (S s0 + (j - S s0)) with j in Hc by lia.
      assert (Hjl : j < length (data np0)) by (apply lookup_lt_Some in Hc; exact Hc).
      replace (negb (j =? length (data np0))) with true by (symmetry; apply negb_true_iff, Nat.eqb_neq; lia).
      exists (mk_iter b (Some 0) (ptrs_of es 0 (ss1 ++ [j]))). split.
      { rewrite (ptrs_of_snoc es 0 ss1 j p0 Hp0). reflexivity. }
      right. exists (ss1 ++ [j]), c. split; [reflexivity|]. split.
      { rewrite walk_snoc, Hp0. apply (ptr_value_node es p0 j np0 c Hnp0). exact Hc. }
      split.
      { exists ss1, s0, j, [s], []. split; [lia|]. rewrite <- app_assoc. auto. }
      intros ts Hts Ha. apply Htr in Ha; [|exact Hts].
      apply after_snoc in Ha as [(b' & r' & Hb & ->) | Ha].
      * destruct (walk_ext_live es ss1 p0 b' r' Hp0 Hts) as [c' Hc'].
        apply (ptr_value_node es p0 b' np0 c' Hnp0) in Hc'.
        destruct (Nat.lt_trichotomy b' j) as [Hlt | [-> | Hgt]].
        -- exfalso. apply (Hmin (b' - S s0) c'); [lia|].
           rewrite lookup_drop. replace (S s0 + (b' - S s0)) with b' by lia. exact Hc'.
        -- replace (ss1 ++ j :: r') with ((ss1 ++ [j]) ++ r') by (rewrite <- app_assoc; reflexivity).
           destruct (le_ext (ss1 ++ [j]) r') as [E | E]; [left; exact E | right; exact E].
        -- right. replace (ss1 ++ [j]) with (ss1 ++ j :: []) by reflexivity. apply lexlt_div. exact Hgt.
      * right. apply after_lexlt. exact Ha.
    + replace (negb (length (data np0) =? length (data np0))) with false by (rewrite Nat.eqb_refl; reflexivity).
      assert (Hdead0 : forall j c, s0 < j -> ptr_value es (p0, j) <> Some c).
      { intros j c Hj Hc. apply (ptr_value_node es p0 j np0 c Hnp0) in Hc.
        apply (first_live_none _ _ Ej (j - S s0) c). rewrite lookup_drop.
        replace (S s0 + (j - S s0)) with j by lia. exact Hc. }
      destruct (IH ss1 p0 s0 (length (data np0)) b Hp0 Hdead0 ltac:(lia)) as (impl' & Hc & Hres).
      exists impl'. split; [exact Hc|].
      destruct Hres as [(Hr & Hno) | (ss' & y' & -> & Hy' & Ha' & Hleast)].
      * left. split; [exact Hr|]. intros ts Hts Ha. exact (Hno ts Hts (Htr ts Hts Ha)).
      * right. exists ss', y'. split; [reflexivity|]. split; [exact Hy'|]. split.
        { apply after_snoc. right. exact Ha'. }
        intros ts Hts Ha. exact (Hleast ts Hts (Htr ts Hts Ha)).
Qed.

Lemma no_live_after (ss ts : list nat) (y : nat) (ny : TrieNode Slot) :
  walk es 0 ss = Some y -> es !! y = Some ny ->
  (forall k c, data ny !! k <> Some (Some c)) ->
  walk es 0 ts <> None -> lexlt ss ts -> after_slots ss ts.
Proof.
  intros Hy Hny Hdead Hts Hlt. destruct (lexlt_inv ss ts Hlt) as [(u & Hu & ->) | Ha].
  - exfalso. destruct u as [|k u]; [contradiction|].
    destruct (walk_ext_live es ss y k u Hy Hts) as [c Hc].
    apply (ptr_value_node es y k ny c Hny) in Hc. exact (Hdead k c Hc).
  - exact Ha.
Qed.

Lemma next_cursor (b : list Z) (ss : list nat) (y : nat) :
  walk es 0 ss = Some y ->
  exists impl', next es (mk_iter b (Some 0) (ptrs_of es 0 ss)) = Some impl' /\
  ((m_root impl' = None /\ forall ts, walk es 0 ts <> None -> ~ lexlt ss ts) \/
   (exists ss' y', impl' = mk_iter b (Some 0) (ptrs_of es 0 ss') /\ walk es 0 ss' = Some y' /\
      lexlt ss ss' /\
      forall ts, walk es 0 ts <> None -> lexlt ss ts -> ts = ss' \/ lexlt ss' ts)).
Proof.
  intros Hy. destruct (walk_root_lookup es Hw ss y Hy) as [ny Hny].
  unfold next. rewrite (step_down_cursor es b ss y ny Hy Hny).
  destruct (first_live (data ny) 0) as [i|] eqn:Ei.
  - destruct (first_live_some _ _ _ Ei) as (_ & (c & Hc) & Hmin). rewrite Nat.sub_0_r in Hc, Hmin.
    exists (mk_iter b (Some 0) (ptrs_of es 0 (ss ++ [i]))). split; [reflexivity|].
    right. exists (ss ++ [i]), c. split; [reflexivity|]. split.
    { rewrite walk_snoc, Hy. apply (ptr_value_node es y i ny c Hny). exact Hc. }
    split; [apply lexlt_ext; discriminate|].
    intros ts Hts Hlt. destruct (lexlt_inv ss ts Hlt) as [(u & Hu & ->) | Ha].
    + destruct u as [|k u]; [contradiction|].
      destruct (walk_ext_live es ss y k u Hy Hts) as [c' Hc'].
      apply (ptr_value_node es y k ny c' Hny) in Hc'.
      destruct (Nat.lt_trichotomy k i) as [Hlt' | [-> | Hgt]].
      * exfalso. exact (Hmin k c' Hlt' Hc').
      * replace (ss ++ i :: u) with ((ss ++ [i]) ++ u) by (rewrite <- app_assoc; reflexivity).
        destruct (le_ext (ss ++ [i]) u) as [E | E]; [left; exact E | right; exact E].
      * right. apply lexlt_div. exact Hgt.
    + right. apply after_lexlt. exact Ha.
  - pose proof (first_live_none _ _ Ei) as Hdead.
    destruct ss as [|s ss0] using rev_ind.
    + cbn in Hy. injection Hy as <-. cbn [ptrs_of]. rewrite step_fore_root.
      exists (mk_iter b None []). split; [reflexivity|].
      left. split; [reflexivity|]. intros ts Hts Hlt.
      exact (after_nil ts (no_live_after [] ts 0 ny eq_refl Hny Hdead Hts Hlt)).
    + clear IHss0. pose proof Hy as Hy'. rewrite walk_snoc in Hy.
      destruct (walk es 0 ss0) as [p|] eqn:Hp; [|discriminate].
      destruct (ptr_value_in es p s y Hy) as (np & Hnp & _).
      rewrite (ptrs_of_snoc es 0 ss0 s p Hp), (step_fore_cursor es b ss0 p np s Hp Hnp); cbv zeta.
      destruct (first_live (drop (S s) (data np)) (S s)) as [j|] eqn:Ej.
      * destruct (first_live_some _ _ _ Ej) as (Hj & (c & Hc) & Hmin).
        rewrite lookup_drop in Hc. replace (S s + (j - S s)) with j in Hc by lia.
        assert (Hjl : j < length (data np)) by (apply lookup_lt_Some in Hc; exact Hc).
        replace (negb (j =? length (data np))) with true by (symmetry; apply negb_true_iff, Nat.eqb_neq; lia).
        exists (mk_iter b (Some 0) (ptrs_of es 0 (ss0 ++ [j]))). split.
        { rewrite (ptrs_of_snoc es 0 ss0 j p Hp). reflexivity. }
        right. exists (ss0 ++ [j]), c. split; [reflexivity|]. split.
        { rewrite walk_snoc, Hp. apply (ptr_value_node es p j np c Hnp). exact Hc. }
        split.
        { replace (ss0 ++ [s]) with (ss0 ++ s :: []) by reflexivity. apply lexlt_div. lia. }
        intros ts Hts Hlt. pose proof (no_live_after _ ts y ny Hy' Hny Hdead Hts Hlt) as Ha.
        apply after_snoc in Ha as [(b' & r' & Hb & ->) | Ha].
        -- destruct (walk_ext_live es ss0 p b' r' Hp Hts) as [c' Hc'].
           apply (ptr_value_node es p b' np c' Hnp) in Hc'.
           destruct (Nat.lt_trichotomy b' j) as [Hlt' | [-> | Hgt]].
           ++ exfalso. apply (Hmin (b' - S s) c'); [lia|].
              rewrite lookup_drop. replace (S s + (b' - S s)) with b' by lia. exact Hc'.
           ++ replace (ss0 ++ j :: r') with ((ss0 ++ [j]) ++ r') by (rewrite <- app_assoc; reflexivity).
              destruct (le_ext (ss0 ++ [j]) r') as [E | E]; [left; exact E | right; exact E].
           ++ right. replace (ss0 ++ [j]) with (ss0 ++ j :: []) by reflexivity. apply lexlt_div. exact Hgt.
        -- right. apply after_lexlt. exact Ha.
      * replace (negb (length (data np) =? length (data np))) with false by (rewrite Nat.eqb_refl; reflexivity).
        assert (Hdead0 : forall j c, s < j -> ptr_value es (p, j) <> Some c).
        { intros j c Hj Hc. apply (ptr_value_node es p j np c Hnp) in Hc.
          apply (first_live_none _ _ Ej (j - S s) c). rewrite lookup_drop.
          replace (S s + (j - S s)) with j by lia. exact Hc. }
        cbn [m_ptrs]. rewrite length_app, (length_ptrs_of es ss0 0 p Hp). cbn [length].
        destruct (climb_cursor (length ss0 + 1) ss0 p s (length (data np)) b Hp Hdead0 ltac:(lia))
          as (impl' & Hc & Hres).
        exists impl'. split; [exact Hc|].
        destruct Hres as [(Hr & Hno) | (ss' & y2 & -> & Hy2 & Ha' & Hleast)].
        -- left. split; [exact Hr|]. intros ts Hts Hlt.
           exact (Hno ts Hts (no_live_after _ ts y ny Hy' Hny Hdead Hts Hlt)).
        -- right. exists ss', y2. split; [reflexivity|]. split; [exact Hy2|]. split.
           { replace (ss0 ++ [s]) with ((ss0 ++ [s]) ++ []) by apply app_nil_r. apply after_lexlt. exact Ha'. }
           intros ts Hts Hlt. exact (Hleast ts Hts (no_live_after _ ts y ny Hy' Hny Hdead Hts Hlt)).
Qed.

End NextWf.

Section Enum.
Context {Slot Val : Type} `{VH : ValueHolder Slot Val}.
Variable es : list (TrieNode Slot).
Hypothesis Hw : wf es.

Lemma nodup_bound (H : list nat) : NoDup H -> (forall h, In h H -> h < length es) -> length H <= length es.
Proof.
  intros Hn Hlt. rewrite <- (length_seq (length es) 0).
  apply List.NoDup_incl_length; [apply NoDup_ListNoDup; exact Hn|]. intros h Hh. apply in_seq. specialize (Hlt h Hh). lia.
Qed.

Lemma valued_walk (ts : list nat) : valued es ts -> walk es 0 ts <> None.
Proof. intros (y & ny & Hy & _). congruence. Qed.

Lemma lexlt_asym (l l' : list nat) : lexlt l l' -> l' = l \/ lexlt l' l -> False.
Proof.
  intros H [-> | H']; [exact (lexlt_irrefl l H) | exact (lexlt_irrefl l (lexlt_trans _ _ _ H H'))].
Qed.

Lemma next_value_cursor (fuel : nat) : forall b ss y (H : list nat),
  walk es 0 ss = Some y -> NoDup H ->
  (forall h, In h H -> h < length es /\ exists ts, walk es 0 ts = Some h /\ (ts = ss \/ lexlt ts ss)) ->
  length es < length H + fuel ->
  exists r, next_value es fuel (mk_iter b (Some 0) (ptrs_of es 0 ss)) = Some r /\
  ((r.1 = false /\ m_root r.2 = None /\ forall ts, valued es ts -> ~ lexlt ss ts) \/
   (exists ss', r = (true, mk_iter b (Some 0) (ptrs_of es 0 ss')) /\ valued es ss' /\ lexlt ss ss' /\
      forall ts, valued es ts -> lexlt ss ts -> ts = ss' \/ lexlt ss' ts)).
Proof.
  induction fuel as [|f IH]; intros b ss y H Hy Hn Hin Hf.
  - exfalso. pose proof (nodup_bound H Hn (fun h Hh => proj1 (Hin h Hh))). lia.
  - cbn [next_value]. destruct (next_cursor es Hw b ss y Hy) as (impl' & -> & Hres).
    destruct Hres as [(Hr & Hno) | (ss1 & y1 & -> & Hy1 & Hlt1 & Hleast)].
    + rewrite Hr. exists (false, impl'). split; [reflexivity|]. left.
      split; [reflexivity|]. split; [exact Hr|]. intros ts Hts. exact (Hno ts (valued_walk ts Hts)).
    + cbn [m_root]. rewrite (iget_cursor es b ss1 y1 Hy1).
      destruct (walk_root_lookup es Hw ss1 y1 Hy1) as [ny1 Hny1]. rewrite Hny1.
      destruct (has_value (value ny1)) eqn:Hv.
      * exists (true, mk_iter b (Some 0) (ptrs_of es 0 ss1)). split; [reflexivity|]. right.
        exists ss1. split; [reflexivity|]. split; [exists y1, ny1; auto|]. split; [exact Hlt1|].
        intros ts Hts. exact (Hleast ts (valued_walk ts Hts)).
      * assert (Hnot1 : ~ valued es ss1).
        { intros (y' & ny' & Hy' & Hny' & Hv'). rewrite Hy1 in Hy'. injection Hy' as <-.
          rewrite Hny1 in Hny'. injection Hny' as <-. congruence. }
        destruct (IH b ss1 y1 (y1 :: H) Hy1) as (r & Hr & Hres).
        { constructor; [|exact Hn]. intros Hh. apply list_elem_of_In in Hh. destruct (Hin y1 Hh) as (_ & ts & Hts & Hle).
          rewrite (walk_inj es Hw ts ss1 y1 Hts Hy1) in Hle. exact (lexlt_asym ss ss1 Hlt1 Hle). }
        { intros h [<- | Hh].
          - split; [exact (lookup_lt_Some _ _ _ Hny1)|]. exists ss1. auto.
          - destruct (Hin h Hh) as (Hl & ts & Hts & Hle). split; [exact Hl|]. exists ts. split; [exact Hts|].
            right. destruct Hle as [-> | Hle]; [exact Hlt1 | exact (lexlt_trans _ _ _ Hle Hlt1)]. }
        { cbn [length]. lia. }
        exists r. split; [exact Hr|].
        destruct Hres as [(Hr1 & Hr2 & Hno) | (ss' & -> & Hv' & Hlt' & Hleast')].
        -- left. split; [exact Hr1|]. split; [exact Hr2|]. intros ts Hts Hlt.
           destruct (Hleast ts (valued_walk ts Hts) Hlt) as [-> | Hlt2]; [exact (Hnot1 Hts)|].
           exact (Hno ts Hts Hlt2).
        -- right. exists ss'. split; [reflexivity|]. split; [exact Hv'|].
           split; [exact (lexlt_trans _ _ _ Hlt1 Hlt')|].
           intros ts Hts Hlt. destruct (Hleast ts (valued_walk ts Hts) Hlt) as [-> | Hlt2]; [exfalso; exact (Hnot1 Hts)|].
           exact (Hleast' ts Hts Hlt2).
Qed.

Lemma incr_cursor (b : list Z) (ss : list nat) (y : nat) :
  walk es 0 ss = Some y ->
  (incr es (iter (mk_iter b (Some 0) (ptrs_of es 0 ss))) = Some iter_end /\
     forall ts, valued es ts -> ~ lexlt ss ts) \/
  (exists ss', incr es (iter (mk_iter b (Some 0) (ptrs_of es 0 ss))) =
      Some (iter (mk_iter b (Some 0) (ptrs_of es 0 ss'))) /\ valued es ss' /\ lexlt ss ss' /\
    forall ts, valued es ts -> lexlt ss ts -> ts = ss' \/ lexlt ss' ts).
Proof.
  intros Hy. unfold incr.
  destruct (next_value_cursor (S (length es)) b ss y [] Hy (NoDup_nil_2) ltac:(intros h [])
    ltac:(cbn; lia)) as (r & -> & Hres).
  destruct Hres as [(Hr1 & _ & Hno) | (ss' & -> & Hres)].
  - left. destruct r as [[|] impl']; cbn in Hr1; [discriminate|]. split; [reflexivity | exact Hno].
  - right. exists ss'. split; [reflexivity | exact Hres].
Qed.

Lemma enumerate_cursor (fuel : nat) : forall ss (H : list nat),
  valued es ss -> NoDup H ->
  (forall h, In h H -> h < length es /\ exists ts, walk es 0 ts = Some h /\ lexlt ts ss) ->
  length es <= length H + fuel ->
  exists ks, enumerate es fuel (iter (mk_iter [] (Some 0) (ptrs_of es 0 ss))) = Some ks /\ NoDup ks /\
    forall k, In k ks <-> exists ts, valued es ts /\ (ts = ss \/ lexlt ss ts) /\ skey es 0 ts = k.
Proof.
  assert (Hr : is_Some (es !! 0)) by (apply lookup_lt_is_Some_2; exact (wf_root es Hw)).
  induction fuel as [|f IH]; intros ss H Hv Hn Hin Hf;
    destruct Hv as (y & ny & Hy & Hny & Hvy).
  - exfalso. assert (Hy' : ~ In y H).
    { intros Hh. destruct (Hin y Hh) as (_ & ts & Hts & Hlt).
      rewrite (walk_inj es Hw ts ss y Hts Hy) in Hlt. exact (lexlt_irrefl ss Hlt). }
    pose proof (nodup_bound (y :: H) (NoDup_cons_2 _ _ (fun Hh => Hy' (proj1 (list_elem_of_In _ _) Hh)) Hn)) as Hb.
    cbn [length] in Hb. assert (S (length H) <= length es); [|lia].
    apply Hb. intros h [<- | Hh]; [exact (lookup_lt_Some _ _ _ Hny) | exact (proj1 (Hin h Hh))].
  - cbn [enumerate]. rewrite (get_key_str_cursor es Hw ss y Hy).
    assert (Hkey : forall ts, valued es ts -> (ts = ss \/ lexlt ss ts) -> ts <> ss -> skey es 0 ts <> skey es 0 ss).
    { intros ts (y' & ny' & Hy' & _) _ Hne Ek. apply Hne. exact (skey_inj es Hw ts 0 ss y' y Hr Hy' Hy Ek). }
    destruct (incr_cursor [] ss y Hy) as [(-> & Hno) | (ss1 & -> & Hv1 & Hlt1 & Hleast)].
    + exists [skey es 0 ss]. split; [destruct f; reflexivity|]. split; [apply NoDup_singleton|].
      intros k. split.
      * intros [<- | []]. exists ss. split; [exists y, ny; auto|]. auto.
      * intros (ts & Hts & [-> | Hlt] & <-); [left; reflexivity|]. exfalso. exact (Hno ts Hts Hlt).
    + assert (Hy' : ~ In y H).
      { intros Hh. destruct (Hin y Hh) as (_ & ts & Hts & Hlt).
        rewrite (walk_inj es Hw ts ss y Hts Hy) in Hlt. exact (lexlt_irrefl ss Hlt). }
      destruct (IH ss1 (y :: H) Hv1 (NoDup_cons_2 _ _ (fun Hh => Hy' (proj1 (list_elem_of_In _ _) Hh)) Hn)) as (ks & Hks & Hnd & Hiff).
      { intros h [<- | Hh].
        - split; [exact (lookup_lt_Some _ _ _ Hny)|]. exists ss. auto.
        - destruct (Hin h Hh) as (Hl & ts & Hts & Hlt). split; [exact Hl|].
          exists ts. split; [exact Hts | exact (lexlt_trans _ _ _ Hlt Hlt1)]. }
      { cbn [length]. lia. }
      rewrite Hks. cbn. exists (skey es 0 ss :: ks). split; [reflexivity|]. split.
      * constructor; [|exact Hnd]. intros Hk. apply list_elem_of_In, Hiff in Hk as (ts & Hts & Hle & Ek).
        assert (Hlt : lexlt ss ts) by (destruct Hle as [-> | Hle]; [exact Hlt1 | exact (lexlt_trans _ _ _ Hlt1 Hle)]).
        apply (Hkey ts Hts (or_intror Hlt)); [intros ->; exact (lexlt_irrefl ss Hlt) | exact Ek].
      * intros k. split.
        -- intros [<- | Hk].
           ++ exists ss. split; [exists y, ny; auto|]. auto.
           ++ apply Hiff in Hk as (ts & Hts & Hle & Ek). exists ts. split; [exact Hts|]. split; [|exact Ek].
              right. destruct Hle as [-> | Hle]; [exact Hlt1 | exact (lexlt_trans _ _ _ Hlt1 Hle)].
        -- intros (ts & Hts & [-> | Hlt] & <-); [left; reflexivity|]. right. apply Hiff.
           exists ts. split; [exact Hts|]. split; [exact (Hleast ts Hts Hlt) | reflexivity].
Qed.

End Enum.

Section Begin.
Context {Slot Val : Type} `{VH : ValueHolder Slot Val}.

Lemma valued_contains (st : trie_map Slot) (k : list Z) :
  wf (edges st) ->
  (exists ts, valued (edges st) ts /\ skey (edges st) 0 ts = k) <-> contains st k = true.
Proof.
  intros Hw. destruct (lookup_lt_is_Some_2 (edges st) 0 (wf_root _ Hw)) as [root Hroot].
  destruct (contains_At st k Hw) as [Hc1 Hc2]. split.
  - intros (ts & (y & ny & Hy & Hny & Hv) & <-). rewrite (Hc1 (value ny)); [exact Hv|].
    exists y, ny. split; [exact Hny|]. split; [|reflexivity].
    pose proof (walk_Reach (edges st) Hw ts 0 0 root y ny Hroot ltac:(lia) Hy Hny) as R.
    rewrite drop_0 in R. exact R.
  - intros Hc. destruct (At_dec st k (or_intror Hw)) as [(s & Hs) | Hn];
      [|rewrite (Hc2 Hn) in Hc; discriminate].
    pose proof (Hc1 s Hs) as E. destruct Hs as (y & ny & Hny & R & Es).
    destruct (Reach_walk (edges st) 0 0 k y _ R ny Hny eq_refl) as (ts & Hts & Ek).
    rewrite drop_0 in Ek. exists ts. split; [|symmetry; exact Ek].
    exists y, ny. split; [exact Hts|]. split; [exact Hny|]. rewrite Es, <- E. exact Hc.
Qed.

Lemma begin_root (st : trie_map Slot) :
  wf (edges st) -> begin st = normalize (edges st) (iter (mk_iter [] (Some 0) [])).
Proof.
  intros Hw. unfold begin. destruct (edges st) eqn:E; [|reflexivity].
  exfalso. pose proof (wf_root _ Hw) as H. cbn in H. lia.
Qed.

Lemma nil_or_after (ts : list nat) : ts = [] \/ lexlt [] ts.
Proof. destruct ts; [left; reflexivity | right; constructor]. Qed.

(** [begin()] followed by [++] until [end()] lists every key whose
    [contains] is [true], each exactly once, after any sequence of
    insertions; [fuel] bounds the rounds and [length (edges st)] of them
    suffice. *)
Theorem begin_enumerates (ops : list (list Z * Val * (Val -> Val -> Val))) (fuel : nat) :
  Forall (fun o => Forall (fun a => is_char a = true) o.1.1) ops ->
  length (edges (run_ops empty_trie ops)) <= fuel ->
  exists i ks, begin (run_ops empty_trie ops) = Some i /\
    enumerate (edges (run_ops empty_trie ops)) fuel i = Some ks /\
    NoDup ks /\ forall k, In k ks <-> contains (run_ops empty_trie ops) k = true.
Proof.
  intros Hch Hf. pose proof (reach_wf ops Hch) as Hwt.
  set (st := run_ops empty_trie ops) in *.
  destruct Hwt as [E | Hw].
  - exists iter_end, []. unfold begin. rewrite E. split; [reflexivity|].
    split; [destruct fuel; reflexivity|]. split; [apply NoDup_nil_2|].
    intros k. unfold contains. rewrite E. split; [intros []|discriminate].
  - rewrite (begin_root st Hw). set (es := edges st) in *.
    destruct (lookup_lt_is_Some_2 es 0 (wf_root _ Hw)) as [root Hroot].
    unfold normalize. change (iget es (mk_iter [] (Some 0) []) 0) with (Some 0). cbv beta iota.
    rewrite Hroot. destruct (has_value (value root)) eqn:Hv.
    + destruct (enumerate_cursor es Hw fuel [] [] ltac:(exists 0, root; auto) (NoDup_nil_2)
        ltac:(intros h []) ltac:(cbn; lia)) as (ks & Hks & Hnd & Hiff).
      exists (iter (mk_iter [] (Some 0) [])), ks. split; [reflexivity|]. split; [exact Hks|].
      split; [exact Hnd|]. intros k. rewrite Hiff, <- (valued_contains st k Hw). fold es. split.
      * intros (ts & Hts & _ & Ek). exists ts. auto.
      * intros (ts & Hts & Ek). exists ts. split; [exact Hts|]. split; [apply nil_or_after | exact Ek].
    + assert (Hnot : ~ valued es []).
      { intros (y & ny & Hy & Hny & Hv'). cbn in Hy. injection Hy as <-. congruence. }
      destruct (incr_cursor es Hw [] [] 0 eq_refl) as [(Hi & Hno) | (ss' & Hi & Hv' & _ & Hleast)];
        cbn [ptrs_of] in Hi; rewrite Hi.
      * exists iter_end, []. split; [reflexivity|]. split; [destruct fuel; reflexivity|].
        split; [apply NoDup_nil_2|]. intros k. rewrite <- (valued_contains st k Hw). fold es.
        split; [intros []|]. intros (ts & Hts & _). exfalso.
        destruct (nil_or_after ts) as [-> | Hlt]; [exact (Hnot Hts) | exact (Hno ts Hts Hlt)].
      * destruct (enumerate_cursor es Hw fuel ss' [] Hv' (NoDup_nil_2)
          ltac:(intros h []) ltac:(cbn; lia)) as (ks & Hks & Hnd & Hiff).
        exists (iter (mk_iter [] (Some 0) (ptrs_of es 0 ss'))), ks. split; [reflexivity|].
        split; [exact Hks|]. split; [exact Hnd|].
        intros k. rewrite Hiff, <- (valued_contains st k Hw). fold es. split.
        -- intros (ts & Hts & _ & Ek). exists ts. auto.
        -- intros (ts & Hts & Ek). exists ts. split; [exact Hts|]. split; [|exact Ek].
           destruct (nil_or_after ts) as [-> | Hlt]; [exfalso; exact (Hnot Hts)|].
           exact (Hleast ts Hts Hlt).
Qed.

End Begin.

Lemma begin_enumerates_witness :
  Forall (fun o : list Z * Z * (Z -> Z -> Z) => Forall (fun a => is_char a = true) o.1.1)
    [(str "ab", 1%Z, fun _ n => n); (str "ad", 2%Z, fun _ n => n); (str "b", 3%Z, fun _ n => n)] /\
  length (edges (run_ops (@empty_trie (option Z))
    [(str "ab", 1%Z, fun _ n => n); (str "ad", 2%Z, fun _ n => n); (str "b", 3%Z, fun _ n => n)])) <= 10 /\
  exists i ks,
    begin (run_ops (@empty_trie (option Z))
      [(str "ab", 1%Z, fun _ n => n); (str "ad", 2%Z, fun _ n => n); (str "b", 3%Z, fun _ n => n)]) = Some i /\
    enumerate (edges (run_ops (@empty_trie (option Z))
      [(str "ab", 1%Z, fun _ n => n); (str "ad", 2%Z, fun _ n => n); (str "b", 3%Z, fun _ n => n)])) 10 i = Some ks /\
    NoDup ks /\ forall k, In k ks <-> contains (run_ops (@empty_trie (option Z))
      [(str "ab", 1%Z, fun _ n => n); (str "ad", 2%Z, fun _ n => n); (str "b", 3%Z, fun _ n => n)]) k = true.
Proof.
  assert (Hch : Forall (fun o : list Z * Z * (Z -> Z -> Z) => Forall (fun a => is_char a = true) o.1.1)
    [(str "ab", 1%Z, fun _ n => n); (str "ad", 2%Z, fun _ n => n); (str "b", 3%Z, fun _ n => n)])
    by (repeat constructor).
  assert (Hf : length (edges (run_ops (@empty_trie (option Z))
    [(str "ab", 1%Z, fun _ n => n); (str "ad", 2%Z, fun _ n => n); (str "b", 3%Z, fun _ n => n)])) <= 10)
    by (apply Nat.leb_le; vm_compute; reflexivity).
  split; [exact Hch|]. split; [exact Hf|].
  exact (begin_enumerates (Slot:=option Z) (Val:=Z) _ 10 Hch Hf).
Defined.
